(* ===== verification/_CoqProject ===== *)
-Q . S2P
Prelude.v
JsString.v
Request.v
JsValue.v
Uri.v
UriDecode.v
Query.v
Json.v
JsonWf.v
Input.v
PageSpec.v
Browser.v
