(* ===== verification/Prelude.v ===== *)
(** * A verification development for githubAPI's [Request.js]

    The program ([src/githubAPI/javascript/Request.js], one immediately
    invoked function) is a browser page helper.  A text field holds a
    command [method*url*payload] or [query*url*json]; pressing Enter or
    clicking the button runs [callXhr], which runs [xhrApi] on the field's
    value.  [xhrApi] splits the command on [*] and calls [request] (a
    promise around one [XMLHttpRequest]), through [queryStringified] and
    [JSON.parse] for the [query] command, and hands the promise to
    [showResult], whose [then] and [catch] branches both call
    [genericHtml] to replace the [.response-data] element with the
    settled value as text.

    ** Files, and the part of the code each models

    - [Prelude] (this file): JavaScript strings as lists of UTF-16 code
      units ([jsstr] = [list Z], well-formed when every unit is in
      [0, 65536)), source literals [js "..."], abrupt completions
      ([completion], with stdpp's monad notation), the [js] hint
      databases and the tactics [zcase], [js_simpl], [compute_decide].
    - [JsString] (Module [JsString]): the string built-ins.
      [String.prototype.split] as the standard's index loop with fuel and
      the limit 2^32-1 ([js_split]) and as a structural split
      ([split_on]); [toUpperCase] as the interface [CaseMap] (a class of
      the laws the program needs, since the Unicode case table is not
      reproduced); ToBoolean on strings; integers printed in decimal.
    - [Request] (Module [Request]): [request] (lines 25-56) with the
      checks [XMLHttpRequest.open] makes ([open_error]: ByteString,
      method token, forbidden methods, URL parsing as a parameter
      [url_parses]), what the browser then transmits ([transmitted]: the
      method normalized by [open], no body for GET or HEAD), the callbacks
      [onload] and [onerror] (lines 39-54), and the outcome table of
      spec.md section 4.1 as [spec_outcome].
    - [JsValue] (Module [JsValue]): the values [JSON.parse] returns,
      ToBoolean, ToString with Number::toString (a completion: the
      TypeError of OrdinaryToPrimitive on an object with an own
      "toString" key, propagated through [join] for arrays), property
      access and
      [Object.keys] with the key order of OrdinaryOwnPropertyKeys; the
      well-formedness [val_wf] of a value (all its strings are code
      units) with a nested induction principle [jsval_ind'].
    - [Uri] (Module [Uri]): [encodeURIComponent] on code units.
    - [UriDecode] (Module [UriDecode]): [decodeURIComponent] (Decode of
      ECMA-262: ParseHexOctet, the UTF-8 checks, UTF16EncodeCodePoint)
      with fuel, used to read a query string back.
    - [Query] (Module [Query]): [queryStringified] (lines 58-64) as the
      code's loop, with [encodeURIComponent] as ToString then Encode
      ([encode_component]), the reference join [query_string_ref], and a reader
      [read_query] that splits a URL at [?], [&] and [=] and decodes.
    - [Json] (Module [Json]): [JSON.parse] as a recursive descent with
      fuel, and the proof that the fuel is enough.
    - [JsonWf] (Module [JsonWf]): the values [JSON.parse] returns are
      well-formed.
    - [Input] (Module [Input]): [xhrApi]'s dispatch (lines 66-70).
    - [Browser] (Module [Browser]): the page ([page]: field value,
      [.response-data] content, XHRs in flight as a [gmap], console,
      network log), [genericHtml] and [showResult] (lines 4-21),
      [callXhr] and the listeners (lines 74-85), and the completion of
      XHRs, as one deterministic [handle] per event-loop task, its step
      relation [step], runs [run] and reachability [reachable]; and the
      refinement of the specification [PageSpec] by the page.
    - [PageSpec] (Module [PageSpec]): the page as spec.md sections 4.2,
      5 and 6 describe it, a display sink and a set of requests in flight
      with the steps [spec_step] (idle, issue one request, settle at once
      with the missing-method message or an exception of [open], complete
      one request and show its outcome).

    ** What the theorems show

    - Request: the promise rejects exactly on statuses >= 400
      ([onload_rejects_iff]); off 2xx, the code refines the spec's
      outcome table ([on_event_refines_spec]); on 2xx it resolves with the
      raw body, not the spec's record ([onload_2xx_raw_body]); [request]
      sends exactly when the method is non-empty and [open] accepts it,
      with the normalised URL and body ([request_sent_iff],
      [request_no_method_iff]); the rejection text gives the status back
      ([reject_message_status]); TRACE never reaches the network, an
      empty URL becomes "undefined", 3xx and 2xx texts can coincide, and
      [request] itself does not uppercase a method
      ([request_method_not_uppercased]).
    - Input: the three-segment dispatch and the truncation of payloads
      at [*] ([xhrApi_dispatch]), the query command ([xhrApi_query]), and
      end to end, a query command with JSON either requests a URL that
      reads back to the typed URL and the object's keys with the ToString
      of their values, or throws the error of one key's pair, a URIError
      for an unpaired surrogate or the TypeError of a value whose
      ToString throws ([xhrApi_query_read_back]); a GET or HEAD command
      transmits no payload ([xhrApi_get_drops_payload]); its thrown
      SyntaxError without JSON, the case-sensitive [query] test and the
      empty method.  These hold for commands of every length: the
      segments read are those of the structural split ([segment_small]).
    - Query: the loop with its trailing [&] cut by [slice] equals the
      reference join ([queryStringified_ref]); the URL it builds reads
      back to the URL and every key with the string of its value
      ([queryStringified_read_back]); its query part is made of a fixed
      ASCII alphabet ([queryStringified_query_chars]); no keys gives the
      URL; it returns exactly when every key and value string can be
      encoded, and otherwise throws the error of one pair
      ([queryStringified_succeeds_iff]); a flat object gives the spec's
      [?k=v&...] in insertion order ([queryStringified_flat]); a value
      reaches the URL only through its ToString, so nested objects cannot
      be told apart ([queryStringified_value_to_string]); the keys are
      visited in the order of [Object.keys] ([query_keys_object_order]).
    - JsValue: ToString throws exactly on an object with an own
      "toString" key or an array holding one, and then a TypeError
      ([to_string_throws_iff]), so the callback of line 61 throws that
      TypeError exactly on such values ([query_pair_type_error]).
    - Json: fuel [2 * length + 2] is always enough
      ([json_parse_fuel_enough]), by a mutual induction on fuel whose
      step is a Section with the induction hypotheses as Hypotheses; the
      same scheme, in [JsonWf], shows that a parsed value is well-formed
      ([json_parse_wf]).
    - Uri and UriDecode: what an encoded string can contain
      ([encode_chars]), that it throws exactly on unpaired surrogates
      ([encode_throws_iff]), and that [decode] inverts [encode]
      ([decode_encode]), through the
      arithmetic form of the UTF-8 octets ([utf8_arith]).
    - Browser: an invariant of every reachable page, by rule induction
      ([reachable_page_inv]), which ties each XHR in flight to its entry
      in the network log; every run of the page is a run of [PageSpec],
      by a one-step simulation ([page_refines_spec]); a request in flight can always complete and
      is rendered ([xhr_done_renders]); along any run each XHR completes
      at most once ([run_completes_once]); the last completion wins
      ([last_completion_wins], spec.md section 8 property 7); one Enter
      makes at most one network call; Enter on a command [xhrApi] sends
      puts the call on the network and its completion is shown
      ([enter_then_complete]); and
      pressing Enter on a query command puts on the network a GET whose
      URL reads back to the typed URL and pairs ([enter_query_read_back]),
      while one whose JSON does not parse only logs the exception
      ([enter_query_bad_json]); and a run of events without Enter or a
      click sends nothing, by induction on the run
      ([quiet_run_no_request]).

    ** Bounds and fuel

    Code units are 16-bit ([str_wf]); HTTP statuses are whatever Z the
    transport reports (the XHR standard makes them unsigned shorts, and no
    theorem needs the bound).  [split] is the structural split cut after
    2^32-1 pieces ([js_split_take]), with the length of the string plus
    one as fuel for its loop; [xhrApi] reads only the first three.
    [JSON.parse] runs with [2 * length + 2] fuel, proved sufficient.
    Numbers are the decimals of their JSON literal; their ToString is the
    double's printing for literals of at most 15 significant digits.
    [decode] runs with the length of its input as fuel, enough since
    every step of Decode consumes at least one unit.

    ** Not modelled

    Every line of [Request.js] that computes is modelled; what is left
    out belongs to the browser and is either too large to reproduce
    faithfully or irrelevant to the program's behaviour:
    - the WHATWG URL parser ([url_parses] is a parameter of [request] and
      of every theorem that depends on it);
    - the Unicode case table of [toUpperCase] ([CaseMap] is an interface
      with the laws the program needs, and an ASCII instance);
    - the shortest round-trip printing of binary64 numbers: ToString of a
      JSON number is exact for literals of at most 15 significant digits,
      and longer literals would need IEEE-754 rounding;
    - the text a browser gives an exception object (the display keeps the
      exception value), and the abort and timeout events of an XHR, which
      the program never triggers (it sets no timeout and never aborts);
    - the HTML page itself (its initial state is [initial_page]) and the
      Jest test file, whose expectations appear in the findings of the
      manifest.
    [decodeURIComponent] is not called by the program: it is modelled only
    to state that the query string reads back. *)

From stdpp Require Export base list decidable sets.
From Stdlib Require Export ZArith Lia.
From Stdlib Require Ascii String.
Export String.StringSyntax.

Declare Scope js_scope.
Delimit Scope js_scope with js.
Open Scope Z_scope.
#[export] Set Warnings "-clear-no-such-hyp".

Create HintDb js discriminated.
#[export] Hint Constants Transparent : js.
Create Rewrite HintDb js.

(** ** Strings as code units *)

Abbreviation jsstr := (list Z).

(** A string literal of the source, as code units. *)
Definition js (s : String.string) : jsstr :=
  map (λ a, Z.of_N (Ascii.N_of_ascii a)) (String.list_ascii_of_string s).
Arguments js _%_string_scope.

(** A code unit is a 16-bit unsigned integer. *)
Definition unit_ok (c : Z) : Prop := 0 ≤ c < 65536.
#[export] Instance unit_ok_dec c : Decision (unit_ok c).
Proof. unfold unit_ok. apply _. Defined.

Definition str_wf (s : jsstr) : Prop := Forall unit_ok s.
#[export] Instance str_wf_dec s : Decision (str_wf s).
Proof. unfold str_wf. apply _. Defined.

(** ** Abrupt completions

    A built-in either returns normally or throws one of the standard
    errors; this is the completion record of ECMA-262 restricted to what
    the program can raise. *)
Inductive js_error := TypeError | SyntaxError | URIError.

Inductive completion (A : Type) : Type :=
| Normal (a : A)
| Throw (e : js_error).
Arguments Normal {A} a.
Arguments Throw {A} e.

#[export] Instance completion_ret : MRet completion := λ A a, Normal a.
#[export] Instance completion_bind : MBind completion :=
  λ A B k m, match m with Normal a => k a | Throw e => Throw e end.
#[export] Instance completion_fmap : FMap completion :=
  λ A B f m, match m with Normal a => Normal (f a) | Throw e => Throw e end.

(** ** Shared lemmas *)

Lemma bind_Normal {A B} (a : A) (k : A → completion B) :
  (Normal a ≫= k) = k a.
Proof. reflexivity. Qed.

Lemma bind_Throw {A B} e (k : A → completion B) :
  (Throw e ≫= k) = Throw e.
Proof. reflexivity. Qed.

Lemma fmap_Normal {A B} (f : A → B) a : f <$> Normal a = Normal (f a).
Proof. reflexivity. Qed.

Lemma fmap_Throw {A B} (f : A → B) e : f <$> (Throw e : completion A) = Throw e.
Proof. reflexivity. Qed.

Lemma bind_Normal_inv {A B} (m : completion A) (k : A → completion B) b :
  (m ≫= k) = Normal b → ∃ a, m = Normal a ∧ k a = Normal b.
Proof. destruct m; simpl; [eauto | discriminate]. Qed.

Lemma str_wf_app s t : str_wf (s ++ t) ↔ str_wf s ∧ str_wf t.
Proof. unfold str_wf. apply Forall_app. Qed.

Lemma str_wf_cons c s : str_wf (c :: s) ↔ unit_ok c ∧ str_wf s.
Proof. unfold str_wf. split; [inversion 1; auto | intros []; by constructor]. Qed.

Lemma str_wf_app_2 s t : str_wf s → str_wf t → str_wf (s ++ t).
Proof. intros. by apply str_wf_app. Qed.

Lemma str_wf_nil : str_wf [].
Proof. constructor. Qed.

Lemma js_wf s : str_wf (js s).
Proof.
  unfold js, str_wf. induction (String.list_ascii_of_string s) as [|a l IH];
    constructor; [|exact IH].
  pose proof (Ascii.N_ascii_bounded a). unfold unit_ok. lia.
Qed.

Lemma js_length s : length (js s) = String.length s.
Proof.
  unfold js. rewrite length_map. induction s; simpl; congruence.
Qed.

Lemma mjoin_cons {A} (x : list A) (l : list (list A)) : mjoin (x :: l) = x ++ mjoin l.
Proof. done. Qed.

(** [mapM] in [completion] succeeds exactly when every call does. *)
Lemma mapM_Normal {A B} (f : A → completion B) l l' :
  mapM f l = Normal l' ↔ Forall2 (λ x y, f x = Normal y) l l'.
Proof.
  revert l'. induction l as [|x l IH]; intros l'; simpl; unfold mret, mbind, completion_ret, completion_bind.
  - split; [intros [= <-]; constructor | intros H; inversion H; done].
  - destruct (f x) as [y|e] eqn:Ef; simpl.
    + destruct (mapM f l) as [ys|e] eqn:E; simpl.
      * split; [intros [= <-]; constructor; [done | by apply IH]|].
        intros H. inversion H as [|? y' ? ys' Hy Hys]; subst. apply IH in Hys. congruence.
      * split; [discriminate|]. intros H. inversion H as [|? y' ? ys' Hy Hys]; subst.
        apply IH in Hys. congruence.
    + split; [discriminate|]. intros H. inversion H; congruence.
Qed.

(** [mapM] in [completion] throws the exception of the first call that
    throws. *)
Lemma mapM_Throw_elem {A B} (f : A → completion B) l e :
  mapM f l = Throw e → ∃ x, x ∈ l ∧ f x = Throw e.
Proof.
  induction l as [|x l IH]; simpl; [discriminate|].
  destruct (f x) as [y|e'] eqn:Ef; simpl.
  - destruct (mapM f l) eqn:E; simpl; [discriminate|]. intros [= ->].
    destruct IH as (z & Hz & Hfz); [done|]. exists z. split; [by right|done].
  - intros [= ->]. exists x. split; [left|done].
Qed.

Lemma mapM_Throw_of_elem {A B} (f : A → completion B) l x e :
  x ∈ l → f x = Throw e → ∃ e', mapM f l = Throw e'.
Proof.
  induction l as [|y l IH]; simpl; [by intros ?%elem_of_nil|].
  intros [->|Hx]%elem_of_cons Hf.
  - rewrite Hf. by eexists.
  - destruct (f y); simpl; [|by eexists]. destruct (IH Hx Hf) as [e' ->]. by eexists.
Qed.

Lemma mapM_Normal_fmap {A B C} (g : B → completion C) (f : A → C) xs ys :
  Forall2 (λ x y, g y = Normal (f x)) xs ys → mapM g ys = Normal (f <$> xs).
Proof. induction 1 as [|x y xs ys Hy _ IH]; [done|]. simpl. by rewrite Hy, IH. Qed.

(** [mapM] succeeds exactly when every call does. *)
Lemma mapM_is_Normal {A B} (f : A → completion B) l :
  (∃ l', mapM f l = Normal l') ↔ Forall (λ x, ∃ y, f x = Normal y) l.
Proof.
  induction l as [|x l IH]; simpl; unfold mret, mbind, completion_ret, completion_bind.
  - split; [constructor | by eexists].
  - rewrite Forall_cons, <- IH. destruct (f x) as [y|e]; simpl.
    + destruct (mapM f l) as [ys|e]; simpl; [naive_solver|].
      split; [by intros [? ?] | intros [_ [? ?]]; discriminate].
    + split; [by intros [? ?] | intros [[? ?] _]; discriminate].
Qed.

Lemma mapM_fmap_Normal {A B C} (f : B → completion C) (h : A → B) (g : A → C) l :
  (∀ x, x ∈ l → f (h x) = Normal (g x)) → mapM f (h <$> l) = Normal (g <$> l).
Proof.
  induction l as [|x l IH]; intros H; [done|].
  assert (mapM f (h <$> l) = Normal (g <$> l)) as E by (apply IH; intros y Hy; apply H; by right).
  simpl. rewrite H by left. simpl.
  change (list_fmap A B h l) with (h <$> l). change (list_fmap A C g l) with (g <$> l). by rewrite E.
Qed.

Lemma Forall2_Forall_right {A B} (R : A → B → Prop) (Q : B → Prop) xs ys :
  (∀ x y, R x y → Q y) → Forall2 R xs ys → Forall Q ys.
Proof. intros HQ. induction 1; constructor; eauto. Qed.

(** A property of every element survives filtering. *)
Lemma Forall_filter_sub {A} (P : A → Prop) (Q : A → Prop) `{!∀ x, Decision (Q x)} l :
  Forall P l → Forall P (filter Q l).
Proof.
  rewrite !Forall_forall. intros HP x Hx. apply list_elem_of_filter in Hx as [_ Hx]. by apply HP.
Qed.

#[export] Hint Resolve str_wf_app_2 str_wf_nil js_wf : js.
#[export] Hint Rewrite @bind_Normal @bind_Throw @fmap_Normal @fmap_Throw : js.

(** ** Tactics *)

(** Case analysis on every boolean comparison of integers in the goal
    and the hypotheses. *)
Ltac zcase :=
  repeat match goal with
  | |- context [Z.leb ?a ?b] => destruct (Z.leb_spec a b)
  | |- context [Z.ltb ?a ?b] => destruct (Z.ltb_spec a b)
  | |- context [Z.eqb ?a ?b] => destruct (Z.eqb_spec a b)
  | _ : context [Z.leb ?a ?b] |- _ => destruct (Z.leb_spec a b)
  | _ : context [Z.ltb ?a ?b] |- _ => destruct (Z.ltb_spec a b)
  | _ : context [Z.eqb ?a ?b] |- _ => destruct (Z.eqb_spec a b)
  end.

(** Simplify binds of completions, then close what is left. *)
Ltac js_simpl := autorewrite with js in *; simpl in *.

(** Prove a decidable proposition about closed terms by evaluating its
    decision procedure. *)
Ltac compute_decide := apply (bool_decide_unpack _); vm_compute; reflexivity.
