(* ===== verification/JsString.v ===== *)
(** String built-ins called by [Request.js]: [String.prototype.split]
    (ECMA-262 22.1.3.23 and StringIndexOf 6.1.4.1), [toUpperCase]
    (through the interface [CaseMap]), ToBoolean on strings, and the
    Number-to-String conversion of integers.  [split] is given twice: as
    the standard's index loop ([js_split], with fuel and the limit
    2^32-1) and as a structural function ([split_on]); they are proved
    equal for the one-unit separator the program uses. *)

From S2P Require Import Prelude.
From Stdlib Require Import DecimalString DecimalN.

Module JsString.

(** ** StringIndexOf *)

(** [is_prefix r s]: the units of [r] start [s]. *)
Definition is_prefix (r s : jsstr) : bool :=
  bool_decide (take (length r) s = r).

(** The first position [j >= i] of [r] in the string whose suffix from
    [i] is [s]. *)
Fixpoint index_from (r s : jsstr) (i : nat) : option nat :=
  if is_prefix r s then Some i
  else match s with
       | [] => None
       | _ :: s' => index_from r s' (S i)
       end.

(** StringIndexOf(S, R, from), with [None] for -1. *)
Definition string_index_of (S R : jsstr) (from : nat) : option nat :=
  index_from R (drop from S) from.

(** substring of [S] from [i] to [j]. *)
Definition substring (i j : nat) (S : jsstr) : jsstr := take (j - i) (drop i S).

(** The default limit of [split]: 2^32 - 1. *)
Definition split_lim : Z := 4294967295.

(** Steps 11-13 of [String.prototype.split]: the loop over the
    occurrences of the separator, with fuel. *)
Fixpoint split_loop (fuel : nat) (S R : jsstr) (i : nat) (acc : list jsstr)
    : option (list jsstr) :=
  match fuel with
  | O => None
  | Datatypes.S fuel' =>
      match string_index_of S R i with
      | Some j =>
          let acc' := acc ++ [substring i j S] in
          if bool_decide (Z.of_nat (length acc') = split_lim) then Some acc'
          else split_loop fuel' S R (j + length R) acc'
      | None => Some (acc ++ [drop i S])
      end
  end.

(** [S.split(R)] with [limit] undefined, steps 7-13. *)
Definition js_split (S R : jsstr) : list jsstr :=
  match R with
  | [] => map (λ c, [c]) (take (Z.to_nat split_lim) S)
  | _ =>
      match S with
      | [] => [S]
      | _ => default [] (split_loop (Datatypes.S (length S)) S R 0 [])
      end
  end.

(** The structural split on one code unit. *)
Fixpoint split_on (sep : Z) (s : jsstr) : list jsstr :=
  match s with
  | [] => [[]]
  | c :: s' =>
      let rest := split_on sep s' in
      if bool_decide (c = sep) then [] :: rest
      else match rest with
           | r :: rs => (c :: r) :: rs
           | [] => [[c]]
           end
  end.

(** ** ToBoolean on strings and [toUpperCase] *)

Definition str_truthy (s : jsstr) : bool := bool_decide (s ≠ []).

(** [String.prototype.toUpperCase] is the Unicode full case mapping, a
    table this development does not reproduce.  The program relies on
    three facts of it, stated as the laws of an interface: it maps the
    empty string to itself and only it, it keeps code units
    well-formed, and on ASCII letters it is the usual mapping. *)
Definition ascii_upper (c : Z) : Z := if (97 <=? c) && (c <=? 122) then c - 32 else c.

Class CaseMap := {
  to_upper : jsstr → jsstr;
  to_upper_nil_iff s : to_upper s = [] ↔ s = [];
  to_upper_wf s : str_wf s → str_wf (to_upper s);
  to_upper_ascii s : Forall (λ c, 0 ≤ c < 128) s → to_upper s = map ascii_upper s
}.

(** ** Number to String on integers

    Number::toString(x) for an integer [x] of magnitude below 10^21 is
    its decimal notation, with a leading [-] when negative. *)
Definition decimal_digits (n : N) : jsstr :=
  js (NilEmpty.string_of_uint (N.to_uint n)).

Definition int_to_string (n : Z) : jsstr :=
  if n <? 0 then js "-" ++ decimal_digits (Z.abs_N n) else decimal_digits (Z.to_N n).

(** Reading back code units as a Coq string (units above 255 are
    clipped, which never happens for what [decimal_digits] prints). *)
Definition to_coq_string (s : jsstr) : String.string :=
  String.string_of_list_ascii (map (λ c, Ascii.ascii_of_N (Z.to_N c)) s).

(** StringToNumber restricted to a non-empty run of decimal digits. *)
Definition parse_uint (s : jsstr) : option N :=
  N.of_uint <$> NilEmpty.uint_of_string (to_coq_string s).


(** ** Lemmas on [split] *)

(** Every string either has no [sep] or splits at its first [sep]. *)
Lemma first_occurrence (sep : Z) (s : jsstr) :
  sep ∉ s ∨ ∃ s1 s2, s = s1 ++ sep :: s2 ∧ sep ∉ s1.
Proof.
  induction s as [|c s IH]; [left; set_solver|].
  destruct (decide (c = sep)) as [->|Hne].
  - right. exists [], s. split; [done | set_solver].
  - destruct IH as [Hn | (s1 & s2 & -> & Hn)].
    + left. set_solver.
    + right. exists (c :: s1), s2. split; [done | set_solver].
Qed.

Lemma is_prefix_one sep c s : is_prefix [sep] (c :: s) = bool_decide (c = sep).
Proof. unfold is_prefix. simpl. apply bool_decide_ext. naive_solver. Qed.

Lemma index_from_none sep s i : sep ∉ s → index_from [sep] s i = None.
Proof.
  revert i. induction s as [|c s IH]; intros i Hn; [reflexivity|].
  simpl. rewrite is_prefix_one, bool_decide_false by set_solver.
  apply IH. set_solver.
Qed.

Lemma index_from_first sep s1 s2 i :
  sep ∉ s1 → index_from [sep] (s1 ++ sep :: s2) i = Some (i + length s1)%nat.
Proof.
  revert i. induction s1 as [|c s1 IH]; intros i Hn; simpl.
  - rewrite is_prefix_one, bool_decide_true by done. f_equal. lia.
  - rewrite is_prefix_one, bool_decide_false by set_solver.
    rewrite IH by set_solver. f_equal. lia.
Qed.

Lemma split_on_nosep sep s : sep ∉ s → split_on sep s = [s].
Proof.
  induction s as [|c s IH]; intros Hn; [done|]. simpl.
  rewrite bool_decide_false by set_solver. rewrite IH by set_solver. done.
Qed.

Lemma split_on_first sep s1 s2 :
  sep ∉ s1 → split_on sep (s1 ++ sep :: s2) = s1 :: split_on sep s2.
Proof.
  induction s1 as [|c s1 IH]; intros Hn; simpl.
  - by rewrite bool_decide_true.
  - rewrite bool_decide_false by set_solver. rewrite IH by set_solver. done.
Qed.

Lemma split_on_length sep s : (1 ≤ length (split_on sep s) ≤ length s + 1)%nat.
Proof.
  induction s as [|c s IH]; simpl; [lia|].
  case_bool_decide; simpl; [lia|].
  destruct (split_on sep s); simpl in *; lia.
Qed.

#[export] Hint Rewrite split_on_first split_on_nosep index_from_first index_from_none
  using set_solver : js.

(** The loop of [split] computes the structural split of what is left,
    as long as it has fuel and does not reach the limit. *)
Lemma split_loop_one fuel S sep i acc :
  (length (drop i S) < fuel)%nat →
  Z.of_nat (length acc + length (split_on sep (drop i S))) ≤ split_lim →
  split_loop fuel S [sep] i acc = Some (acc ++ split_on sep (drop i S)).
Proof.
  revert i acc. induction fuel as [|fuel IH]; intros i acc Hf Hl; [lia|].
  simpl. unfold string_index_of.
  destruct (first_occurrence sep (drop i S)) as [Hn | (s1 & s2 & Hs & Hn)].
  - by rewrite index_from_none, split_on_nosep.
  - rewrite Hs, index_from_first by done. rewrite Hs, split_on_first in Hl by done.
    rewrite split_on_first by done.
    assert (substring i (i + length s1) S = s1) as ->.
    { unfold substring. rewrite Hs. replace (i + length s1 - i)%nat with (length s1) by lia.
      apply take_app_length. }
    pose proof (split_on_length sep s2).
    rewrite bool_decide_false by (rewrite length_app; simpl in *; lia).
    assert (drop (i + length s1 + 1) S = s2) as Hd.
    { replace (i + length s1 + 1)%nat with (i + (length s1 + 1))%nat by lia.
      rewrite <- (drop_drop S (length s1 + 1) i), Hs, drop_app_add. done. }
    rewrite IH; rewrite Hd.
    + by rewrite <- app_assoc.
    + apply (f_equal length) in Hs. rewrite length_app in Hs. simpl in Hs. lia.
    + rewrite length_app. simpl in *. lia.
Qed.

(** [S.split(sep)] with a one-unit separator is [split_on]: the index
    loop of the standard and the structural split agree on every string
    shorter than the limit 2^32-1. *)
Theorem js_split_one (S : jsstr) (sep : Z) :
  Z.of_nat (length S) < split_lim → js_split S [sep] = split_on sep S.
Proof.
  intros Hlen. unfold js_split. destruct S as [|c S']; [done|].
  rewrite split_loop_one; [done | simpl; lia |].
  pose proof (split_on_length sep (c :: S')). simpl in *. lia.
Qed.


(** With the limit: the loop computes the structural split of what is
    left, cut after 2^32-1 pieces. *)
Lemma split_loop_take fuel S sep i acc :
  (length (drop i S) < fuel)%nat → Z.of_nat (length acc) < split_lim →
  split_loop fuel S [sep] i acc = Some (take (Z.to_nat split_lim) (acc ++ split_on sep (drop i S))).
Proof.
  revert i acc. induction fuel as [|fuel IH]; intros i acc Hf Hl; [lia|].
  simpl. unfold string_index_of. unfold split_lim in *.
  destruct (first_occurrence sep (drop i S)) as [Hn | (s1 & s2 & Hs & Hn)].
  - rewrite index_from_none, split_on_nosep by done. f_equal. symmetry. apply take_ge.
    rewrite length_app. simpl. lia.
  - rewrite Hs, index_from_first by done. rewrite split_on_first by done.
    assert (substring i (i + length s1) S = s1) as ->.
    { unfold substring. rewrite Hs. replace (i + length s1 - i)%nat with (length s1) by lia.
      apply take_app_length. }
    assert (drop (i + length s1 + 1) S = s2) as Hd.
    { replace (i + length s1 + 1)%nat with (i + (length s1 + 1))%nat by lia.
      rewrite <- (drop_drop S (length s1 + 1) i), Hs, drop_app_add. done. }
    replace (acc ++ s1 :: split_on sep s2) with ((acc ++ [s1]) ++ split_on sep s2)
      by (by rewrite <- app_assoc).
    case_bool_decide as Hlim.
    + f_equal. symmetry. rewrite take_app_le by lia. apply take_ge. lia.
    + assert (length (drop (i + length s1 + 1) S) < fuel)%nat.
      { rewrite Hd. apply (f_equal length) in Hs. rewrite length_app in Hs. simpl in Hs. lia. }
      rewrite IH, Hd; [done | done |]. rewrite length_app in *. simpl in *. lia.
Qed.

(** [S.split(sep)] with a one-unit separator is [split_on] cut after
    2^32-1 pieces, for strings of every length. *)
Lemma js_split_take (S : jsstr) (sep : Z) :
  js_split S [sep] = take (Z.to_nat split_lim) (split_on sep S).
Proof.
  unfold js_split. destruct S as [|c S']; [done|].
  rewrite split_loop_take; [done | simpl; lia | simpl; unfold split_lim; lia].
Qed.

(** The pieces of [split_on] never contain the separator. *)
Lemma split_on_no_sep sep s : Forall (λ p, sep ∉ p) (split_on sep s).
Proof.
  induction s as [|c s IH]; simpl; [constructor; [set_solver | constructor]|].
  case_bool_decide; [by constructor; [set_solver|]|].
  destruct (split_on sep s) as [|r rs]; [constructor; [set_solver | constructor]|].
  inversion IH; subst. constructor; [|done]. rewrite elem_of_cons. naive_solver.
Qed.

(** Joining the pieces back with the separator gives the string. *)
Fixpoint join_with (sep : Z) (ps : list jsstr) : jsstr :=
  match ps with
  | [] => []
  | [p] => p
  | p :: ps' => p ++ sep :: join_with sep ps'
  end.

Lemma join_split_on sep s : join_with sep (split_on sep s) = s.
Proof.
  induction s as [|c s IH]; [done|]. simpl.
  case_bool_decide; subst.
  - destruct (split_on sep s) eqn:E; [pose proof (split_on_length sep s); rewrite E in *; simpl in *; lia|].
    simpl in *. by rewrite IH.
  - destruct (split_on sep s) as [|r [|r' rs]]; simpl in *; by rewrite <- IH.
Qed.

(** Splitting a join gives the pieces back when none holds the separator. *)
Lemma split_on_join sep ps :
  ps ≠ [] → Forall (λ p, sep ∉ p) ps → split_on sep (join_with sep ps) = ps.
Proof.
  intros Hne Hs. induction Hs as [|p ps Hp Hps IH]; [done|].
  destruct ps as [|p' ps']; simpl; [by apply split_on_nosep|].
  rewrite split_on_first by done. f_equal. by apply IH.
Qed.

(** A property of every unit of the pieces and of the separator holds of
    every unit of the join. *)
Lemma join_with_Forall (P : Z → Prop) sep ps :
  P sep → Forall (Forall P) ps → Forall P (join_with sep ps).
Proof.
  intros Hsep. induction 1 as [|p ps Hp Hps IH]; simpl; [constructor|].
  destruct ps; [done|]. apply Forall_app_2; [done|]. by constructor.
Qed.

Lemma split_on_wf sep s : str_wf s → Forall str_wf (split_on sep s).
Proof.
  induction s as [|c s IH]; intros Hw; simpl; [repeat constructor|].
  apply str_wf_cons in Hw as [Hc Hs]. specialize (IH Hs).
  case_bool_decide; [by constructor; [constructor|]|].
  destruct (split_on sep s) as [|r rs].
  - constructor; [apply str_wf_cons; split; [done | constructor] | constructor].
  - inversion IH; subst. constructor; [by apply str_wf_cons | done].
Qed.

Lemma str_truthy_false_iff s : str_truthy s = false ↔ s = [].
Proof.
  unfold str_truthy. destruct s; [split; [done | intros _; apply bool_decide_false; tauto]|].
  rewrite bool_decide_true by discriminate. split; discriminate.
Qed.


(** ** Lemmas on integers printed in decimal *)

Lemma to_coq_string_js s : to_coq_string (js s) = s.
Proof.
  unfold to_coq_string, js. rewrite map_map.
  induction s as [|a s IH]; [done|]. simpl. f_equal; [|done].
  rewrite N2Z.id. apply Ascii.ascii_N_embedding.
Qed.

(** The decimal digits of a natural number read back to it. *)
Lemma parse_decimal_digits n : parse_uint (decimal_digits n) = Some n.
Proof.
  unfold parse_uint, decimal_digits. rewrite to_coq_string_js, NilEmpty.usu.
  simpl. by rewrite Unsigned.of_to.
Qed.

Lemma int_to_string_nonneg n : 0 ≤ n → int_to_string n = decimal_digits (Z.to_N n).
Proof. intros H. unfold int_to_string. destruct (Z.ltb_spec n 0); [lia|done]. Qed.

Lemma decimal_digits_inj n m : decimal_digits n = decimal_digits m → n = m.
Proof.
  intros H. apply (f_equal parse_uint) in H. rewrite !parse_decimal_digits in H. congruence.
Qed.

Lemma decimal_digits_wf n : str_wf (decimal_digits n).
Proof. apply js_wf. Qed.

#[export] Hint Resolve decimal_digits_wf : js.


(** ** Witnesses *)

Lemma js_split_one_witness :
  js_split (js "get*abc*x") [42] = split_on 42 (js "get*abc*x").
Proof. apply js_split_one. vm_compute. reflexivity. Defined.

End JsString.
