(* ===== verification/Request.v ===== *)
(** The request issuer: [request] of [Request.js] (lines 25-56), the
    checks that [XMLHttpRequest.open] makes on its arguments before any
    network activity (XHR standard, open() steps 4-8, with WebIDL's
    ByteString and USVString conversions), what the browser transmits
    for a sent call (the normalized method, no body for GET or HEAD),
    the two transport callbacks
    [onload] and [onerror], and the outcome table of spec.md section 4.1
    as an abstract specification [spec_outcome] that the code refines
    everywhere except on 2xx statuses. *)

From S2P Require Import Prelude JsString.
Import JsString.

Module Request.

(** ** Values and settlements *)

(** The exceptions [open] can throw inside the promise executor. *)
Inductive exn_value := DomSyntaxError | DomSecurityError | JsTypeError.

(** What a promise of [request] settles with: a string or an exception
    object. *)
Inductive value := VStr (s : jsstr) | VExn (e : exn_value).

Inductive settlement := Fulfilled (v : value) | Rejected (v : value).

#[export] Instance exn_value_eq_dec : EqDecision exn_value.
Proof. solve_decision. Defined.
#[export] Instance value_eq_dec : EqDecision value.
Proof. solve_decision. Defined.
#[export] Instance settlement_eq_dec : EqDecision settlement.
Proof. solve_decision. Defined.

Definition msg_no_method : jsstr := js "Please enter an http method".
Definition msg_fetch_failed : jsstr :=
  js "Failed during fetching data from Api (View console for details..)".
Definition msg_not_found : jsstr := js " NOT FOUND".

(** ** XMLHttpRequest.open *)

(** RFC 9110 tchar: the characters of a method token. *)
Definition is_tchar (c : Z) : bool :=
  ((48 <=? c) && (c <=? 57)) || ((65 <=? c) && (c <=? 90)) || ((97 <=? c) && (c <=? 122))
  || bool_decide (c ∈ js "!#$%&'*+-.^_`|~").

Definition is_method_token (m : jsstr) : bool :=
  bool_decide (m ≠ []) && forallb is_tchar m.

(** Byte-case-insensitive comparison uppercases ASCII letters only. *)
Definition byte_upper (m : jsstr) : jsstr := map ascii_upper m.

Definition forbidden_method (m : jsstr) : bool :=
  bool_decide (byte_upper m ∈ [js "CONNECT"; js "TRACE"; js "TRACK"]).

(** WebIDL ByteString: a code unit above 255 is a TypeError. *)
Definition is_byte_string (m : jsstr) : bool := forallb (λ c, c <=? 255) m.

(** WebIDL USVString: [undefined] becomes the string "undefined"; a lone
    surrogate becomes U+FFFD. *)
Fixpoint to_usv (s : jsstr) : jsstr :=
  match s with
  | [] => []
  | c :: s' =>
      if (55296 <=? c) && (c <=? 56319) then
        match s' with
        | d :: s'' => if (56320 <=? d) && (d <=? 57343) then c :: d :: to_usv s''
                      else 65533 :: to_usv s'
        | [] => [65533]
        end
      else if (56320 <=? c) && (c <=? 57343) then 65533 :: to_usv s'
      else c :: to_usv s'
  end.

Definition url_arg (u : option jsstr) : jsstr :=
  to_usv (match u with None => js "undefined" | Some s => s end).

Section WithUrlParser.

(** Whether the URL parser accepts a string relative to the page's base
    URL (the WHATWG URL parser is not modelled). *)
Context (url_parses : jsstr → bool).

(** The exception [open(method, url, true)] throws, if any. *)
Definition open_error (m : jsstr) (u : option jsstr) : option exn_value :=
  if negb (is_byte_string m) then Some JsTypeError
  else if negb (is_method_token m) then Some DomSyntaxError
  else if forbidden_method m then Some DomSecurityError
  else if negb (url_parses (url_arg u)) then Some DomSyntaxError
  else None.

(** ** [request] *)

(** The arguments of the [open] and [send] calls of one request. *)
Record xhr_call := {
  xc_method : jsstr;
  xc_url : option jsstr;
  xc_async : bool;
  xc_body : option jsstr
}.

(** What [request] does synchronously: a promise that is already
    settled (no network call), or a pending promise whose XHR has been
    opened and sent. *)
Inductive started := Immediate (s : settlement) | Sent (c : xhr_call).

(** [request(method, url, data)] with [data] and [url] either a string
    ([Some]) or undefined ([None]). *)
Definition request (method : jsstr) (url : option jsstr) (data : option jsstr) : started :=
  let data := match data with
              | Some d => if str_truthy d then Some d else None
              | None => None
              end in
  if negb (str_truthy method) then Immediate (Rejected (VStr msg_no_method))
  else
    let url := if bool_decide (url = Some []) then None else url in
    match open_error method url with
    | Some e => Immediate (Rejected (VExn e))
    | None => Sent {| xc_method := method; xc_url := url; xc_async := true; xc_body := data |}
    end.

End WithUrlParser.

#[export] Instance xhr_call_eq_dec : EqDecision xhr_call.
Proof. solve_decision. Defined.

(** ** What the transport transmits

    [open] stores the normalized method (Fetch standard: the six standard
    methods are byte-uppercased, any other is kept as written) and [send]
    sends no body for a GET or HEAD (XHR standard, send() step 3). *)

Definition normalize_method (m : jsstr) : jsstr :=
  if bool_decide (byte_upper m ∈ [js "DELETE"; js "GET"; js "HEAD"; js "OPTIONS"; js "POST"; js "PUT"])
  then byte_upper m else m.

Record wire_request := {
  wr_method : jsstr;
  wr_url : jsstr;
  wr_body : option jsstr
}.

(** The request line and body the browser puts on the network for an
    opened and sent XHR (the URL as the string the parser receives). *)
Definition transmitted (c : xhr_call) : wire_request :=
  let m := normalize_method (xc_method c) in
  {| wr_method := m; wr_url := url_arg (xc_url c);
     wr_body := if bool_decide (m ∈ [js "GET"; js "HEAD"]) then None else xc_body c |}.

(** ** The transport callbacks *)

(** [xhrObject.onload], lines 39-48. *)
Definition onload (status : Z) (response : jsstr) : settlement :=
  if (200 <=? status) && (status <? 300) then Fulfilled (VStr response)
  else if 400 <=? status then Rejected (VStr (int_to_string status ++ msg_not_found))
  else Fulfilled (VStr (int_to_string status ++ response)).

(** [xhrObject.onerror], lines 51-54 (the console line is a page effect,
    see [Browser]). *)
Definition onerror : settlement := Rejected (VStr msg_fetch_failed).

(** How the transport completes a sent request. *)
Inductive xhr_event := Load (status : Z) (response : jsstr) | NetError.

Definition on_event (ev : xhr_event) : settlement :=
  match ev with
  | Load st r => onload st r
  | NetError => onerror
  end.

(** ** The abstract specification (spec.md section 4.1) *)

(** A 2xx outcome of the spec is a record with the request's URL,
    method, status and (when one was given) payload. *)
Inductive spec_value :=
| SpecRecord (url : option jsstr) (method : jsstr) (status : Z) (payload : option jsstr)
| SpecText (s : jsstr).

Inductive spec_result := SpecResolve (v : spec_value) | SpecReject (v : spec_value).

Definition spec_outcome (c : xhr_call) (ev : xhr_event) : spec_result :=
  match ev with
  | NetError => SpecReject (SpecText msg_fetch_failed)
  | Load st r =>
      if (200 <=? st) && (st <? 300) then SpecResolve (SpecRecord (xc_url c) (xc_method c) st (xc_body c))
      else if 400 <=? st then SpecReject (SpecText (int_to_string st ++ msg_not_found))
      else SpecResolve (SpecText (int_to_string st ++ r))
  end.

(** The code's settlement read in the spec's vocabulary. *)
Definition as_spec (s : settlement) : option spec_result :=
  match s with
  | Fulfilled (VStr t) => Some (SpecResolve (SpecText t))
  | Rejected (VStr t) => Some (SpecReject (SpecText t))
  | _ => None
  end.

(** The HTTP status classes the code distinguishes. *)
Inductive status_class := Success2xx | ErrorAtLeast400 | OtherStatus.

Definition classify (st : Z) : status_class :=
  if (200 <=? st) && (st <? 300) then Success2xx
  else if 400 <=? st then ErrorAtLeast400 else OtherStatus.


(** ** Properties of [request] *)

Section RequestProps.
Context (url_parses : jsstr → bool).

(** The URL [request] hands to [open]: the empty string becomes
    undefined. *)
Definition norm_url (u : option jsstr) : option jsstr :=
  if bool_decide (u = Some []) then None else u.

(** The body [request] hands to [send]: a falsy payload becomes null. *)
Definition norm_body (d : option jsstr) : option jsstr :=
  match d with Some d' => if str_truthy d' then Some d' else None | None => None end.

Lemma request_unfold m u d :
  request url_parses m u d =
    if negb (str_truthy m) then Immediate (Rejected (VStr msg_no_method))
    else match open_error url_parses m (norm_url u) with
         | Some e => Immediate (Rejected (VExn e))
         | None => Sent {| xc_method := m; xc_url := norm_url u; xc_async := true;
                           xc_body := norm_body d |}
         end.
Proof. reflexivity. Qed.

(** C10: [request] rejects with "Please enter an http method" exactly
    when the method is the empty string, and then makes no call. *)
Theorem request_no_method_iff (m : jsstr) (u d : option jsstr) :
  request url_parses m u d = Immediate (Rejected (VStr msg_no_method)) ↔ m = [].
Proof.
  rewrite request_unfold. split.
  - destruct (str_truthy m) eqn:E; simpl; [|intros _; by apply str_truthy_false_iff].
    destruct (open_error _ _ _); discriminate.
  - intros ->. reflexivity.
Qed.

(** C4: [request] opens and sends an XHR exactly when the method is
    non-empty and [open] accepts it; the call is then
    [open(method, url', true)] and [send(data')], with [url'] the URL
    where "" became undefined and [data'] the payload where a falsy one
    became null. *)
Theorem request_sent_iff (m : jsstr) (u d : option jsstr) (c : xhr_call) :
  request url_parses m u d = Sent c ↔
    m ≠ [] ∧ open_error url_parses m (norm_url u) = None ∧
    c = {| xc_method := m; xc_url := norm_url u; xc_async := true; xc_body := norm_body d |}.
Proof.
  unfold request, norm_url, norm_body, str_truthy.
  destruct (bool_decide (m ≠ [])) eqn:E; simpl.
  - apply bool_decide_eq_true in E.
    destruct (open_error _ _ _); split; intros H; naive_solver.
  - apply bool_decide_eq_false in E. split; [discriminate | naive_solver].
Qed.

(** The fields of a sent call. *)
Lemma request_sent_fields m u d c :
  request url_parses m u d = Sent c → xc_method c = m ∧ xc_body c = norm_body d.
Proof.
  unfold request, norm_body.
  repeat (case_bool_decide || case_match); intros Hs; simplify_eq/=; done.
Qed.

(** A call sent to a non-empty URL is [open(method, url, true)] and
    [send(data')]. *)
Lemma request_sent_call m u d c :
  request url_parses m (Some u) d = Sent c → u ≠ [] →
  c = {| xc_method := m; xc_url := Some u; xc_async := true; xc_body := norm_body d |}.
Proof.
  intros Hs Hu. revert Hs. unfold request, norm_body.
  repeat (case_bool_decide || case_match); intros Hs; simplify_eq/=; done.
Qed.

(** A GET or HEAD, in any letter case, reaches the network without a
    body. *)
Lemma transmitted_get_no_body c :
  byte_upper (xc_method c) ∈ [js "GET"; js "HEAD"] → wr_body (transmitted c) = None.
Proof.
  intros Hm. unfold transmitted, normalize_method. simpl.
  rewrite (bool_decide_true (_ ∈ [js "DELETE"; _; _; _; _; _])) by set_solver.
  by rewrite bool_decide_true.
Qed.

(** C35: [request] does not uppercase its method, and only the six
    standard methods are normalized by [open]: [request("patch", ...)]
    puts the method [patch] on the network, while [request("get", ...)]
    puts [GET]; spec.md section 8 property 1 says the issuer uppercases
    every method. *)
Theorem request_method_not_uppercased (u d : option jsstr) (c1 c2 : xhr_call) :
  request url_parses (js "patch") u d = Sent c1 → request url_parses (js "get") u d = Sent c2 →
  wr_method (transmitted c1) = js "patch" ∧ wr_method (transmitted c2) = js "GET".
Proof.
  intros H1 H2. apply request_sent_fields in H1 as [H1 _], H2 as [H2 _].
  unfold transmitted. simpl. rewrite H1, H2. split; reflexivity.
Qed.

End RequestProps.

(** ** Properties of the callbacks *)

Lemma onload_by_class st r :
  onload st r = match classify st with
                | Success2xx => Fulfilled (VStr r)
                | ErrorAtLeast400 => Rejected (VStr (int_to_string st ++ msg_not_found))
                | OtherStatus => Fulfilled (VStr (int_to_string st ++ r))
                end.
Proof. unfold onload, classify. by destruct (_ && _), (400 <=? st). Qed.

(** C1: the promise of a loaded request rejects exactly on the statuses
    400 and above, and fulfils on every other status of the XHR range. *)
Theorem onload_rejects_iff (st : Z) (r : jsstr) :
  (∃ v, onload st r = Rejected v) ↔ 400 ≤ st.
Proof.
  unfold onload. zcase; simpl; split; intros Hx; try lia; try (destruct Hx; discriminate); eauto.
Qed.

(** C2: off the 2xx statuses, the code implements the outcome table of
    spec.md section 4.1: a network error rejects with the fixed message,
    a status of 400 or more rejects with "<status> NOT FOUND", any other
    status resolves with "<status><body>". *)
Theorem on_event_refines_spec (c : xhr_call) (ev : xhr_event) :
  (∀ st r, ev = Load st r → classify st ≠ Success2xx) →
  as_spec (on_event ev) = Some (spec_outcome c ev).
Proof.
  intros Hn. destruct ev as [st r|]; [|reflexivity].
  specialize (Hn st r eq_refl). unfold classify in Hn. simpl. unfold onload.
  zcase; simpl in *; done.
Qed.

(** C3: on a 2xx status the code resolves with the raw response text,
    never with the record {RequestURL, RequestMethod, StatusCode,
    RequestPayload} that the spec's table and the tests expect. *)
Theorem onload_2xx_raw_body (c : xhr_call) (st : Z) (r : jsstr) :
  200 ≤ st < 300 →
  onload st r = Fulfilled (VStr r) ∧ as_spec (onload st r) ≠ Some (spec_outcome c (Load st r)).
Proof.
  intros Hst. unfold onload, spec_outcome. zcase; simpl; try lia.
  split; [done | discriminate].
Qed.

(** C23: the rejection text of a loaded request names its status: it is
    the decimal status followed by " NOT FOUND", and the status is read
    back from it. *)
Theorem reject_message_status (st : Z) (r m : jsstr) :
  0 ≤ st → onload st r = Rejected (VStr m) →
  ∃ p, m = p ++ msg_not_found ∧ parse_uint p = Some (Z.to_N st).
Proof.
  intros Hst H. rewrite onload_by_class in H.
  destruct (classify st); try discriminate. injection H as <-.
  exists (int_to_string st). rewrite int_to_string_nonneg by done.
  split; [done | apply parse_decimal_digits].
Qed.

(** C34: a redirect or informational response resolves with the status and
    body run together, so every such response settles exactly as a 200
    whose body is the status digits followed by its body (a 301 with an
    empty body as a 200 with the body "301"): the caller cannot tell them
    apart. *)
Theorem onload_other_ambiguous (st : Z) (r : jsstr) :
  st < 200 ∨ 300 ≤ st < 400 → onload st r = onload 200 (int_to_string st ++ r).
Proof. intros Hst. unfold onload. zcase; simpl; try reflexivity; lia. Qed.

(** A method whose byte-uppercase is made of letters is a method token
    and a ByteString. *)
Lemma upper_letters_token m :
  Forall (λ c, 65 ≤ c ≤ 90) (byte_upper m) → forallb is_tchar m = true ∧ is_byte_string m = true.
Proof.
  unfold byte_upper, is_byte_string. rewrite Forall_fmap.
  induction 1 as [|c m Hc _ IH]; [done|]. simpl. destruct IH as [-> ->].
  unfold compose in Hc. rewrite !andb_true_r.
  assert ((65 ≤ c ≤ 90) ∨ (97 ≤ c ≤ 122)) as Hr
    by (revert Hc; unfold ascii_upper; destruct (Z.leb_spec 97 c), (Z.leb_spec c 122); simpl; lia).
  clear Hc. unfold is_tchar. zcase; simpl; split; try reflexivity; lia.
Qed.

(** C32: [open] refuses the forbidden methods of the XHR standard, CONNECT,
    TRACE and TRACK, in any letter case, so [request] rejects with a
    SecurityError before any network call, whatever the URL and payload. *)
Theorem request_forbidden_method (url_parses : jsstr → bool) (m : jsstr) (u d : option jsstr) :
  byte_upper m ∈ [js "CONNECT"; js "TRACE"; js "TRACK"] →
  request url_parses m u d = Immediate (Rejected (VExn DomSecurityError)).
Proof.
  intros Hm. assert (Forall (λ c, 65 ≤ c ≤ 90) (byte_upper m)) as Hl.
  { repeat (apply elem_of_cons in Hm as [->|Hm]; [compute_decide|]).
    by apply elem_of_nil in Hm. }
  destruct (upper_letters_token m Hl) as [Ht Hb].
  assert (m ≠ []) as Hne by (intros ->; revert Hm; compute_decide).
  unfold request, open_error, is_method_token, forbidden_method, str_truthy.
  rewrite bool_decide_true by done. rewrite Hb, Ht. simpl. by rewrite bool_decide_true.
Qed.

(** C33: a request sent with the empty URL passes undefined to [open],
    which WebIDL turns into the relative URL "undefined". *)
Theorem request_empty_url_undefined (url_parses : jsstr → bool) (m : jsstr) (d : option jsstr)
    (c : xhr_call) :
  request url_parses m (Some []) d = Sent c → url_arg (xc_url c) = js "undefined".
Proof.
  unfold request. destruct (negb (str_truthy m)); [discriminate|].
  destruct (open_error _ _ _); [discriminate|]. by intros [= <-].
Qed.


(** ** Witnesses *)

Definition sample_call : xhr_call :=
  {| xc_method := js "GET"; xc_url := Some (js "abc"); xc_async := true; xc_body := None |}.

Lemma on_event_refines_spec_witness :
  as_spec (on_event (Load 404 (js "x"))) = Some (spec_outcome sample_call (Load 404 (js "x"))).
Proof. apply on_event_refines_spec. intros st r [= <- <-]. vm_compute. discriminate. Defined.

Lemma onload_2xx_raw_body_witness :
  onload 200 (js "ok") = Fulfilled (VStr (js "ok")) ∧
  as_spec (onload 200 (js "ok")) ≠ Some (spec_outcome sample_call (Load 200 (js "ok"))).
Proof. apply onload_2xx_raw_body. lia. Defined.

Lemma reject_message_status_witness :
  ∃ p, js "502 NOT FOUND" = p ++ msg_not_found ∧ parse_uint p = Some (Z.to_N 502).
Proof. apply (reject_message_status 502 []); [lia | vm_compute; reflexivity]. Defined.

Lemma request_empty_url_undefined_witness :
  url_arg (xc_url {| xc_method := js "GET"; xc_url := None; xc_async := true; xc_body := None |})
  = js "undefined".
Proof.
  apply (request_empty_url_undefined (λ _, true) (js "GET") None). vm_compute. reflexivity.
Defined.

Lemma request_method_not_uppercased_witness :
  wr_method (transmitted {| xc_method := js "patch"; xc_url := Some (js "abc"); xc_async := true; xc_body := None |})
  = js "patch" ∧
  wr_method (transmitted {| xc_method := js "get"; xc_url := Some (js "abc"); xc_async := true; xc_body := None |})
  = js "GET".
Proof. apply (request_method_not_uppercased (λ _, true) (Some (js "abc")) None); vm_compute; reflexivity. Defined.

Lemma request_forbidden_method_witness :
  request (λ _, true) (js "trace") None None = Immediate (Rejected (VExn DomSecurityError)).
Proof. apply request_forbidden_method. compute_decide. Defined.

Lemma onload_other_ambiguous_witness : onload 301 [] = onload 200 (int_to_string 301 ++ []).
Proof. apply onload_other_ambiguous. lia. Defined.

End Request.
