(* ===== verification/JsValue.v ===== *)
(** The JavaScript values the query branch of [xhrApi] handles: what
    [JSON.parse] returns, ToBoolean (the [queryObject || ""] of
    [queryStringified]), ToString (applied by [encodeURIComponent] to a
    property value; it throws a TypeError on an object with an own
    "toString" key, and on an array holding one), property access [queryObject[query]] and
    [Object.keys] with the key order of OrdinaryOwnPropertyKeys
    (ECMA-262 10.1.11.1): array indices ascending, then the other string
    keys in creation order.

    Numbers are the decimals [m * 10^e] a JSON text denotes; ToString
    follows Number::toString (ECMA-262 6.1.6.1.20) on that decimal, which
    is the double's own printing whenever the literal has at most 15
    significant digits and lies in the range of normal doubles (such a
    decimal is recovered from its nearest double by rounding to 15
    digits). *)

From Stdlib Require Import Sorted.
From S2P Require Import Prelude JsString.
Import JsString.

Module JsValue.

#[local] Set Warnings "-register-all".

(** A number [mant * 10^exp10]. *)
Record number := Num { mant : Z; exp10 : Z }.

(** An object is its own string-keyed properties in creation order. *)
Inductive jsval :=
| JUndefined
| JNull
| JBool (b : bool)
| JNum (n : number)
| JStr (s : jsstr)
| JArr (xs : list jsval)
| JObj (props : list (jsstr * jsval)).

(** ** ToBoolean *)

Definition truthy (v : jsval) : bool :=
  match v with
  | JUndefined | JNull => false
  | JBool b => b
  | JNum n => negb (mant n =? 0)
  | JStr s => str_truthy s
  | JArr _ | JObj _ => true
  end.

(** [a || b] *)
Definition js_or (a b : jsval) : jsval := if truthy a then a else b.

(** ** Number::toString *)

(** Strip the trailing zeros of a positive mantissa, counting them. *)
Fixpoint strip_zeros (fuel : nat) (m : Z) (t : Z) : Z * Z :=
  match fuel with
  | O => (m, t)
  | S fuel' => if (m mod 10 =? 0) && (0 <? m) then strip_zeros fuel' (m / 10) (t + 1) else (m, t)
  end.

Definition digits_of (s : Z) : jsstr := decimal_digits (Z.to_N s).

(** The exponent part [e+n] / [e-n]. *)
Definition exponent_part (e : Z) : jsstr :=
  js "e" ++ (if e <? 0 then js "-" else js "+") ++ digits_of (Z.abs e).

(** Number::toString of a positive decimal: [s] has [k] digits and the
    value is [s * 10^(n-k)]. *)
Definition positive_to_string (s k n : Z) : jsstr :=
  let ds := digits_of s in
  if (k <=? n) && (n <=? 21) then ds ++ replicate (Z.to_nat (n - k)) 48
  else if (0 <? n) && (n <=? 21) then take (Z.to_nat n) ds ++ [46] ++ drop (Z.to_nat n) ds
  else if (-6 <? n) && (n <=? 0) then js "0." ++ replicate (Z.to_nat (- n)) 48 ++ ds
  else if k =? 1 then ds ++ exponent_part (n - 1)
  else take 1 ds ++ [46] ++ drop 1 ds ++ exponent_part (n - 1).

Definition number_to_string (x : number) : jsstr :=
  let m := mant x in
  if m =? 0 then js "0"
  else
    let '(s, t) := strip_zeros (Z.to_nat (Z.log2 (Z.abs m)) + 1) (Z.abs m) 0 in
    let k := Z.of_nat (length (digits_of s)) in
    (if m <? 0 then js "-" else []) ++ positive_to_string s k (k + exp10 x + t).

(** ** ToString *)

Definition object_string : jsstr := js "[object Object]".

(** The own property of key [k]. *)
Fixpoint list_find_key (k : jsstr) (ps : list (jsstr * jsval)) : option (jsstr * jsval) :=
  match ps with
  | [] => None
  | p :: ps' => if bool_decide (p.1 = k) then Some p else list_find_key k ps'
  end.

(** ToString (ECMA-262 7.1.17) of the values [JSON.parse] returns.  An
    object goes through OrdinaryToPrimitive with hint string, which calls
    its "toString", then its "valueOf", when callable and returns the
    first primitive result.  Without an own "toString" key the inherited
    [Object.prototype.toString] gives "[object Object]".  An own
    "toString" key holds a JSON value, which is not callable, and
    "valueOf" (own, hence not callable, or the inherited one, which
    returns the object itself) gives no primitive: ToString throws a
    TypeError.  An array has no own "toString" or "join" key, so its
    ToString is [Array.prototype.join(",")]: the elements in order,
    undefined and null as the empty string, the first exception of an
    element's ToString propagated. *)
Fixpoint to_string (v : jsval) : completion jsstr :=
  match v with
  | JUndefined => mret (js "undefined")
  | JNull => mret (js "null")
  | JBool true => mret (js "true")
  | JBool false => mret (js "false")
  | JNum n => mret (number_to_string n)
  | JStr s => mret s
  | JArr xs =>
      join_with 44 <$> mapM (λ x, match x with JUndefined | JNull => mret [] | _ => to_string x end) xs
  | JObj ps =>
      match list_find_key (js "toString") ps with
      | Some _ => Throw TypeError
      | None => mret object_string
      end
  end.

(** The values whose ToString throws: an object with an own "toString"
    key, and an array with such a value among its elements, at any depth
    of arrays. *)
Inductive tostring_throws : jsval → Prop :=
| tostring_throws_obj ps p : list_find_key (js "toString") ps = Some p → tostring_throws (JObj ps)
| tostring_throws_arr xs x : x ∈ xs → tostring_throws x → tostring_throws (JArr xs).

(** ** Property keys *)

(** CanonicalNumericIndexString restricted to array indices: the decimal
    notation of an integer in [0, 2^32 - 2]. *)
Definition array_index (k : jsstr) : option N :=
  match parse_uint k with
  | Some n => if bool_decide (decimal_digits n = k) && (n <? 4294967295)%N then Some n else None
  | None => None
  end.

Definition index_key (i : nat) : jsstr := decimal_digits (N.of_nat i).

(** Insert an index key by its numeric value. *)
Fixpoint insert_index (p : N * jsstr) (l : list (N * jsstr)) : list (N * jsstr) :=
  match l with
  | [] => [p]
  | q :: l' => if (p.1 <=? q.1)%N then p :: q :: l' else q :: insert_index p l'
  end.

Definition sort_indices (l : list (N * jsstr)) : list (N * jsstr) := foldr insert_index [] l.

(** OrdinaryOwnPropertyKeys on the string keys of an ordinary object:
    array indices in ascending order, then the other keys in creation
    order. *)
Definition ordinary_keys (ks : list jsstr) : list jsstr :=
  (snd <$> sort_indices (omap (λ k, (λ n, (n, k)) <$> array_index k) ks))
  ++ filter (λ k, array_index k = None) ks.

(** [Object.keys(v)] for the values [JSON.parse] returns and the
    string [""]; [None] is the TypeError of ToObject on undefined and
    null. *)
Definition object_keys (v : jsval) : option (list jsstr) :=
  match v with
  | JUndefined | JNull => None
  | JBool _ | JNum _ => Some []
  | JStr s => Some (index_key <$> seq 0 (length s))
  | JArr xs => Some (index_key <$> seq 0 (length xs))
  | JObj ps => Some (ordinary_keys (fst <$> ps))
  end.

(** [v[k]]: an own property, a character of a string, or undefined. *)
Definition get_prop (v : jsval) (k : jsstr) : jsval :=
  match v with
  | JStr s => match array_index k with
              | Some i => match s !! N.to_nat i with Some c => JStr [c] | None => JUndefined end
              | None => JUndefined
              end
  | JArr xs => match array_index k with
               | Some i => default JUndefined (xs !! N.to_nat i)
               | None => JUndefined
               end
  | JObj ps => default JUndefined (snd <$> list_find_key k ps)
  | _ => JUndefined
  end.

(** ** Well-formed values *)

(** Every string inside the value (keys included) is made of 16-bit code
    units. *)
Fixpoint val_wf (v : jsval) : Prop :=
  match v with
  | JStr s => str_wf s
  | JArr xs => (fix all (xs : list jsval) : Prop :=
                  match xs with [] => True | x :: xs' => val_wf x ∧ all xs' end) xs
  | JObj ps => (fix all (ps : list (jsstr * jsval)) : Prop :=
                  match ps with [] => True | p :: ps' => (str_wf p.1 ∧ val_wf p.2) ∧ all ps' end) ps
  | _ => True
  end.

Lemma val_wf_arr xs : val_wf (JArr xs) ↔ Forall val_wf xs.
Proof.
  simpl. induction xs as [|x xs IH]; [split; constructor|].
  rewrite Forall_cons. by rewrite IH.
Qed.

Lemma val_wf_obj ps : val_wf (JObj ps) ↔ Forall (λ p, str_wf p.1 ∧ val_wf p.2) ps.
Proof.
  simpl. induction ps as [|p ps IH]; [split; constructor|].
  rewrite Forall_cons. by rewrite IH.
Qed.

(** Induction on values, with the hypotheses on the elements of arrays
    and the values of objects. *)
Lemma jsval_ind' (P : jsval → Prop) :
  P JUndefined → P JNull → (∀ b, P (JBool b)) → (∀ n, P (JNum n)) → (∀ s, P (JStr s)) →
  (∀ xs, Forall P xs → P (JArr xs)) → (∀ ps, Forall (λ p, P p.2) ps → P (JObj ps)) →
  ∀ v, P v.
Proof.
  intros Hu Hn Hb Hnum Hs Ha Ho. fix IH 1. intros [| | | | |xs|ps].
  1-5: auto.
  - apply Ha. induction xs as [|x xs IHxs]; constructor; [apply IH | exact IHxs].
  - apply Ho. induction ps as [|p ps IHps]; constructor; [apply IH | exact IHps].
Qed.

Lemma str_wf_take n s : str_wf s → str_wf (take n s).
Proof. unfold str_wf. intros. by apply Forall_take. Qed.

Lemma str_wf_drop n s : str_wf s → str_wf (drop n s).
Proof. unfold str_wf. intros. by apply Forall_drop. Qed.

Lemma str_wf_replicate n c : unit_ok c → str_wf (replicate n c).
Proof. unfold str_wf. intros. by apply Forall_replicate. Qed.

Lemma str_wf_join sep ps : unit_ok sep → Forall str_wf ps → str_wf (join_with sep ps).
Proof. apply join_with_Forall. Qed.

#[local] Hint Resolve str_wf_take str_wf_drop str_wf_replicate : js.

Lemma number_to_string_wf x : str_wf (number_to_string x).
Proof.
  unfold number_to_string, positive_to_string, exponent_part, digits_of.
  destruct (mant x =? 0); [apply js_wf|]. destruct (strip_zeros _ _ _) as [m t].
  apply str_wf_app_2; [destruct (_ <? 0); auto with js|].
  assert (unit_ok 48 ∧ unit_ok 46) as [H48 H46] by (unfold unit_ok; lia).
  repeat case_match; repeat (apply str_wf_app_2 || apply str_wf_cons; try split);
    auto with js; try (destruct (_ <? 0); auto with js).
Qed.

(** ToString of an array element inside [join]. *)
Definition elem_string (x : jsval) : completion jsstr :=
  match x with JUndefined | JNull => mret [] | _ => to_string x end.

Lemma to_string_arr xs : to_string (JArr xs) = join_with 44 <$> mapM elem_string xs.
Proof. reflexivity. Qed.

(** ToString of a well-formed value is well-formed. *)
Lemma to_string_wf v s : val_wf v → to_string v = Normal s → str_wf s.
Proof.
  revert s. induction v as [| | b | n | s | xs IH | ps _] using jsval_ind'; intros t Hw;
    simpl; unfold mret, completion_ret; try (intros [= <-]; apply js_wf).
  - destruct b; intros [= <-]; apply js_wf.
  - intros [= <-]. apply number_to_string_wf.
  - by intros [= <-].
  - rewrite <- to_string_arr, to_string_arr. apply val_wf_arr in Hw.
    destruct (mapM elem_string xs) as [ss|] eqn:E; simpl; [|discriminate]. intros [= <-].
    apply str_wf_join; [unfold unit_ok; lia|]. apply mapM_Normal in E.
    induction E as [|x y xs ys Hy _ IHE]; constructor; inversion IH; inversion Hw; subst.
    + unfold elem_string in Hy. destruct x; try (injection Hy as <-; constructor); eauto.
    + by apply IHE.
  - destruct (list_find_key _ _); [discriminate|]. intros [= <-]. apply js_wf.
Qed.

Lemma elem_string_throw x e : elem_string x = Throw e → to_string x = Throw e.
Proof. by destruct x. Qed.

(** ToString throws only a TypeError, and only on the values of
    [tostring_throws]. *)
Lemma to_string_throw v e : to_string v = Throw e → e = TypeError ∧ tostring_throws v.
Proof.
  induction v as [| | b | n | s | xs IH | ps _] using jsval_ind'; simpl; try discriminate.
  - by destruct b.
  - rewrite <- to_string_arr, to_string_arr.
    destruct (mapM elem_string xs) as [|e'] eqn:E; simpl; [discriminate|]. intros [= <-].
    destruct (mapM_Throw_elem _ _ _ E) as (x & Hx & Hex). apply elem_string_throw in Hex.
    rewrite Forall_forall in IH. destruct (IH x Hx Hex) as [-> Ht].
    split; [done | by econstructor].
  - destruct (list_find_key _ _) eqn:E; [|discriminate]. intros [= <-].
    split; [done | by econstructor].
Qed.

Lemma tostring_throws_not_nullish x : tostring_throws x → elem_string x = to_string x.
Proof. by inversion 1. Qed.

Lemma tostring_throws_to_string v : tostring_throws v → to_string v = Throw TypeError.
Proof.
  induction 1 as [ps p Hp|xs x Hx Ht IH].
  - simpl. by rewrite Hp.
  - rewrite to_string_arr.
    assert (elem_string x = Throw TypeError) as Hex by by rewrite tostring_throws_not_nullish.
    destruct (mapM_Throw_of_elem _ _ _ _ Hx Hex) as [e He]. rewrite He. simpl.
    destruct (mapM_Throw_elem _ _ _ He) as (y & _ & Hy). apply elem_string_throw in Hy.
    by destruct (to_string_throw y e Hy) as [-> _].
Qed.

(** ToString of a value [JSON.parse] returns throws exactly on an
    object with an own "toString" key and on an array holding such a
    value at any depth of arrays, and then throws a TypeError; on every
    other value it returns. *)
Lemma to_string_throws_iff (v : jsval) :
  (to_string v = Throw TypeError ↔ tostring_throws v) ∧
  (∀ e, to_string v = Throw e → e = TypeError) ∧
  (¬ tostring_throws v → ∃ s, to_string v = Normal s).
Proof.
  split_and!.
  - split; [intros H; by apply to_string_throw in H as [_ ?] | apply tostring_throws_to_string].
  - intros e H. by apply to_string_throw in H as [? _].
  - intros Hn. destruct (to_string v) as [s|e] eqn:E; [by eexists|].
    apply to_string_throw in E as [_ ?]. done.
Qed.

Lemma list_find_key_wf k ps p :
  Forall (λ p, str_wf p.1 ∧ val_wf p.2) ps → list_find_key k ps = Some p → val_wf p.2.
Proof.
  induction 1 as [|q ps Hq _ IH]; simpl; [discriminate|].
  case_bool_decide; [intros [= <-]; apply Hq | exact IH].
Qed.

(** A property of a well-formed value is well-formed. *)
Lemma get_prop_wf v k : val_wf v → val_wf (get_prop v k).
Proof.
  intros Hw. destruct v as [| | | |s|xs|ps]; simpl; try done.
  - destruct (array_index k); [|done]. destruct (s !! N.to_nat n) eqn:E; [|done].
    simpl. apply str_wf_cons. split; [|constructor].
    eapply Forall_lookup_1; [exact Hw | exact E].
  - destruct (array_index k); [|done]. apply val_wf_arr in Hw.
    destruct (xs !! N.to_nat n) eqn:E; simpl; [|done]. eapply Forall_lookup_1; [exact Hw | exact E].
  - apply val_wf_obj in Hw. destruct (list_find_key k ps) as [p|] eqn:E; simpl; [|done].
    eapply list_find_key_wf; [exact Hw | exact E].
Qed.

(** ** The order of [Object.keys] *)

(** Keys in ascending numeric order. *)
Definition index_le (a b : N * jsstr) : Prop := (a.1 ≤ b.1)%N.

Lemma insert_index_perm p l : insert_index p l ≡ₚ p :: l.
Proof.
  induction l as [|q l IH]; simpl; [done|].
  destruct (p.1 <=? q.1)%N; [done|]. rewrite IH. constructor.
Qed.

Lemma sort_indices_perm l : sort_indices l ≡ₚ l.
Proof.
  induction l as [|p l IH]; simpl; [done|]. by rewrite insert_index_perm, IH.
Qed.

Lemma insert_index_hd p q l :
  (q.1 ≤ p.1)%N → HdRel index_le q l → HdRel index_le q (insert_index p l).
Proof.
  intros Hqp Hq. destruct l as [|r l]; simpl; [by constructor|].
  destruct (p.1 <=? r.1)%N; constructor; [done|]. by inversion Hq.
Qed.

Lemma insert_index_sorted p l : Sorted index_le l → Sorted index_le (insert_index p l).
Proof.
  induction 1 as [|q l Hl IH Hq]; simpl; [by repeat constructor|].
  destruct (N.leb_spec p.1 q.1).
  - constructor; [by constructor|]. by constructor.
  - constructor; [done|]. apply insert_index_hd; [unfold index_le; lia | done].
Qed.

Lemma sort_indices_sorted l : Sorted index_le (sort_indices l).
Proof. induction l as [|p l IH]; simpl; [constructor|]. by apply insert_index_sorted. Qed.

Lemma omap_index_keys (ks : list jsstr) :
  snd <$> omap (λ k, (λ n, (n, k)) <$> array_index k) ks = filter (λ k, is_Some (array_index k)) ks.
Proof.
  induction ks as [|k ks IH]; simpl; [done|].
  rewrite filter_cons. destruct (array_index k) eqn:E; simpl; [f_equal|]; exact IH.
Qed.

Lemma omap_index_valid (ks : list jsstr) :
  Forall (λ p, array_index p.2 = Some p.1) (omap (λ k, (λ n, (n, k)) <$> array_index k) ks).
Proof.
  induction ks as [|k ks IH]; simpl; [constructor|].
  destruct (array_index k) eqn:E; simpl; [by constructor|done].
Qed.

(** [ordinary_keys] lists the array-index keys in ascending numeric order
    (each with its index), then the other keys in their original order. *)
Lemma ordinary_keys_spec (ks : list jsstr) :
  ∃ idx, ordinary_keys ks = (snd <$> idx) ++ filter (λ k, array_index k = None) ks ∧
         (snd <$> idx) ≡ₚ filter (λ k, is_Some (array_index k)) ks ∧
         Sorted index_le idx ∧ Forall (λ p, array_index p.2 = Some p.1) idx.
Proof.
  exists (sort_indices (omap (λ k, (λ n, (n, k)) <$> array_index k) ks)). split; [done|].
  split; [|split].
  - by rewrite sort_indices_perm, omap_index_keys.
  - apply sort_indices_sorted.
  - eapply Permutation_Forall; [symmetry; apply sort_indices_perm | apply omap_index_valid].
Qed.

(** The keys [Object.keys] lists for a well-formed value are well-formed. *)
Lemma object_keys_wf v ks : val_wf v → object_keys v = Some ks → Forall str_wf ks.
Proof.
  intros Hw. destruct v as [| | | |s|xs|ps]; simpl; try discriminate.
  1-2: intros [= <-]; constructor.
  1-2: intros [= <-]; apply Forall_fmap, Forall_forall; intros; apply decimal_digits_wf.
  intros [= <-]. apply val_wf_obj in Hw.
  assert (Forall str_wf (fst <$> ps)) as Hk.
  { apply Forall_fmap. eapply Forall_impl; [exact Hw|]. by intros ? []. }
  unfold ordinary_keys. apply Forall_app. split; [|by apply Forall_filter_sub].
  eapply Permutation_Forall; [symmetry; apply (fmap_Permutation snd), sort_indices_perm|].
  rewrite omap_index_keys. by apply Forall_filter_sub.
Qed.

End JsValue.
