(* ===== verification/Uri.v ===== *)
(** [encodeURIComponent] (ECMA-262 19.2.6.5 and the Encode operation
    19.2.6.5.1) on code units: the unescaped set of letters, digits and
    [-_.!~*'()], the UTF-8 octets of every other code point written as
    [%XX] with upper-case hex digits, surrogate pairs combined into one
    code point, and a [URIError] on an unpaired surrogate.  The lemmas
    show what an encoded string can contain, which is what keeps the
    [&] and [=] of [queryStringified] unambiguous. *)

From S2P Require Import Prelude JsString.

Module Uri.

Definition is_alnum (c : Z) : bool :=
  ((48 <=? c) && (c <=? 57)) || ((65 <=? c) && (c <=? 90)) || ((97 <=? c) && (c <=? 122)).

(** The unescaped set of [encodeURIComponent]. *)
Definition is_unreserved (c : Z) : bool := is_alnum c || bool_decide (c ∈ js "-_.!~*'()").

Definition is_lead (c : Z) : bool := (55296 <=? c) && (c <=? 56319).
Definition is_trail (c : Z) : bool := (56320 <=? c) && (c <=? 57343).

(** UTF16SurrogatePairToCodePoint. *)
Definition pair_code_point (lead trail : Z) : Z := (lead - 55296) * 1024 + (trail - 56320) + 65536.

(** The UTF-8 octets of a code point. *)
Definition utf8 (cp : Z) : list Z :=
  if cp <? 128 then [cp]
  else if cp <? 2048 then
    [Z.lor 192 (Z.shiftr cp 6); Z.lor 128 (Z.land cp 63)]
  else if cp <? 65536 then
    [Z.lor 224 (Z.shiftr cp 12); Z.lor 128 (Z.land (Z.shiftr cp 6) 63); Z.lor 128 (Z.land cp 63)]
  else
    [Z.lor 240 (Z.shiftr cp 18); Z.lor 128 (Z.land (Z.shiftr cp 12) 63);
     Z.lor 128 (Z.land (Z.shiftr cp 6) 63); Z.lor 128 (Z.land cp 63)].

(** An upper-case hex digit of a value in [0, 16). *)
Definition hex_digit (d : Z) : Z := if d <? 10 then 48 + d else 55 + d.

(** [%XX] for one octet. *)
Definition percent (b : Z) : jsstr := [37; hex_digit (Z.shiftr b 4); hex_digit (Z.land b 15)].

Definition escape_code_point (cp : Z) : jsstr := mjoin (percent <$> utf8 cp).

(** Encode(string, "") with the loop over [k] read structurally: one code
    unit is consumed when it is unescaped or a non-surrogate, two for a
    surrogate pair. *)
Fixpoint encode (s : jsstr) : completion jsstr :=
  match s with
  | [] => Normal []
  | c :: s' =>
      if is_unreserved c then cons c <$> encode s'
      else if is_trail c then Throw URIError
      else if is_lead c then
        match s' with
        | d :: s'' =>
            if is_trail d then app (escape_code_point (pair_code_point c d)) <$> encode s''
            else Throw URIError
        | [] => Throw URIError
        end
      else app (escape_code_point c) <$> encode s'
  end.

(** A string with no unpaired surrogate. *)
Fixpoint well_paired (s : jsstr) : bool :=
  match s with
  | [] => true
  | c :: s' =>
      if is_trail c then false
      else if is_lead c then
        match s' with
        | d :: s'' => is_trail d && well_paired s''
        | [] => false
        end
      else well_paired s'
  end.

(** The characters an encoded string is made of. *)
Definition is_hex_upper (c : Z) : bool := ((48 <=? c) && (c <=? 57)) || ((65 <=? c) && (c <=? 70)).
Definition encoded_char (c : Z) : bool := is_unreserved c || (c =? 37) || is_hex_upper c.

(** ** Bounds on the octets *)

Lemma lor_lt_pow2 a b n : 0 ≤ n → 0 ≤ a < 2 ^ n → 0 ≤ b < 2 ^ n → 0 ≤ Z.lor a b < 2 ^ n.
Proof.
  intros Hn Ha Hb. split; [apply Z.lor_nonneg; lia|].
  destruct (Z.eq_dec a 0) as [->|Ha0]; [rewrite Z.lor_0_l; lia|].
  destruct (Z.eq_dec b 0) as [->|Hb0]; [rewrite Z.lor_0_r; lia|].
  assert (0 < Z.lor a b).
  { assert (Z.lor a b ≠ 0) by (rewrite Z.lor_eq_0_iff; lia).
    pose proof (proj2 (Z.lor_nonneg a b)). lia. }
  apply Z.log2_lt_pow2; [done|]. rewrite Z.log2_lor by lia.
  apply Z.max_lub_lt; apply Z.log2_lt_pow2; lia.
Qed.

Lemma shiftr_range a k m : 0 ≤ k → 0 ≤ a < m * 2 ^ k → 0 ≤ Z.shiftr a k < m.
Proof.
  intros Hk Ha. rewrite Z.shiftr_div_pow2 by done.
  assert (0 < 2 ^ k) by (apply Z.pow_pos_nonneg; lia).
  split; [apply Z.div_pos; lia | apply Z.div_lt_upper_bound; lia].
Qed.

Lemma land_63 a : 0 ≤ a → 0 ≤ Z.land a 63 < 64.
Proof. intros. change 63 with (Z.ones 6). rewrite Z.land_ones by lia. apply Z.mod_pos_bound. lia. Qed.

Lemma lor_byte c x : 0 ≤ c < 256 → 0 ≤ x < 256 → 0 ≤ Z.lor c x < 256.
Proof. intros. change 256 with (2 ^ 8). apply lor_lt_pow2; lia. Qed.

#[local] Hint Resolve lor_byte land_63 : js.

(** Every octet of the UTF-8 form of a code point is a byte. *)
Lemma utf8_bytes cp : 0 ≤ cp < 1114112 → Forall (λ b, 0 ≤ b < 256) (utf8 cp).
Proof.
  intros Hcp. unfold utf8.
  assert (∀ k, 0 ≤ k → 0 ≤ Z.land (Z.shiftr cp k) 63 < 64) as Hl
    by (intros; apply land_63; apply Z.shiftr_nonneg; lia).
  pose proof (land_63 cp (proj1 Hcp)).
  apply Forall_forall. intros b Hb.
  zcase; simpl in Hb; repeat (apply elem_of_cons in Hb as [->|Hb]);
    try (apply elem_of_nil in Hb as []); try lia; apply lor_byte; try lia.
  - pose proof (shiftr_range cp 6 32). lia.
  - pose proof (shiftr_range cp 12 16). lia.
  - pose proof (Hl 6). lia.
  - pose proof (shiftr_range cp 18 5). lia.
  - pose proof (Hl 12). lia.
  - pose proof (Hl 6). lia.
Qed.

Lemma hex_digit_upper d : 0 ≤ d < 16 → is_hex_upper (hex_digit d) = true.
Proof. intros. unfold hex_digit, is_hex_upper. zcase; simpl; zcase; simpl; lia. Qed.

Lemma encoded_char_hex d : 0 ≤ d < 16 → encoded_char (hex_digit d) = true.
Proof.
  intros. unfold encoded_char. rewrite hex_digit_upper by done. by rewrite !orb_true_r.
Qed.

Lemma percent_chars b : 0 ≤ b < 256 → Forall (λ c, encoded_char c = true) (percent b).
Proof.
  intros Hb. unfold percent. repeat constructor.
  - apply encoded_char_hex. apply shiftr_range; lia.
  - apply encoded_char_hex. change 15 with (Z.ones 4). rewrite Z.land_ones by lia.
    apply Z.mod_pos_bound. lia.
Qed.

Lemma escape_chars cp :
  0 ≤ cp < 1114112 → Forall (λ c, encoded_char c = true) (escape_code_point cp).
Proof.
  intros Hcp. unfold escape_code_point. induction (utf8_bytes cp Hcp); [constructor|].
  change (Forall (λ c, encoded_char c = true) (percent x ++ mjoin (percent <$> l))).
  apply Forall_app_2; [by apply percent_chars | done].
Qed.

Lemma pair_code_point_range c d :
  is_lead c = true → is_trail d = true → 0 ≤ pair_code_point c d < 1114112.
Proof. unfold is_lead, is_trail, pair_code_point. intros ?%andb_true_iff ?%andb_true_iff. lia. Qed.

(** ** What [encode] produces *)

Lemma encode_cons_fmap {A} (f : A → jsstr) (m : completion A) t :
  f <$> m = Normal t → ∃ a, m = Normal a ∧ t = f a.
Proof. destruct m; simpl; [intros [= <-]; eauto | discriminate]. Qed.

(** An encoded string is made of unescaped characters, [%] and upper-case
    hex digits only. *)
Theorem encode_chars (s t : jsstr) :
  str_wf s → encode s = Normal t → Forall (λ c, encoded_char c = true) t.
Proof.
  revert t. induction s as [s IH] using (induction_ltof1 _ (@length Z)); unfold ltof in IH.
  destruct s as [|c s']; simpl; intros t Hw He; [by injection He as <-|].
  apply str_wf_cons in Hw as [Hc Hw]. unfold unit_ok in Hc.
  destruct (is_unreserved c) eqn:Hu.
  { apply encode_cons_fmap in He as (a & Ha & ->). constructor.
    - unfold encoded_char. by rewrite Hu.
    - apply (IH s'); simpl; auto with lia. }
  destruct (is_trail c); [discriminate|]. destruct (is_lead c) eqn:Hl.
  - destruct s' as [|d s'']; [discriminate|]. destruct (is_trail d) eqn:Ht; [|discriminate].
    apply encode_cons_fmap in He as (a & Ha & ->). apply Forall_app_2.
    + by apply escape_chars, pair_code_point_range.
    + apply str_wf_cons in Hw as [_ Hw]. apply (IH s''); simpl; auto with lia.
  - apply encode_cons_fmap in He as (a & Ha & ->). apply Forall_app_2.
    + apply escape_chars. lia.
    + apply (IH s'); simpl; auto with lia.
Qed.

Lemma unreserved_ascii c : is_unreserved c = true → 0 ≤ c < 128.
Proof.
  unfold is_unreserved, is_alnum. rewrite !orb_true_iff, !andb_true_iff, !Z.leb_le, bool_decide_eq_true.
  intros [[[? | ?] | ?] | Hm]; try lia.
  change (c ∈ [45; 95; 46; 33; 126; 42; 39; 40; 41]) in Hm.
  repeat (apply elem_of_cons in Hm as [->|Hm]; [lia|]). by apply elem_of_nil in Hm.
Qed.

Lemma unreserved_not_surrogate c : is_unreserved c = true → is_trail c = false ∧ is_lead c = false.
Proof.
  intros H%unreserved_ascii. unfold is_trail, is_lead. zcase; simpl; split; try done; lia.
Qed.

Lemma encode_throw_uri s e : encode s = Throw e → e = URIError.
Proof.
  induction s as [s IH] using (induction_ltof1 _ (@length Z)); unfold ltof in IH.
  destruct s as [|c s']; simpl; [discriminate|].
  destruct (is_unreserved c).
  { destruct (encode s') eqn:E; simpl; [discriminate|]. intros [= <-]. apply (IH s'); simpl; auto with lia. }
  destruct (is_trail c); [congruence|]. destruct (is_lead c).
  - destruct s' as [|d s'']; [congruence|]. destruct (is_trail d); [|congruence].
    destruct (encode s'') eqn:E; simpl; [discriminate|]. intros [= <-]. apply (IH s''); simpl; auto with lia.
  - destruct (encode s') eqn:E; simpl; [discriminate|]. intros [= <-]. apply (IH s'); simpl; auto with lia.
Qed.

Lemma encode_normal_iff s : (∃ t, encode s = Normal t) ↔ well_paired s = true.
Proof.
  induction s as [s IH] using (induction_ltof1 _ (@length Z)); unfold ltof in IH.
  destruct s as [|c s']; simpl; [split; eauto|].
  destruct (is_unreserved c) eqn:Hu.
  { destruct (unreserved_not_surrogate c Hu) as [-> ->]. rewrite <- (IH s') by (simpl; lia).
    destruct (encode s'); simpl; split; intros [t Ht]; try discriminate; eauto. }
  destruct (is_trail c). { split; [intros [t Ht]|]; discriminate. }
  destruct (is_lead c).
  - destruct s' as [|d s'']; [split; [intros [t Ht]|]; discriminate|].
    destruct (is_trail d); simpl; [|split; [intros [t Ht]|]; discriminate].
    rewrite <- (IH s'') by (simpl; lia).
    destruct (encode s''); simpl; split; intros [t Ht]; try discriminate; eauto.
  - rewrite <- (IH s') by (simpl; lia).
    destruct (encode s'); simpl; split; intros [t Ht]; try discriminate; eauto.
Qed.
(** [encode] throws exactly on the strings with an unpaired surrogate,
    and then always a [URIError]. *)
Theorem encode_throws_iff (s : jsstr) :
  (encode s = Throw URIError ↔ well_paired s = false) ∧ (∀ e, encode s = Throw e → e = URIError).
Proof.
  split; [|apply encode_throw_uri].
  pose proof (encode_normal_iff s) as Hn. destruct (encode s) as [t|e] eqn:E.
  - split; [discriminate|]. intros Hf. assert (well_paired s = true) by (apply Hn; eauto). congruence.
  - rewrite (encode_throw_uri s e E). split; [intros _|done].
    destruct (well_paired s); [|done]. destruct (proj2 Hn eq_refl) as [t Ht]. discriminate.
Qed.

(** A string of unescaped characters is its own encoding. *)
Lemma encode_unreserved (s : jsstr) : Forall (λ c, is_unreserved c = true) s → encode s = Normal s.
Proof. induction 1 as [|c s Hc _ IH]; [done|]. simpl. by rewrite Hc, IH. Qed.


(** The separators of a query string never occur in an encoded string. *)
Lemma encode_no_sep s t c : str_wf s → encode s = Normal t → c ∈ [38; 61; 63] → c ∉ t.
Proof.
  intros Hw He Hc Ht. pose proof (encode_chars s t Hw He) as Hf.
  rewrite Forall_forall in Hf. specialize (Hf c Ht).
  repeat (apply elem_of_cons in Hc as [->|Hc]; [discriminate|]). by apply elem_of_nil in Hc.
Qed.

End Uri.
