(* ===== verification/UriDecode.v ===== *)
(** [decodeURIComponent] (ECMA-262 19.2.6.6, Decode 19.2.6.5.2 with an
    empty reserved set), which the program does not call: it is modelled
    to read back the query string [queryStringified] builds.  The main
    result, [decode_encode], is that it inverts [encodeURIComponent] on
    well-formed strings; its proof goes through the arithmetic form of
    the UTF-8 octets ([utf8_arith]) and the decoding of one escape
    ([decode_escape]). *)

From S2P Require Import Prelude JsString Uri.
Import Uri.

Module UriDecode.

(** ** [decodeURIComponent] (ECMA-262 19.2.6.6 and Decode 19.2.6.5.2)

    Decode(string, "") reads the string left to right: a unit other than
    [%] is copied; [%XX] is an octet [B] (ParseHexOctet, a [URIError]
    when [XX] is not hex); [B] below 0x80 is copied as one unit; otherwise
    its [n] leading one bits give the length of a UTF-8 sequence ([n] must
    be 2, 3 or 4) whose [n - 1] further octets are read as [%XX] each; the
    octets must be the valid UTF-8 form of a code point, which is
    appended in UTF-16. *)

Definition hex_digit_value (c : Z) : option Z :=
  if (48 <=? c) && (c <=? 57) then Some (c - 48)
  else if (65 <=? c) && (c <=? 70) then Some (c - 55)
  else if (97 <=? c) && (c <=? 102) then Some (c - 87)
  else None.

(** ParseHexOctet. *)
Definition parse_hex_octet (h1 h2 : Z) : option Z :=
  a ← hex_digit_value h1; b ← hex_digit_value h2; Some (a * 16 + b).

(** The number of leading one bits of an octet (5 stands for "more than
    4"). *)
Definition lead_ones (b : Z) : nat :=
  if b <? 128 then 0 else if b <? 192 then 1 else if b <? 224 then 2
  else if b <? 240 then 3 else if b <? 248 then 4 else 5.

(** The code point of a UTF-8 sequence: the payload bits of the lead
    octet, then six bits of each continuation octet. *)
Definition utf8_value (bs : list Z) : Z :=
  match bs with
  | [] => 0
  | [b0] => b0 mod 128
  | b0 :: cs => foldl (λ v b, v * 64 + b mod 64) (b0 mod 2 ^ (7 - Z.of_nat (length bs))) cs
  end.

(** Octets that are the (shortest) UTF-8 form of a Unicode scalar value. *)
Definition valid_utf8 (bs : list Z) : bool :=
  let v := utf8_value bs in
  bool_decide (utf8 v = bs) && negb (is_lead v || is_trail v) && (v <? 1114112).

(** UTF16EncodeCodePoint. *)
Definition utf16_encode (cp : Z) : jsstr :=
  if cp <? 65536 then [cp] else [(cp - 65536) / 1024 + 55296; (cp - 65536) mod 1024 + 56320].

(** The [j] continuation octets, each written [%XX]. *)
Fixpoint cont_octets (j : nat) (s : jsstr) : option (list Z * jsstr) :=
  match j with
  | O => Some ([], s)
  | S j' =>
      match s with
      | c :: h1 :: h2 :: s' =>
          if c =? 37 then
            b ← parse_hex_octet h1 h2; '(bs, r) ← cont_octets j' s'; Some (b :: bs, r)
          else None
      | _ => None
      end
  end.

(** One iteration of Decode's loop on the unit [c] followed by [s]: the
    units it appends and the rest of the string. *)
Definition decode_step (c : Z) (s : jsstr) : completion (jsstr * jsstr) :=
  if c =? 37 then
    match s with
    | h1 :: h2 :: s' =>
        match parse_hex_octet h1 h2 with
        | None => Throw URIError
        | Some b =>
            match lead_ones b with
            | O => Normal ([b], s')
            | n =>
                if bool_decide (n = 1%nat) || bool_decide (4 < n)%nat then Throw URIError
                else match cont_octets (n - 1) s' with
                     | None => Throw URIError
                     | Some (cs, s'') =>
                         if valid_utf8 (b :: cs) then Normal (utf16_encode (utf8_value (b :: cs)), s'')
                         else Throw URIError
                     end
            end
        end
    | _ => Throw URIError
    end
  else Normal ([c], s).

(** The loop, with fuel: every iteration consumes at least one unit, so
    the length of the string is enough. *)
Fixpoint decode_loop (fuel : nat) (s : jsstr) : completion jsstr :=
  match fuel, s with
  | _, [] => Normal []
  | O, _ :: _ => Throw URIError
  | S f, c :: s' => '(piece, r) ← decode_step c s'; app piece <$> decode_loop f r
  end.

Definition decode (s : jsstr) : completion jsstr := decode_loop (length s) s.

(** ** [decode] inverts [encode] *)

(** Setting bits above [k] and adding agree on a value below [2^k]. *)
Lemma lor_add c x k : 0 ≤ k → 0 ≤ x < 2 ^ k → c mod 2 ^ k = 0 → Z.lor c x = c + x.
Proof.
  intros Hk Hx Hc.
  assert (Z.land c x = 0) as H0.
  { apply Z.bits_inj_0. intros n. rewrite Z.land_spec.
    destruct (Z.lt_ge_cases n k) as [Hn|Hn].
    - destruct (Z.lt_ge_cases n 0) as [Hn0|Hn0]; [by rewrite Z.testbit_neg_r|].
      rewrite <- (Z.mod_pow2_bits_low c k n Hn), Hc. by rewrite Z.bits_0.
    - rewrite <- (Z.mod_small x (2 ^ k)) by lia. rewrite Z.mod_pow2_bits_high by lia.
      apply andb_false_r. }
  rewrite <- Z.lxor_lor by done. by rewrite Z.add_nocarry_lxor.
Qed.

Lemma land_63_mod a : Z.land a 63 = a mod 64.
Proof. change 63 with (Z.ones 6). by rewrite Z.land_ones. Qed.

(** The octets of [utf8], as arithmetic. *)
Lemma utf8_arith cp : 0 ≤ cp < 1114112 → utf8 cp =
  if cp <? 128 then [cp]
  else if cp <? 2048 then [192 + cp / 64; 128 + cp mod 64]
  else if cp <? 65536 then [224 + cp / 4096; 128 + cp / 64 mod 64; 128 + cp mod 64]
  else [240 + cp / 262144; 128 + cp / 4096 mod 64; 128 + cp / 64 mod 64; 128 + cp mod 64].
Proof.
  intros Hcp. unfold utf8. rewrite !land_63_mod, !Z.shiftr_div_pow2 by lia.
  change (2 ^ 6) with 64. change (2 ^ 12) with 4096. change (2 ^ 18) with 262144.
  assert (∀ y, Z.lor 128 (y mod 64) = 128 + y mod 64) as Hc.
  { intros y. apply (lor_add _ _ 6); [lia| |done]. change (2 ^ 6) with 64. apply Z.mod_pos_bound. lia. }
  rewrite !Hc.
  zcase; f_equal; try done;
    [apply (lor_add _ _ 5) | apply (lor_add _ _ 4) | apply (lor_add _ _ 3)]; try done; simpl;
    (split; [apply Z.div_pos; lia | apply Z.div_lt_upper_bound; lia]).
Qed.

(** [utf8_value] inverts [utf8]. *)
Lemma utf8_value_utf8 cp : 0 ≤ cp < 1114112 → utf8_value (utf8 cp) = cp.
Proof.
  intros Hcp. rewrite utf8_arith by done. zcase; cbn; Z.div_mod_to_equations; lia.
Qed.

(** The lead octet announces the length of the sequence. *)
Lemma lead_ones_utf8 cp : 0 ≤ cp < 1114112 →
  ∃ b0 cs, utf8 cp = b0 :: cs ∧
    ((cp < 128 ∧ cs = [] ∧ lead_ones b0 = 0%nat) ∨
     (128 ≤ cp ∧ lead_ones b0 = S (length cs) ∧ (1 ≤ length cs ≤ 3)%nat)).
Proof.
  intros Hcp. rewrite utf8_arith by done. unfold lead_ones.
  zcase; eexists _, _; (split; [reflexivity|]);
    [left | right..]; (split; [lia|]); cbn; zcase; try (split; [done|lia]); Z.div_mod_to_equations; lia.
Qed.

Lemma hex_digit_value_digit d : 0 ≤ d < 16 → hex_digit_value (hex_digit d) = Some d.
Proof. intros. unfold hex_digit, hex_digit_value. zcase; simpl; zcase; simpl; f_equal; lia. Qed.

(** ParseHexOctet reads back the [%XX] of an octet. *)
Lemma percent_parse b r : 0 ≤ b < 256 →
  ∃ h1 h2, percent b ++ r = 37 :: h1 :: h2 :: r ∧ parse_hex_octet h1 h2 = Some b.
Proof.
  intros Hb. eexists _, _. split; [reflexivity|]. unfold parse_hex_octet.
  change 15 with (Z.ones 4). rewrite Z.land_ones, Z.shiftr_div_pow2 by lia. change (2 ^ 4) with 16.
  rewrite !hex_digit_value_digit by (split; [apply Z.div_pos || apply Z.mod_pos_bound; lia|];
    first [apply Z.mod_pos_bound | apply Z.div_lt_upper_bound]; lia).
  simpl. f_equal. Z.div_mod_to_equations; lia.
Qed.

Lemma cont_octets_percent bs r : Forall (λ b, 0 ≤ b < 256) bs →
  cont_octets (length bs) (mjoin (percent <$> bs) ++ r) = Some (bs, r).
Proof.
  induction 1 as [|b bs Hb _ IH]; [done|]. rewrite fmap_cons, mjoin_cons, <- app_assoc.
  destruct (percent_parse b (mjoin (percent <$> bs) ++ r) Hb) as (h1 & h2 & -> & Hp).
  simpl. rewrite Hp. simpl. by rewrite IH.
Qed.

Lemma utf16_encode_bmp c : 0 ≤ c < 65536 → utf16_encode c = [c].
Proof. intros. unfold utf16_encode. zcase; [done | lia]. Qed.

Lemma utf16_encode_pair c d :
  is_lead c = true → is_trail d = true → utf16_encode (pair_code_point c d) = [c; d].
Proof.
  unfold is_lead, is_trail, utf16_encode, pair_code_point. rewrite !andb_true_iff, !Z.leb_le.
  intros ? ?. zcase; [lia|]. f_equal; [|f_equal]; Z.div_mod_to_equations; lia.
Qed.

(** One escape decodes, in one step of the loop, to the code point it
    escapes. *)
Lemma decode_escape cp r : 0 ≤ cp < 1114112 → is_lead cp = false → is_trail cp = false →
  ∃ t, escape_code_point cp ++ r = 37 :: t ∧ decode_step 37 t = Normal (utf16_encode cp, r).
Proof.
  intros Hcp Hl Ht. pose proof (utf8_bytes cp Hcp) as Hb. pose proof (utf8_value_utf8 cp Hcp) as Hv.
  destruct (lead_ones_utf8 cp Hcp) as (b0 & cs & Hu & Hcase).
  unfold escape_code_point. rewrite Hu in Hb, Hv |- *. apply Forall_cons in Hb as [Hb0 Hcs].
  rewrite fmap_cons, mjoin_cons, <- app_assoc.
  destruct (percent_parse b0 (mjoin (percent <$> cs) ++ r) Hb0) as (h1 & h2 & -> & Hp).
  eexists; split; [reflexivity|]. unfold decode_step. rewrite Z.eqb_refl, Hp.
  destruct Hcase as [(Hlt & -> & Hn) | (Hge & Hn & Hlen)]; rewrite Hn.
  - assert (b0 < 128) by (unfold lead_ones in Hn; zcase; done || lia).
    simpl in Hv |- *. rewrite utf16_encode_bmp by lia. rewrite <- Hv, Z.mod_small by lia. done.
  - rewrite !bool_decide_false by lia. cbn -[utf8_value].
    rewrite Nat.sub_0_r, cont_octets_percent by done.
    unfold valid_utf8. rewrite Hv, <- Hu, bool_decide_true, Hl, Ht by done. simpl. zcase; [done | lia].
Qed.

Lemma escape_rest_le cp a e : escape_code_point cp ++ a = 37 :: e → (length a ≤ length e)%nat.
Proof.
  intros He%(f_equal length). rewrite length_app in He. simpl in He.
  assert (1 ≤ length (escape_code_point cp))%nat by (unfold escape_code_point, utf8; zcase; simpl; lia).
  lia.
Qed.

Lemma decode_loop_step f c t piece r :
  decode_step c t = Normal (piece, r) → decode_loop (S f) (c :: t) = app piece <$> decode_loop f r.
Proof. intros H. simpl. by rewrite H. Qed.

Lemma decode_step_other c t : c ≠ 37 → decode_step c t = Normal ([c], t).
Proof. intros. unfold decode_step. by zcase. Qed.

Lemma unreserved_not_percent c : is_unreserved c = true → c ≠ 37.
Proof. intros Hu ->. discriminate Hu. Qed.

(** Decoding with enough fuel inverts [encode]. *)
Lemma decode_loop_encode s t f :
  str_wf s → encode s = Normal t → (length t ≤ f)%nat → decode_loop f t = Normal s.
Proof.
  revert t f. induction s as [s IH] using (induction_ltof1 _ (@length Z)); unfold ltof in IH.
  destruct s as [|c s']; simpl; intros t f Hw He Hf; [injection He as <-; by destruct f|].
  apply str_wf_cons in Hw as [Hc Hw]. unfold unit_ok in Hc.
  destruct (is_unreserved c) eqn:Hu.
  { apply encode_cons_fmap in He as (a & Ha & ->). destruct f as [|f]; [simpl in Hf; lia|].
    rewrite (decode_loop_step _ _ _ [c] a) by (apply decode_step_other, unreserved_not_percent, Hu).
    rewrite (IH s') by (simpl in *; auto with lia). done. }
  destruct (is_trail c) eqn:Ht; [discriminate|]. destruct (is_lead c) eqn:Hl.
  - destruct s' as [|d s'']; [discriminate|]. destruct (is_trail d) eqn:Htd; [|discriminate].
    apply encode_cons_fmap in He as (a & Ha & ->). apply str_wf_cons in Hw as [_ Hw].
    pose proof (pair_code_point_range c d Hl Htd) as Hr.
    assert (is_lead (pair_code_point c d) = false ∧ is_trail (pair_code_point c d) = false) as [Hl' Ht'].
    { clear IH. unfold is_lead, is_trail, pair_code_point in *.
      rewrite andb_true_iff, !Z.leb_le in Hl, Htd. split; apply andb_false_intro2, Z.leb_gt; lia. }
    destruct (decode_escape (pair_code_point c d) a Hr Hl' Ht') as (e & He & Hd).
    rewrite He in Hf |- *. destruct f as [|f]; [simpl in Hf; lia|].
    rewrite (decode_loop_step _ _ _ _ _ Hd), utf16_encode_pair by done.
    pose proof (escape_rest_le _ _ _ He).
    rewrite (IH s'') by (simpl in *; auto with lia). done.
  - apply encode_cons_fmap in He as (a & Ha & ->).
    destruct (decode_escape c a) as (e & He & Hd); [lia | done | done|].
    rewrite He in Hf |- *. destruct f as [|f]; [simpl in Hf; lia|].
    rewrite (decode_loop_step _ _ _ _ _ Hd), utf16_encode_bmp by lia.
    pose proof (escape_rest_le _ _ _ He).
    rewrite (IH s') by (simpl in *; auto with lia). done.
Qed.

(** [decodeURIComponent] inverts [encodeURIComponent] on well-formed
    strings. *)
Theorem decode_encode s t : str_wf s → encode s = Normal t → decode t = Normal s.
Proof. intros Hw He. by apply (decode_loop_encode s t). Qed.

End UriDecode.
