(* ===== verification/Query.v ===== *)
(** [queryStringified] of [Request.js] (lines 58-64): the query string
    built by the [forEach] loop that appends [key=value&] for every key of
    [Object.keys(queryObject || "")], cut by [slice(0, length - 1)] and
    appended to the URL with [concat].  The loop is proved equal to a
    reference definition that joins the pairs with [&]; the errors it
    can raise are the [URIError] of [encodeURIComponent] on an unpaired
    surrogate, the [TypeError] of ToString on a value with an own
    "toString" key, and the [TypeError] of [undefined.concat].  A reader [read_query] splits the
    URL at [?], [&] and [=] and decodes each side: it gives back the URL
    and every key with the ToString of its value. *)

From Stdlib Require Import Sorted.
From S2P Require Import Prelude JsString JsValue Uri UriDecode.
Import JsString JsValue Uri UriDecode.

Module Query.

(** [String.prototype.slice(0, end)]. *)
Definition slice0 (s : jsstr) (e : Z) : jsstr :=
  let len := Z.of_nat (length s) in
  let to := if e <? 0 then Z.max (len + e) 0 else Z.min e len in
  take (Z.to_nat to) s.

(** The [Object.keys] call of line 61, on [queries = queryObject || ""]. *)
Definition query_keys (queryObject : jsval) : completion (list jsstr) :=
  match object_keys (js_or queryObject (JStr [])) with
  | Some ks => mret ks
  | None => Throw TypeError
  end.

(** [encodeURIComponent(v)]: ToString of its argument, then the
    encoding. *)
Definition encode_component (v : jsval) : completion jsstr :=
  s ← to_string v; encode s.

(** What one call of the [forEach] callback appends to [queryString]: the
    key is a string, whose ToString is itself; the value's ToString and
    encoding come after the key's encoding. *)
Definition query_pair (queryObject : jsval) (query : jsstr) : completion jsstr :=
  ek ← encode query;
  ev ← encode_component (get_prop queryObject query);
  mret (ek ++ js "=" ++ ev ++ js "&").

(** The [forEach] loop, threading [queryString]. *)
Fixpoint for_each_pairs (queryObject : jsval) (keys : list jsstr) (queryString : jsstr)
    : completion jsstr :=
  match keys with
  | [] => mret queryString
  | k :: ks => p ← query_pair queryObject k; for_each_pairs queryObject ks (queryString ++ p)
  end.

(** [queryStringified(url, queryObject)], with [url] undefined as [None]. *)
Definition queryStringified (url : option jsstr) (queryObject : jsval) : completion jsstr :=
  keys ← query_keys queryObject;
  queryString ← for_each_pairs queryObject keys (js "?");
  let queryString := slice0 queryString (Z.of_nat (length queryString) - 1) in
  match url with
  | Some u => mret (u ++ queryString)
  | None => Throw TypeError
  end.

(** ** The reference definition *)

(** One [key=value] pair, encoded. *)
Definition encoded_pair (queryObject : jsval) (k : jsstr) : completion jsstr :=
  ek ← encode k;
  ev ← encode_component (get_prop queryObject k);
  mret (ek ++ js "=" ++ ev).

(** The pairs a query object stands for: every key with the ToString of
    its value. *)
Definition key_values (o : jsval) (ks : list jsstr) : completion (list (jsstr * jsstr)) :=
  mapM (λ k, s ← to_string (get_prop o k); mret (k, s)) ks.

(** A key whose pair can be encoded: the key and the ToString of its
    value exist and have no unpaired surrogate. *)
Definition pair_encodable (o : jsval) (k : jsstr) : Prop :=
  well_paired k = true ∧ ∃ s, to_string (get_prop o k) = Normal s ∧ well_paired s = true.

(** Why the pair of a key cannot be encoded: a key or a value string with
    an unpaired surrogate gives a [URIError], a value whose ToString
    throws gives a [TypeError]. *)
Definition pair_error (o : jsval) (k : jsstr) (e : js_error) : Prop :=
  (e = URIError ∧ well_paired k = false) ∨
  (e = TypeError ∧ tostring_throws (get_prop o k)) ∨
  (e = URIError ∧ ∃ s, to_string (get_prop o k) = Normal s ∧ well_paired s = false).

(** The URL, then [?] and the pairs joined by [&] when there is a key. *)
Definition query_string_ref (url : option jsstr) (queryObject : jsval) : completion jsstr :=
  keys ← query_keys queryObject;
  pairs ← mapM (encoded_pair queryObject) keys;
  u ← (match url with Some u => mret u | None => Throw TypeError end);
  mret (u ++ match pairs with [] => [] | _ => js "?" ++ join_with 38 pairs end).

(** The characters of the query part of a URL [queryStringified] builds:
    those of an encoded string, and the separators [?], [&] and [=]. *)
Definition query_char (c : Z) : bool := encoded_char c || (c =? 63) || (c =? 38) || (c =? 61).

(** ** Reading the query string back

    What a server reads from the URL [queryStringified] builds: the URL up
    to the first [?], then the pieces between [&], each split at [=] with
    both sides decoded by [decodeURIComponent]. *)

(** The string up to the first [sep], and the rest after it if there is
    one. *)
Fixpoint break_at (sep : Z) (s : jsstr) : jsstr * option jsstr :=
  match s with
  | [] => ([], None)
  | c :: s' => if bool_decide (c = sep) then ([], Some s') else let '(a, b) := break_at sep s' in (c :: a, b)
  end.

Definition read_pair (piece : jsstr) : completion (jsstr * jsstr) :=
  match split_on 61 piece with
  | [k; v] => k' ← decode k; v' ← decode v; mret (k', v')
  | _ => Throw URIError
  end.

Definition read_query (r : jsstr) : completion (jsstr * list (jsstr * jsstr)) :=
  match break_at 63 r with
  | (u, None) => mret (u, [])
  | (u, Some q) => pairs ← mapM read_pair (split_on 38 q); mret (u, pairs)
  end.


(** ** The loop computes the reference join *)

Lemma query_pair_encoded o k : query_pair o k = (λ p, p ++ [38]) <$> encoded_pair o k.
Proof.
  unfold query_pair, encoded_pair.
  destruct (encode k); simpl; [|done]. destruct (encode_component _); simpl; [|done].
  by rewrite <- !app_assoc.
Qed.

(** After the callbacks, [queryString] is its start followed by every
    encoded pair and its [&]. *)
Lemma for_each_pairs_spec o ks acc :
  for_each_pairs o ks acc
  = (λ ps, acc ++ mjoin ((λ p, p ++ [38]) <$> ps)) <$> mapM (encoded_pair o) ks.
Proof.
  revert acc. induction ks as [|k ks IH]; intros acc; simpl.
  - by rewrite app_nil_r.
  - rewrite query_pair_encoded. destruct (encoded_pair o k) as [q|e]; simpl; [|done].
    rewrite IH. destruct (mapM (encoded_pair o) ks); simpl; [|done].
    by rewrite <- !app_assoc.
Qed.

Lemma slice0_drop_last s c : slice0 (s ++ [c]) (Z.of_nat (length (s ++ [c])) - 1) = s.
Proof.
  unfold slice0. rewrite length_app. simpl. zcase; [lia|].
  replace (Z.min _ _) with (Z.of_nat (length s)) by lia.
  rewrite Nat2Z.id. apply take_app_length.
Qed.

Lemma mjoin_terminated (ps : list jsstr) :
  ps ≠ [] → mjoin ((λ p, p ++ [38]) <$> ps) = join_with 38 ps ++ [38].
Proof.
  induction ps as [|p ps IH]; [done|]. intros _. destruct ps as [|p' ps'].
  - simpl. by rewrite app_nil_r.
  - change (mjoin ((λ p, p ++ [38]) <$> p :: p' :: ps'))
      with ((p ++ [38]) ++ mjoin ((λ p, p ++ [38]) <$> p' :: ps')).
    rewrite IH by done. simpl. by rewrite <- !app_assoc.
Qed.


(** ** The query string reads back *)

Lemma break_at_nosep sep s : sep ∉ s → break_at sep s = (s, None).
Proof.
  induction s as [|c s IH]; intros Hn; [done|]. simpl.
  rewrite bool_decide_false by set_solver. by rewrite IH by set_solver.
Qed.

Lemma break_at_first sep s q : sep ∉ s → break_at sep (s ++ sep :: q) = (s, Some q).
Proof.
  induction s as [|c s IH]; intros Hn; simpl; [by rewrite bool_decide_true|].
  rewrite bool_decide_false by set_solver. by rewrite IH by set_solver.
Qed.

Lemma query_keys_wf o ks : val_wf o → query_keys o = Normal ks → Forall str_wf ks.
Proof.
  unfold query_keys. intros Hw. destruct (object_keys _) eqn:E; simpl; [|discriminate].
  unfold mret, completion_ret. intros [= <-]. apply (object_keys_wf (js_or o (JStr []))); [|done]. unfold js_or. destruct (truthy o); [done | constructor].
Qed.

(** What the code returns, as the URL and the encoded pairs. *)
Lemma queryStringified_pairs u o ks r :
  query_keys o = Normal ks → queryStringified (Some u) o = Normal r →
  ∃ ps, mapM (encoded_pair o) ks = Normal ps ∧
        r = u ++ (match ps with [] => [] | _ => js "?" ++ join_with 38 ps end).
Proof.
  intros Hk. unfold queryStringified. rewrite Hk. simpl. rewrite for_each_pairs_spec.
  destruct (mapM (encoded_pair o) ks) as [ps|e]; simpl; [|discriminate].
  unfold mret, completion_ret. intros [= <-]. exists ps. split; [done|]. destruct ps as [|p ps]; [by rewrite !app_nil_r|].
  rewrite mjoin_terminated by done. by rewrite app_comm_cons, slice0_drop_last.
Qed.

(** [encodeURIComponent] of a well-formed value: the ToString it encodes
    is well-formed. *)
Lemma encode_component_wf v t :
  val_wf v → encode_component v = Normal t → ∃ s, to_string v = Normal s ∧ str_wf s ∧ encode s = Normal t.
Proof.
  unfold encode_component. intros Hv. destruct (to_string v) as [s|] eqn:E; simpl; [|discriminate].
  intros Ht. exists s. eauto using to_string_wf.
Qed.

(** One encoded pair reads back to its key and the string of its value. *)
Lemma read_encoded_pair o k p :
  val_wf o → str_wf k → encoded_pair o k = Normal p →
  ∃ s, to_string (get_prop o k) = Normal s ∧ (38 ∉ p) ∧ read_pair p = Normal (k, s).
Proof.
  intros Ho Hk. unfold encoded_pair.
  destruct (encode k) as [ek|] eqn:Ek; [rewrite bind_Normal | simpl; discriminate].
  destruct (encode_component _) as [ev|] eqn:Ev; [rewrite bind_Normal | simpl; discriminate].
  destruct (encode_component_wf _ _ (get_prop_wf o k Ho) Ev) as (s & Hs & Hv & Es).
  unfold mret, completion_ret. change (js "=") with [61]. intros [= <-]. exists s. split; [done|]. split.
  - rewrite elem_of_app, elem_of_cons. intros [H|[H|H]].
    + by apply (encode_no_sep _ _ 38 Hk Ek); [set_solver|].
    + discriminate.
    + by apply (encode_no_sep _ _ 38 Hv Es); [set_solver|].
  - unfold read_pair.
    rewrite split_on_first by (apply (encode_no_sep _ _ 61 Hk Ek); set_solver).
    rewrite split_on_nosep by (apply (encode_no_sep _ _ 61 Hv Es); set_solver).
    by rewrite (decode_encode _ _ Hk Ek), (decode_encode _ _ Hv Es).
Qed.

(** The encoded pairs read back, in order, to the pairs of
    [key_values]. *)
Lemma encoded_pairs_read o ks pps :
  val_wf o → Forall str_wf ks → mapM (encoded_pair o) ks = Normal pps →
  ∃ kvs, key_values o ks = Normal kvs ∧ Forall (λ p, 38 ∉ p) pps ∧ mapM read_pair pps = Normal kvs.
Proof.
  intros Ho Hks. revert pps. induction Hks as [|k ks Hk _ IH]; intros pps; simpl.
  - intros [= <-]. by exists [].
  - destruct (encoded_pair o k) as [p|] eqn:Ep; simpl; [|discriminate].
    destruct (mapM (encoded_pair o) ks) as [pps'|] eqn:E; simpl; [|discriminate]. intros [= <-].
    destruct (read_encoded_pair o k p Ho Hk Ep) as (s & Hs & Hp & Hr).
    destruct (IH pps' eq_refl) as (kvs & Hkv & Hps & Hrs).
    exists ((k, s) :: kvs). unfold key_values in *. simpl. rewrite Hs, Hkv, Hr, Hrs.
    split; [done|]. split; [by constructor | done].
Qed.

(** An encoded pair is made of query characters. *)
Lemma encoded_pair_chars o k p :
  val_wf o → str_wf k → encoded_pair o k = Normal p → Forall (λ c, query_char c = true) p.
Proof.
  intros Ho Hk. unfold encoded_pair.
  destruct (encode k) as [ek|] eqn:Ek; [rewrite bind_Normal | simpl; discriminate].
  destruct (encode_component _) as [ev|] eqn:Ev; [rewrite bind_Normal | simpl; discriminate].
  destruct (encode_component_wf _ _ (get_prop_wf o k Ho) Ev) as (s & _ & Hv & Es).
  unfold mret, completion_ret. change (js "=") with [61]. intros [= <-].
  assert (∀ s t, str_wf s → encode s = Normal t → Forall (λ c, query_char c = true) t) as Hq.
  { intros s' t Hs Ht. eapply Forall_impl; [exact (encode_chars s' t Hs Ht)|].
    intros c Hc. unfold query_char. by rewrite Hc. }
  apply Forall_app_2; [by apply (Hq k)|]. constructor; [done|]. by apply (Hq s).
Qed.

(** The reading back of what [queryStringified] returns. *)
Lemma read_query_queryStringified u o ks r :
  val_wf o → 63 ∉ u → query_keys o = Normal ks → queryStringified (Some u) o = Normal r →
  ∃ kvs, key_values o ks = Normal kvs ∧ read_query r = Normal (u, kvs).
Proof.
  intros Ho Hu Hk Hr. pose proof (query_keys_wf o ks Ho Hk) as Hks.
  destruct (queryStringified_pairs u o ks r Hk Hr) as (ps & Hps & ->).
  destruct (encoded_pairs_read o ks ps Ho Hks Hps) as (kvs & Hkv & Hn & Hrd).
  exists kvs. split; [done|]. unfold read_query. destruct ps as [|p ps'].
  { simpl in Hrd. unfold mret, completion_ret in Hrd. injection Hrd as <-.
    by rewrite app_nil_r, break_at_nosep. }
  change (js "?") with [63]. cbn [app]. rewrite break_at_first by done.
  rewrite split_on_join by done. by rewrite Hrd.
Qed.

(** ** Errors of the query string *)

Lemma encode_component_throw v e :
  encode_component v = Throw e →
  (e = TypeError ∧ tostring_throws v) ∨ (e = URIError ∧ ∃ s, to_string v = Normal s ∧ well_paired s = false).
Proof.
  unfold encode_component. destruct (to_string v) as [s|e'] eqn:E; simpl.
  - intros Hs. pose proof (encode_throw_uri s e Hs) as ->. right. split; [done|].
    exists s. split; [done|]. by apply encode_throws_iff.
  - intros [= <-]. left. by apply to_string_throw.
Qed.

Lemma encoded_pair_throw o k e : encoded_pair o k = Throw e → pair_error o k e.
Proof.
  unfold encoded_pair, pair_error. destruct (encode k) as [ek|e'] eqn:Ek; simpl.
  - destruct (encode_component _) as [ev|e'] eqn:Ev; simpl; [discriminate|]. intros [= <-].
    apply encode_component_throw in Ev. naive_solver.
  - intros [= <-]. pose proof (encode_throw_uri _ _ Ek) as ->. left. split; [done|].
    by apply encode_throws_iff.
Qed.

Lemma encoded_pair_normal o k : (∃ p, encoded_pair o k = Normal p) ↔ pair_encodable o k.
Proof.
  unfold encoded_pair, pair_encodable, encode_component.
  pose proof (encode_normal_iff k) as Hk. destruct (encode k) as [ek|e]; simpl.
  - destruct (to_string _) as [s|e]; simpl.
    + pose proof (encode_normal_iff s) as Hs. destruct (encode s); simpl; naive_solver.
    + naive_solver.
  - naive_solver.
Qed.

(** [Object.keys] of [queryObject || ""] never throws. *)
Lemma query_keys_total o : ∃ ks, query_keys o = Normal ks.
Proof.
  unfold query_keys. destruct (object_keys _) eqn:E; [by eexists|]. exfalso.
  unfold js_or in E. destruct (truthy o) eqn:T; [|discriminate]. by destruct o.
Qed.

(** With a URL, [queryStringified] throws only the error of a pair. *)
Lemma queryStringified_throw u o ks e :
  query_keys o = Normal ks → queryStringified (Some u) o = Throw e → ∃ k, k ∈ ks ∧ pair_error o k e.
Proof.
  intros Hk. unfold queryStringified. rewrite Hk. simpl. rewrite for_each_pairs_spec.
  destruct (mapM (encoded_pair o) ks) eqn:E; simpl; [discriminate|]. intros [= <-].
  destruct (mapM_Throw_elem _ _ _ E) as (k & Hin & Hke). exists k. split; [done|].
  by apply encoded_pair_throw.
Qed.

(** ** The query string depends on a value only through its ToString *)

Lemma for_each_pairs_ext o1 o2 ks acc :
  (∀ k, to_string (get_prop o1 k) = to_string (get_prop o2 k)) →
  for_each_pairs o1 ks acc = for_each_pairs o2 ks acc.
Proof.
  intros Hv. revert acc. induction ks as [|k ks IH]; intros acc; simpl; [done|].
  unfold query_pair, encode_component. rewrite Hv. destruct (encode k); simpl; [|done].
  destruct (to_string (get_prop o2 k)); simpl; [|done]. destruct (encode _); simpl; [|done]. apply IH.
Qed.

Lemma list_find_key_app k ps1 ps2 :
  list_find_key k (ps1 ++ ps2) = match list_find_key k ps1 with Some p => Some p | None => list_find_key k ps2 end.
Proof. induction ps1 as [|p ps1 IH]; simpl; [done|]. by case_bool_decide. Qed.

(** ** Objects with flat values *)

Lemma list_find_key_flat kvs kv :
  NoDup kvs.*1 → kv ∈ kvs → list_find_key kv.1 ((λ kv, (kv.1, JStr kv.2)) <$> kvs) = Some (kv.1, JStr kv.2).
Proof.
  induction kvs as [|[k v] kvs IH]; simpl; [by intros _ ?%elem_of_nil|].
  intros [Hk Hnd]%NoDup_cons [->|Hin]%elem_of_cons; [by rewrite bool_decide_true|].
  rewrite bool_decide_false; [by apply IH|]. simpl. intros ->. apply Hk.
  by apply (list_elem_of_fmap_2 fst) in Hin.
Qed.

Lemma ordinary_keys_no_index ks : Forall (λ k, array_index k = None) ks → ordinary_keys ks = ks.
Proof.
  intros Hks. unfold ordinary_keys.
  assert (omap (λ k, (λ n, (n, k)) <$> array_index k) ks = []) as ->.
  { induction Hks as [|k ks Hk _ IH]; simpl; [done|]. by rewrite Hk. }
  simpl. induction Hks as [|k ks Hk _ IH]; simpl; [done|]. rewrite filter_cons_True by done. by f_equal.
Qed.

(** The loop computes the reference definition. *)
Lemma queryStringified_eq_ref url queryObject :
  queryStringified url queryObject = query_string_ref url queryObject.
Proof.
  unfold queryStringified, query_string_ref.
  destruct (query_keys queryObject) as [ks|e]; simpl; [|done].
  rewrite for_each_pairs_spec. destruct (mapM (encoded_pair queryObject) ks) as [ps|e]; simpl; [|done].
  destruct ps as [|p ps].
  - destruct url; simpl; [by rewrite !app_nil_r | done].
  - rewrite mjoin_terminated by done. rewrite app_comm_cons, slice0_drop_last.
    by destruct url.
Qed.

(** C12: the code's loop, which appends [key=value&] for every key and then
    cuts the last character, equals the reference definition: the URL,
    then (when there is a key) [?] and the encoded pairs joined by [&],
    with the same errors in the same order. *)
Theorem queryStringified_ref (url : option jsstr) (queryObject : jsval) :
  queryStringified url queryObject = query_string_ref url queryObject.
Proof. apply queryStringified_eq_ref. Qed.

(** C18: for an object, the keys the [forEach] of [queryStringified]
    visits are its own keys: the array-index keys first, in ascending
    numeric order, then the other keys in creation order. *)
Theorem query_keys_object_order (ps : list (jsstr * jsval)) :
  ∃ idx, query_keys (JObj ps) = Normal ((snd <$> idx) ++ filter (λ k, array_index k = None) (fst <$> ps)) ∧
         (snd <$> idx) ≡ₚ filter (λ k, is_Some (array_index k)) (fst <$> ps) ∧
         Sorted index_le idx ∧ Forall (λ p, array_index p.2 = Some p.1) idx.
Proof.
  destruct (ordinary_keys_spec (fst <$> ps)) as (idx & Hk & Hp & Hs & Hv).
  exists idx. unfold query_keys. simpl. by rewrite Hk.
Qed.

(** C13: the query string round-trips: for a well-formed query object and a
    URL without [?], reading back the URL [queryStringified] returns gives
    the URL and, in the order of [Object.keys], every key with the
    ToString of its value, whatever characters ([&], [=], [?], non-ASCII)
    they hold. *)
Theorem queryStringified_read_back (u : jsstr) (o : jsval) (ks : list jsstr) (r : jsstr) :
  val_wf o → 63 ∉ u → query_keys o = Normal ks → queryStringified (Some u) o = Normal r →
  ∃ kvs, key_values o ks = Normal kvs ∧ read_query r = Normal (u, kvs).
Proof. apply read_query_queryStringified. Qed.

(** C29: when [queryObject || ""] has no key (null, false, 0, "", {} or
    []), [queryStringified] returns the URL unchanged, without a [?]. *)
Theorem queryStringified_no_keys (u : jsstr) (queryObject : jsval) :
  query_keys queryObject = Normal [] → queryStringified (Some u) queryObject = Normal u.
Proof.
  intros Hk. unfold queryStringified. rewrite Hk. simpl. by rewrite app_nil_r.
Qed.

(** C16: for a well-formed query object, the URL [queryStringified]
    returns is the URL followed by a query part made only of unescaped
    characters, [%], upper-case hex digits, [?], [&] and [=]: no space,
    no non-ASCII unit, nothing a URL parser would alter. *)
Theorem queryStringified_query_chars (u : jsstr) (o : jsval) (r : jsstr) :
  val_wf o → queryStringified (Some u) o = Normal r →
  ∃ q, r = u ++ q ∧ Forall (λ c, query_char c = true) q.
Proof.
  intros Ho Hr. destruct (query_keys_total o) as [ks Hk].
  destruct (queryStringified_pairs u o ks r Hk Hr) as (ps & Hps & ->).
  eexists; split; [reflexivity|]. destruct ps as [|p ps]; [constructor|].
  apply Forall_app_2; [by repeat constructor|]. apply join_with_Forall; [done|].
  pose proof (query_keys_wf o ks Ho Hk) as Hks. apply mapM_Normal in Hps. clear Hr Hk.
  induction Hps; inversion Hks; subst; constructor; eauto using encoded_pair_chars.
Qed.

(** C24: with a URL, [queryStringified] returns exactly when, for every
    key, the key and the ToString of its value exist and have no unpaired
    surrogate; otherwise it throws the error of one key's pair: a
    [URIError] for an unpaired surrogate in the key or the value string,
    a [TypeError] for a value whose ToString throws. *)
Theorem queryStringified_succeeds_iff (u : jsstr) (o : jsval) (ks : list jsstr) :
  query_keys o = Normal ks →
  ((∃ r, queryStringified (Some u) o = Normal r) ↔ Forall (pair_encodable o) ks) ∧
  (∀ e, queryStringified (Some u) o = Throw e → ∃ k, k ∈ ks ∧ pair_error o k e).
Proof.
  intros Hk. split; [|intros e; by apply queryStringified_throw].
  unfold queryStringified. rewrite Hk. simpl. rewrite for_each_pairs_spec.
  transitivity (∃ ps, mapM (encoded_pair o) ks = Normal ps).
  - destruct (mapM _ _); simpl; naive_solver.
  - rewrite mapM_is_Normal. apply Forall_iff. intros k. apply encoded_pair_normal.
Qed.

(** C31: spec.md section 8 property 6 for every flat object: when the
    keys are distinct, none is an array index, and keys and string values
    use only characters [encodeURIComponent] leaves as they are, the URL
    is the base URL, [?] and the [key=value] pairs in insertion order
    joined by [&]. *)
Theorem queryStringified_flat (u : jsstr) (kvs : list (jsstr * jsstr)) :
  NoDup kvs.*1 → kvs ≠ [] →
  Forall (λ kv, array_index kv.1 = None ∧ Forall (λ c, is_unreserved c = true) (kv.1 ++ kv.2)) kvs →
  queryStringified (Some u) (JObj ((λ kv, (kv.1, JStr kv.2)) <$> kvs))
  = Normal (u ++ js "?" ++ join_with 38 ((λ kv, kv.1 ++ js "=" ++ kv.2) <$> kvs)).
Proof.
  intros Hnd Hne Hf. rewrite queryStringified_eq_ref. unfold query_string_ref, query_keys. simpl.
  rewrite <- list_fmap_compose. change (fst ∘ _) with (@fst jsstr jsstr).
  rewrite ordinary_keys_no_index by (apply Forall_fmap; eapply Forall_impl; [exact Hf | naive_solver]).
  rewrite (mapM_fmap_Normal _ fst (λ kv, kv.1 ++ js "=" ++ kv.2)).
  - destruct kvs; [done | reflexivity].
  - intros kv Hin. rewrite Forall_forall in Hf. destruct (Hf kv Hin) as [_ [Hk Hv]%Forall_app].
    unfold encoded_pair, encode_component, get_prop. rewrite (encode_unreserved _ Hk). simpl.
    rewrite list_find_key_flat by done. simpl. by rewrite (encode_unreserved _ Hv).
Qed.

(** C36: a value reaches the URL only through its ToString: replacing the
    value of a key by any value with the same ToString leaves the result
    of [queryStringified], URL or exception, unchanged.  So every nested
    object without an own "toString" key is sent as [[object Object]],
    and an array as the string of its comma-joined elements: a server
    cannot tell them apart. *)
Theorem queryStringified_value_to_string (url : option jsstr) (ps1 ps2 : list (jsstr * jsval))
    (k : jsstr) (v v' : jsval) :
  to_string v = to_string v' →
  queryStringified url (JObj (ps1 ++ (k, v) :: ps2)) = queryStringified url (JObj (ps1 ++ (k, v') :: ps2)).
Proof.
  intros Hv. unfold queryStringified.
  assert (query_keys (JObj (ps1 ++ (k, v) :: ps2)) = query_keys (JObj (ps1 ++ (k, v') :: ps2))) as ->.
  { unfold query_keys. simpl. by rewrite !fmap_app. }
  destruct (query_keys _); simpl; [|done].
  rewrite (for_each_pairs_ext _ (JObj (ps1 ++ (k, v') :: ps2))); [done|].
  intros k'. simpl. rewrite !list_find_key_app. destruct (list_find_key k' ps1); [done|].
  simpl. by case_bool_decide.
Qed.

(** C37: the [forEach] callback of line 61, on a key whose encoding
    succeeds, throws a TypeError exactly when the key's value is an
    object with an own "toString" key or an array holding one: the
    ToString of [encodeURIComponent] finds no callable "toString" or
    "valueOf" giving a primitive.  spec.md section 4.1 treats every value
    as string-coercible. *)
Theorem query_pair_type_error (o : jsval) (k : jsstr) :
  well_paired k = true →
  (query_pair o k = Throw TypeError ↔ tostring_throws (get_prop o k)).
Proof.
  intros Hk. destruct (proj2 (encode_normal_iff k) Hk) as [ek Ek].
  destruct (to_string_throws_iff (get_prop o k)) as (Hiff & Honly & Htot).
  unfold query_pair, encode_component. rewrite Ek. simpl. rewrite <- Hiff.
  destruct (to_string (get_prop o k)) as [s|e]; simpl; [|done].
  destruct (encode s) eqn:Es; simpl; [done|].
  apply encode_throw_uri in Es as ->. split; discriminate.
Qed.

(** ** Witnesses *)

(** [{"a&b": "x=y", "é": 1}], whose key and value hold the separators. *)
Definition separators_object : jsval :=
  JObj [(js "a&b", JStr (js "x=y")); ([233], JNum (Num 1 0))].

Lemma queryStringified_read_back_witness :
  queryStringified (Some (js "abc")) separators_object = Normal (js "abc?a%26b=x%3Dy&%C3%A9=1") ∧
  ∃ kvs, key_values separators_object [js "a&b"; [233]] = Normal kvs ∧
         read_query (js "abc?a%26b=x%3Dy&%C3%A9=1") = Normal (js "abc", kvs).
Proof.
  split; [vm_compute; reflexivity|].
  apply (queryStringified_read_back (js "abc") separators_object [js "a&b"; [233]]).
  - cbn. repeat split; compute_decide.
  - compute_decide.
  - vm_compute. reflexivity.
  - vm_compute. reflexivity.
Defined.

Lemma queryStringified_no_keys_witness :
  queryStringified (Some (js "abc")) (JObj []) = Normal (js "abc").
Proof. apply queryStringified_no_keys. vm_compute. reflexivity. Defined.

Lemma queryStringified_query_chars_witness :
  ∃ q, js "abc?a%26b=x%3Dy&%C3%A9=1" = js "abc" ++ q ∧ Forall (λ c, query_char c = true) q.
Proof.
  apply (queryStringified_query_chars (js "abc") separators_object).
  - cbn. repeat split; compute_decide.
  - vm_compute. reflexivity.
Defined.

Lemma queryStringified_succeeds_iff_witness :
  ((∃ r, queryStringified (Some (js "abc")) separators_object = Normal r) ↔
     Forall (pair_encodable separators_object) [js "a&b"; [233]]) ∧
  (∀ e, queryStringified (Some (js "abc")) separators_object = Throw e →
     ∃ k, k ∈ [js "a&b"; [233]] ∧ pair_error separators_object k e).
Proof. apply queryStringified_succeeds_iff. vm_compute. reflexivity. Defined.

Lemma queryStringified_flat_witness :
  queryStringified (Some (js "abc")) (JObj [(js "x", JStr (js "1")); (js "y", JStr (js "a-b"))])
  = Normal (js "abc?x=1&y=a-b").
Proof.
  apply (queryStringified_flat (js "abc") [(js "x", js "1"); (js "y", js "a-b")]);
    [compute_decide | discriminate | compute_decide].
Defined.

(** [{"a": {"b": 1}, "c": 2}] and [{"a": {}, "c": 2}] give the same URL. *)
Lemma queryStringified_value_to_string_witness :
  queryStringified (Some (js "abc")) (JObj ([] ++ (js "a", JObj [(js "b", JNum (Num 1 0))]) :: [(js "c", JNum (Num 2 0))]))
  = queryStringified (Some (js "abc")) (JObj ([] ++ (js "a", JObj []) :: [(js "c", JNum (Num 2 0))])).
Proof. apply queryStringified_value_to_string. reflexivity. Defined.

(** [{"a": {"toString": 1}}]: its key [a] gives a TypeError. *)
Lemma query_pair_type_error_witness :
  query_pair (JObj [(js "a", JObj [(js "toString", JNum (Num 1 0))])]) (js "a") = Throw TypeError ↔
  tostring_throws (get_prop (JObj [(js "a", JObj [(js "toString", JNum (Num 1 0))])]) (js "a")).
Proof. apply query_pair_type_error. reflexivity. Defined.

End Query.
