(* ===== verification/Json.v ===== *)
(** [JSON.parse] (ECMA-262 25.5.1 with the JSON grammar of ECMA-404) on
    code units, as the query branch of [xhrApi] calls it on the third
    segment of the command.  The parser is a recursive descent with fuel
    whose result distinguishes a syntax error ([PErr]) from running out
    of fuel ([PFuel]); [json_parse] gives it [2 * length + 2] units of
    fuel, and [json_parse_fuel_enough] shows that this never runs out, so
    every text is either parsed or refused with a SyntaxError.  Objects
    keep the first position and the last value of a duplicated key, as
    CreateDataProperty does during JSON.parse. *)

From S2P Require Import Prelude JsString JsValue.
Import JsString JsValue.

Module Json.

Inductive pres (A : Type) : Type :=
| POk (a : A) (rest : jsstr)
| PErr
| PFuel.
Arguments POk {A} a rest.
Arguments PErr {A}.
Arguments PFuel {A}.

Definition pmap {A B} (f : A → B) (r : pres A) : pres B :=
  match r with POk a s => POk (f a) s | PErr => PErr | PFuel => PFuel end.

(** ** Lexical parts *)

Definition is_ws (c : Z) : bool := (c =? 32) || (c =? 9) || (c =? 10) || (c =? 13).

Fixpoint skip_ws (s : jsstr) : jsstr :=
  match s with
  | c :: s' => if is_ws c then skip_ws s' else s
  | [] => []
  end.

Definition is_digit (c : Z) : bool := (48 <=? c) && (c <=? 57).

(** The longest run of digits at the start of [s], and what follows. *)
Fixpoint span_digits (s : jsstr) : list Z * jsstr :=
  match s with
  | c :: s' => if is_digit c then let '(ds, r) := span_digits s' in (c :: ds, r) else ([], s)
  | [] => ([], [])
  end.

Definition digits_value (ds : list Z) : Z := foldl (λ acc d, acc * 10 + (d - 48)) 0 ds.

Definition hex_value (c : Z) : option Z :=
  if is_digit c then Some (c - 48)
  else if (65 <=? c) && (c <=? 70) then Some (c - 55)
  else if (97 <=? c) && (c <=? 102) then Some (c - 87)
  else None.

(** The rest of [s] after the unit [c], if [s] starts with it. *)
Definition eat (c : Z) (s : jsstr) : option jsstr :=
  match s with
  | d :: r => if d =? c then Some r else None
  | [] => None
  end.

(** The unit a one-letter escape [\e] stands for. *)
Definition escape_char (e : Z) : option Z :=
  if e =? 34 then Some 34 else if e =? 92 then Some 92
  else if e =? 47 then Some 47 else if e =? 98 then Some 8
  else if e =? 102 then Some 12 else if e =? 110 then Some 10
  else if e =? 114 then Some 13 else if e =? 116 then Some 9 else None.

(** The unit of a [\uXXXX] escape. *)
Definition hex4 (h1 h2 h3 h4 : Z) : option Z :=
  match hex_value h1, hex_value h2, hex_value h3, hex_value h4 with
  | Some a, Some b, Some c, Some d => Some (((a * 16 + b) * 16 + c) * 16 + d)
  | _, _, _, _ => None
  end.

(** The characters of a string after its opening quote, up to and
    including the closing quote; a unit below U+0020 must be escaped. *)
Fixpoint parse_chars (s : jsstr) (acc : list Z) : pres jsstr :=
  match s with
  | [] => PErr
  | c :: r =>
      if c =? 34 then POk (reverse acc) r
      else if c =? 92 then
        match r with
        | e :: r' =>
            if e =? 117 then
              match r' with
              | h1 :: h2 :: h3 :: h4 :: r'' =>
                  match hex4 h1 h2 h3 h4 with Some u => parse_chars r'' (u :: acc) | None => PErr end
              | _ => PErr
              end
            else match escape_char e with Some u => parse_chars r' (u :: acc) | None => PErr end
        | [] => PErr
        end
      else if c <? 32 then PErr
      else parse_chars r (c :: acc)
  end.

(** An optional fraction [.digits]: its digits. *)
Definition parse_frac (s : jsstr) : option (list Z * jsstr) :=
  match eat 46 s with
  | Some r => let '(ds, r') := span_digits r in if bool_decide (ds = []) then None else Some (ds, r')
  | None => Some ([], s)
  end.

(** An optional exponent [e+digits]: its value. *)
Definition parse_exp (s : jsstr) : option (Z * jsstr) :=
  match s with
  | e :: r =>
      if (e =? 101) || (e =? 69) then
        let '(sg, r1) := match eat 43 r, eat 45 r with
                         | Some t, _ => (1, t)
                         | None, Some t => (-1, t)
                         | None, None => (1, r)
                         end in
        let '(ds, r2) := span_digits r1 in
        if bool_decide (ds = []) then None else Some (sg * digits_value ds, r2)
      else Some (0, s)
  | [] => Some (0, [])
  end.

(** The integer part [0 | [1-9][0-9]*]: its digits. *)
Definition parse_int (s : jsstr) : option (list Z * jsstr) :=
  match eat 48 s with
  | Some r => Some ([48], r)
  | None =>
      match s with
      | c :: _ => if (49 <=? c) && (c <=? 57) then Some (span_digits s) else None
      | [] => None
      end
  end.

(** A number after its optional minus sign, as [mantissa * 10^exp]. *)
Definition parse_unsigned (neg : bool) (s1 : jsstr) : pres number :=
  match parse_int s1 with
  | None => PErr
  | Some (ids, r1) =>
      match parse_frac r1 with
      | None => PErr
      | Some (fds, r2) =>
          match parse_exp r2 with
          | None => PErr
          | Some (e, r3) =>
              let m := digits_value (ids ++ fds) in
              POk (Num (if neg then - m else m) (e - Z.of_nat (length fds))) r3
          end
      end
  end.

(** A number [-? int frac? exp?]. *)
Definition parse_number (s : jsstr) : pres number :=
  match eat 45 s with
  | Some t => parse_unsigned true t
  | None => parse_unsigned false s
  end.

(** CreateDataProperty on a parsed object: a new key goes last, an
    existing one keeps its place and takes the new value. *)
Fixpoint set_prop (k : jsstr) (v : jsval) (ps : list (jsstr * jsval)) : list (jsstr * jsval) :=
  match ps with
  | [] => [(k, v)]
  | (k', v') :: ps' => if bool_decide (k' = k) then (k, v) :: ps' else (k', v') :: set_prop k v ps'
  end.

(** A keyword after its first letter: [rue], [alse], [ull]. *)
Definition keyword (w : String.string) (v : jsval) (r : jsstr) : pres jsval :=
  if bool_decide (take (length (js w)) r = js w) then POk v (drop (length (js w)) r) else PErr.
Arguments keyword _%_string_scope _ _.

(** ** Values *)

Fixpoint parse_value (fuel : nat) (s : jsstr) : pres jsval :=
  match fuel with
  | O => PFuel
  | S f =>
      match skip_ws s with
      | [] => PErr
      | c :: r =>
          if c =? 123 then
            match eat 125 (skip_ws r) with
            | Some r' => POk (JObj []) r'
            | None => parse_members f (skip_ws r) []
            end
          else if c =? 91 then
            match eat 93 (skip_ws r) with
            | Some r' => POk (JArr []) r'
            | None => parse_elems f (skip_ws r) []
            end
          else if c =? 34 then pmap JStr (parse_chars r [])
          else if c =? 116 then keyword "rue" (JBool true) r
          else if c =? 102 then keyword "alse" (JBool false) r
          else if c =? 110 then keyword "ull" JNull r
          else pmap JNum (parse_number (c :: r))
      end
  end
with parse_elems (fuel : nat) (s : jsstr) (acc : list jsval) : pres jsval :=
  match fuel with
  | O => PFuel
  | S f =>
      match parse_value f s with
      | POk v r =>
          match skip_ws r with
          | c :: r' =>
              if c =? 44 then parse_elems f r' (acc ++ [v])
              else if c =? 93 then POk (JArr (acc ++ [v])) r'
              else PErr
          | [] => PErr
          end
      | PErr => PErr
      | PFuel => PFuel
      end
  end
with parse_members (fuel : nat) (s : jsstr) (acc : list (jsstr * jsval)) : pres jsval :=
  match fuel with
  | O => PFuel
  | S f =>
      match skip_ws s with
      | c :: r =>
          if negb (c =? 34) then PErr else
          match parse_chars r [] with
          | POk k r1 =>
              match skip_ws r1 with
              | c1 :: r2 =>
                  if negb (c1 =? 58) then PErr else
                  match parse_value f r2 with
                  | POk v r3 =>
                      match skip_ws r3 with
                      | c3 :: r4 =>
                          if c3 =? 44 then parse_members f r4 (set_prop k v acc)
                          else if c3 =? 125 then POk (JObj (set_prop k v acc)) r4
                          else PErr
                      | [] => PErr
                      end
                  | PErr => PErr
                  | PFuel => PFuel
                  end
              | [] => PErr
              end
          | _ => PErr
          end
      | [] => PErr
      end
  end.

(** [JSON.parse(text)]: a value followed by nothing but white space. *)
Definition json_parse (text : jsstr) : completion jsval :=
  match parse_value (2 * length text + 2) text with
  | POk v r => if bool_decide (skip_ws r = []) then Normal v else Throw SyntaxError
  | _ => Throw SyntaxError
  end.

(** [JSON.parse(x)] with [x] a string or undefined (ToString gives
    "undefined", which is not JSON). *)
Definition json_text (x : option jsstr) : jsstr :=
  match x with Some t => t | None => js "undefined" end.

Definition json_parse_arg (x : option jsstr) : completion jsval := json_parse (json_text x).


(** ** Termination: the fuel of [json_parse] is enough *)

(** A result that did not run out of fuel and, when it succeeded, left
    fewer than [n] units. *)
Definition res_ok {A} (res : pres A) (n : nat) : Prop :=
  res ≠ PFuel ∧ ∀ a rest, res = POk a rest → (length rest < n)%nat.

Lemma res_ok_pmap {A B} (g : A → B) res n : res_ok res n → res_ok (pmap g res) n.
Proof. unfold res_ok, pmap. destruct res; naive_solver. Qed.

Lemma res_ok_PErr {A} n : res_ok (@PErr A) n.
Proof. split; [done | discriminate]. Qed.

Lemma res_ok_POk {A} (a : A) r n : (length r < n)%nat → res_ok (POk a r) n.
Proof. split; [done|]. by intros ?? [= _ <-]. Qed.

Lemma res_ok_weaken {A} (res : pres A) n m : res_ok res n → (n ≤ m)%nat → res_ok res m.
Proof. intros [H1 H2] Hnm. split; [done|]. intros ?? Hr. specialize (H2 _ _ Hr). lia. Qed.

#[local] Hint Resolve res_ok_pmap res_ok_PErr res_ok_POk : js.

Lemma skip_ws_le s : (length (skip_ws s) ≤ length s)%nat.
Proof. induction s as [|c s IH]; simpl; [lia|]. destruct (is_ws c); simpl; lia. Qed.

Lemma span_digits_le s : (length (span_digits s).2 ≤ length s)%nat.
Proof.
  induction s as [|c s IH]; simpl; [lia|].
  destruct (is_digit c); [destruct (span_digits s); simpl in *; lia | simpl; lia].
Qed.

Lemma eat_lt c s r : eat c s = Some r → (length r < length s)%nat.
Proof. destruct s as [|d s]; simpl; [discriminate|]. destruct (d =? c); [intros [= <-]; simpl; lia | discriminate]. Qed.

Lemma parse_chars_ok s acc : res_ok (parse_chars s acc) (length s).
Proof.
  revert acc. induction s as [s IH] using (induction_ltof1 _ (@length Z)); unfold ltof in IH.
  intros acc. destruct s as [|c r]; simpl; [auto with js|].
  destruct (c =? 34); [auto with js|]. destruct (c =? 92).
  - destruct r as [|e r']; [auto with js|]. destruct (e =? 117).
    + destruct r' as [|h1 [|h2 [|h3 [|h4 r'']]]]; try auto with js.
      destruct (hex4 h1 h2 h3 h4); [|auto with js].
      apply (res_ok_weaken _ (length r'')); [apply IH|]; simpl; lia.
    + destruct (escape_char e); [|auto with js].
      apply (res_ok_weaken _ (length r')); [apply IH|]; simpl; lia.
  - destruct (c <? 32); [auto with js|].
    apply (res_ok_weaken _ (length r)); [apply IH|]; simpl; lia.
Qed.

Lemma parse_int_le s ds r : parse_int s = Some (ds, r) → (length r < length s)%nat.
Proof.
  unfold parse_int. destruct (eat 48 s) eqn:E; [intros [= _ <-]; by apply eat_lt in E|].
  destruct s as [|c t]; [discriminate|]. destruct (_ && _) eqn:D; [|discriminate].
  assert (is_digit c = true) as Hd.
  { unfold is_digit. apply andb_true_iff in D as [D1 D2]. apply Z.leb_le in D1.
    apply andb_true_iff. rewrite !Z.leb_le. lia. }
  intros [= Hs]. cbn [span_digits] in Hs. rewrite Hd in Hs.
  pose proof (span_digits_le t). destruct (span_digits t). injection Hs as _ <-. simpl in *. lia.
Qed.

Lemma parse_frac_le s ds r : parse_frac s = Some (ds, r) → (length r ≤ length s)%nat.
Proof.
  unfold parse_frac. destruct (eat 46 s) eqn:E; [|intros [= _ <-]; lia].
  apply eat_lt in E. pose proof (span_digits_le l). destruct (span_digits l).
  case_bool_decide; [discriminate|]. intros [= _ <-]. simpl in *. lia.
Qed.

Lemma parse_exp_le s e r : parse_exp s = Some (e, r) → (length r ≤ length s)%nat.
Proof.
  unfold parse_exp. destruct s as [|c t]; [intros [= _ <-]; lia|].
  destruct (_ || _); [|intros [= _ <-]; lia].
  destruct (eat 43 t) as [t'|] eqn:E1; [apply eat_lt in E1|];
    [|destruct (eat 45 t) as [t'|] eqn:E2; [apply eat_lt in E2|]];
    [pose proof (span_digits_le t') | pose proof (span_digits_le t') | pose proof (span_digits_le t)];
    match goal with |- context [span_digits ?x] => destruct (span_digits x) end;
    case_bool_decide; try discriminate; intros [= _ <-]; simpl in *; lia.
Qed.

Lemma parse_unsigned_ok neg s : res_ok (parse_unsigned neg s) (length s).
Proof.
  unfold parse_unsigned.
  destruct (parse_int s) as [[ids r1]|] eqn:Hi; [|auto with js]. apply parse_int_le in Hi.
  destruct (parse_frac r1) as [[fds r2]|] eqn:Hf; [|auto with js]. apply parse_frac_le in Hf.
  destruct (parse_exp r2) as [[e r3]|] eqn:He; [|auto with js]. apply parse_exp_le in He.
  apply res_ok_POk. lia.
Qed.

Lemma parse_number_ok s : res_ok (parse_number s) (length s).
Proof.
  unfold parse_number. destruct (eat 45 s) as [t|] eqn:E; [|apply parse_unsigned_ok].
  apply eat_lt in E. eapply res_ok_weaken; [apply parse_unsigned_ok | lia].
Qed.

Lemma keyword_ok w v r : res_ok (keyword w v r) (S (length r)).
Proof.
  unfold keyword. case_bool_decide; [|auto with js].
  apply res_ok_POk. rewrite length_drop. lia.
Qed.

#[local] Hint Resolve parse_chars_ok parse_number_ok keyword_ok : js.


(** Close a [res_ok] goal from a lemma about a longer-or-equal string. *)
Ltac res_ok_by :=
  solve [ eapply res_ok_weaken; [eauto with js | simpl in *; lia]
        | apply res_ok_POk; simpl in *; lia ].

(** One level of fuel: the three parsers are fine with [S f] units when
    they are with [f] units.  The white space that [parse_value] and
    [parse_members] skip before looking at a unit never makes a string
    longer, and every call on the same string is one level down. *)
Section FuelStep.
Variable f : nat.
Hypothesis IHv : ∀ s, (2 * length s < f)%nat → res_ok (parse_value f s) (length s).
Hypothesis IHe : ∀ s acc, (2 * length s + 1 < f)%nat → res_ok (parse_elems f s acc) (length s).
Hypothesis IHm : ∀ s acc, (2 * length s + 1 < f)%nat → res_ok (parse_members f s acc) (length s).

Lemma parse_value_step s : (2 * length s < S f)%nat → res_ok (parse_value (S f) s) (length s).
Proof.
  intros Hs. cbn [parse_value]. pose proof (skip_ws_le s).
  destruct (skip_ws s) as [|c r] eqn:E; [auto with js|]. simpl in *. pose proof (skip_ws_le r).
  destruct (c =? 123).
  { destruct (eat 125 (skip_ws r)) eqn:Ec; [apply eat_lt in Ec; res_ok_by|].
    eapply res_ok_weaken; [apply IHm; lia | lia]. }
  destruct (c =? 91).
  { destruct (eat 93 (skip_ws r)) eqn:Ec; [apply eat_lt in Ec; res_ok_by|].
    eapply res_ok_weaken; [apply IHe; lia | lia]. }
  destruct (c =? 34); [res_ok_by|]. destruct (c =? 116); [res_ok_by|].
  destruct (c =? 102); [res_ok_by|]. destruct (c =? 110); [res_ok_by|].
  eapply res_ok_weaken; [apply res_ok_pmap, parse_number_ok | simpl; lia].
Qed.

Lemma parse_elems_step s acc :
  (2 * length s + 1 < S f)%nat → res_ok (parse_elems (S f) s acc) (length s).
Proof.
  intros Hs. cbn [parse_elems]. destruct (IHv s) as [Hf Hl]; [lia|].
  destruct (parse_value f s) as [v r| |] eqn:Ev; [|auto with js | done].
  specialize (Hl v r eq_refl). pose proof (skip_ws_le r).
  destruct (skip_ws r) as [|c r'] eqn:Er; [auto with js|]. simpl in *.
  destruct (c =? 44); [|destruct (c =? 93); [res_ok_by | auto with js]].
  eapply res_ok_weaken; [apply IHe; lia | lia].
Qed.

Lemma parse_members_step s acc :
  (2 * length s + 1 < S f)%nat → res_ok (parse_members (S f) s acc) (length s).
Proof.
  intros Hs. cbn [parse_members]. pose proof (skip_ws_le s).
  destruct (skip_ws s) as [|c r] eqn:E; [auto with js|]. simpl in *.
  destruct (c =? 34); simpl; [|auto with js].
  destruct (parse_chars_ok r []) as [_ Hk].
  destruct (parse_chars r []) as [k r1| |] eqn:Ek; [|auto with js | auto with js].
  specialize (Hk k r1 eq_refl). pose proof (skip_ws_le r1).
  destruct (skip_ws r1) as [|c1 r2] eqn:E1; [auto with js|]. simpl in *.
  destruct (c1 =? 58); simpl; [|auto with js].
  destruct (IHv r2) as [Hf Hl]; [lia|].
  destruct (parse_value f r2) as [v r3| |] eqn:Ev; [|auto with js | done].
  specialize (Hl v r3 eq_refl). pose proof (skip_ws_le r3).
  destruct (skip_ws r3) as [|c3 r4] eqn:E3; [auto with js|]. simpl in *.
  destruct (c3 =? 44); [|destruct (c3 =? 125); [res_ok_by | auto with js]].
  eapply res_ok_weaken; [apply IHm; lia | lia].
Qed.

End FuelStep.

Lemma parse_fuel_ok f :
  (∀ s, (2 * length s < f)%nat → res_ok (parse_value f s) (length s)) ∧
  (∀ s acc, (2 * length s + 1 < f)%nat → res_ok (parse_elems f s acc) (length s)) ∧
  (∀ s acc, (2 * length s + 1 < f)%nat → res_ok (parse_members f s acc) (length s)).
Proof.
  induction f as [|f (IHv & IHe & IHm)]; [repeat split; intros; lia|].
  split; [|split]; intros.
  - by apply parse_value_step.
  - by apply parse_elems_step.
  - by apply parse_members_step.
Qed.

(** [json_parse] never runs out of fuel: [2 * length + 2] units are
    enough, so its only error is the SyntaxError of a text that is not
    JSON. *)
Theorem json_parse_fuel_enough (text : jsstr) : parse_value (2 * length text + 2) text ≠ PFuel.
Proof. apply (proj1 (parse_fuel_ok _)). lia. Qed.

End Json.
