(* ===== verification/JsonWf.v ===== *)
(** Well-formedness of [JSON.parse]: the value parsed from a string of
    16-bit code units has only such strings inside ([json_parse_wf]).
    Every parser leaves a suffix of its input, and the strings it builds
    are made of input units and of escapes below 65536; the three mutual
    parsers are handled one level of fuel at a time in the Section
    [WfStep], as [Json] does for termination. *)

From S2P Require Import Prelude JsString JsValue Json.
Import JsString JsValue Json.

Module JsonWf.

(** ** Well-formedness: [JSON.parse] of code units gives well-formed values *)

(** What every parser leaves is a suffix of its input, and the strings it
    builds are made of code units. *)

Lemma str_wf_suffix r s : r `suffix_of` s → str_wf s → str_wf r.
Proof. intros [k ->] Hw. unfold str_wf in *. by apply Forall_app in Hw as [_ ?]. Qed.

Lemma skip_ws_suffix s : skip_ws s `suffix_of` s.
Proof.
  induction s as [|c s IH]; simpl; [done|].
  destruct (is_ws c); [by apply suffix_cons_r | done].
Qed.

Lemma span_digits_suffix s : (span_digits s).2 `suffix_of` s.
Proof.
  induction s as [|c s IH]; simpl; [done|].
  destruct (is_digit c); [|done]. destruct (span_digits s). by apply suffix_cons_r.
Qed.

Lemma eat_suffix c s r : eat c s = Some r → r `suffix_of` s.
Proof.
  destruct s as [|d s]; simpl; [discriminate|].
  destruct (d =? c); [intros [= <-]; by apply suffix_cons_r | discriminate].
Qed.

#[local] Hint Resolve skip_ws_suffix suffix_cons_r : js.

Lemma parse_int_suffix s ds r : parse_int s = Some (ds, r) → r `suffix_of` s.
Proof.
  unfold parse_int. destruct (eat 48 s) eqn:E; [intros [= _ <-]; by apply eat_suffix in E|].
  destruct s as [|c t]; [discriminate|]. destruct (_ && _); [|discriminate].
  pose proof (span_digits_suffix (c :: t)) as Hsuf. destruct (span_digits (c :: t)).
  by intros [= _ <-].
Qed.

Lemma parse_frac_suffix s ds r : parse_frac s = Some (ds, r) → r `suffix_of` s.
Proof.
  unfold parse_frac. destruct (eat 46 s) eqn:E; [|by intros [= _ <-]].
  apply eat_suffix in E. pose proof (span_digits_suffix l) as Hsuf. destruct (span_digits l).
  case_bool_decide; [discriminate|]. intros [= _ <-]. by etrans.
Qed.

Lemma parse_exp_suffix s e r : parse_exp s = Some (e, r) → r `suffix_of` s.
Proof.
  unfold parse_exp. destruct s as [|c t]; [by intros [= _ <-]|].
  destruct (_ || _); [|by intros [= _ <-]].
  destruct (eat 43 t) as [t'|] eqn:E1; [apply eat_suffix in E1|];
    [|destruct (eat 45 t) as [t'|] eqn:E2; [apply eat_suffix in E2|]];
    [pose proof (span_digits_suffix t') | pose proof (span_digits_suffix t') | pose proof (span_digits_suffix t)];
    match goal with |- context [span_digits ?x] => destruct (span_digits x) end;
    case_bool_decide; try discriminate; intros [= _ <-]; simpl in *; apply suffix_cons_r; by etrans.
Qed.

Lemma parse_number_suffix s x r : parse_number s = POk x r → r `suffix_of` s.
Proof.
  assert (∀ neg t, parse_unsigned neg t = POk x r → r `suffix_of` t) as Hu.
  { intros neg t. unfold parse_unsigned.
    destruct (parse_int t) as [[ids r1]|] eqn:Hi; [|discriminate]. apply parse_int_suffix in Hi.
    destruct (parse_frac r1) as [[fds r2]|] eqn:Hf; [|discriminate]. apply parse_frac_suffix in Hf.
    destruct (parse_exp r2) as [[e r3]|] eqn:He; [|discriminate]. apply parse_exp_suffix in He.
    intros [= _ <-]. by do 2 (etrans; [eassumption|]). }
  unfold parse_number. destruct (eat 45 s) as [t|] eqn:E; [|apply Hu].
  apply eat_suffix in E. intros H%Hu. by etrans.
Qed.

Lemma hex4_unit h1 h2 h3 h4 u : hex4 h1 h2 h3 h4 = Some u → unit_ok u.
Proof.
  assert (∀ c d, hex_value c = Some d → 0 ≤ d < 16) as Hh.
  { intros c d. unfold hex_value, is_digit.
    repeat (case_match; [intros [= <-]; rewrite ?andb_true_iff, ?Z.leb_le in *; lia|]). discriminate. }
  unfold hex4, unit_ok.
  destruct (hex_value h1) eqn:E1, (hex_value h2) eqn:E2, (hex_value h3) eqn:E3, (hex_value h4) eqn:E4;
    try discriminate.
  intros [= <-]. apply Hh in E1, E2, E3, E4. lia.
Qed.

Lemma escape_char_unit e u : escape_char e = Some u → unit_ok u.
Proof.
  unfold escape_char, unit_ok. repeat (case_match; [intros [= <-]; lia|]). discriminate.
Qed.

(** A parsed string is made of code units. *)
Lemma parse_chars_wf s acc k r :
  str_wf s → str_wf acc → parse_chars s acc = POk k r → str_wf k ∧ r `suffix_of` s.
Proof.
  revert acc. induction s as [s IH] using (induction_ltof1 _ (@length Z)); unfold ltof in IH.
  intros acc Hs Hacc. destruct s as [|c t]; simpl; [discriminate|].
  apply str_wf_cons in Hs as [Hc Ht].
  destruct (c =? 34).
  { intros [= <- <-]. split; [|auto with js]. unfold str_wf in *. by rewrite Forall_reverse. }
  destruct (c =? 92).
  - destruct t as [|e t']; [discriminate|]. apply str_wf_cons in Ht as [He Ht']. destruct (e =? 117).
    + destruct t' as [|h1 [|h2 [|h3 [|h4 t'']]]]; try discriminate.
      destruct (hex4 h1 h2 h3 h4) as [u|] eqn:Eh; [|discriminate]. intros Hp.
      assert (str_wf t'') as Ht'' by (unfold str_wf in *; rewrite !Forall_cons in Ht'; naive_solver).
      assert (str_wf (u :: acc)) as Hu by (apply str_wf_cons; split; [by apply (hex4_unit h1 h2 h3 h4) | done]).
      destruct (IH t'' ltac:(simpl; lia) (u :: acc) Ht'' Hu Hp). split; [done|].
      by do 6 apply suffix_cons_r.
    + destruct (escape_char e) as [u|] eqn:Ee; [|discriminate]. intros Hp.
      assert (str_wf (u :: acc)) as Hu by (apply str_wf_cons; split; [by apply (escape_char_unit e) | done]).
      destruct (IH t' ltac:(simpl; lia) (u :: acc) Ht' Hu Hp). split; [done|].
      by do 2 apply suffix_cons_r.
  - destruct (c <? 32); [discriminate|]. intros Hp.
    assert (str_wf (c :: acc)) as Hu by (by apply str_wf_cons).
    destruct (IH t ltac:(simpl; lia) (c :: acc) Ht Hu Hp). split; [done|]. by apply suffix_cons_r.
Qed.

Lemma keyword_suffix w v r v' r' : keyword w v r = POk v' r' → v' = v ∧ r' `suffix_of` r.
Proof.
  unfold keyword. case_bool_decide; [|discriminate]. intros [= <- <-]. split; [done|].
  apply suffix_drop.
Qed.

Lemma set_prop_wf k v ps :
  str_wf k → val_wf v → Forall (λ p, str_wf p.1 ∧ val_wf p.2) ps →
  Forall (λ p, str_wf p.1 ∧ val_wf p.2) (set_prop k v ps).
Proof.
  intros Hk Hv. induction 1 as [|[k' v'] ps Hp Hps IH]; simpl; [by constructor|].
  case_bool_decide; by constructor.
Qed.

(** A result whose value is well-formed and whose rest is a suffix of [s]. *)
Definition res_wf (res : pres jsval) (s : jsstr) : Prop :=
  ∀ v r, res = POk v r → val_wf v ∧ r `suffix_of` s.

Lemma res_wf_weaken res s t : res_wf res s → s `suffix_of` t → res_wf res t.
Proof. intros H Hs v r Hr. destruct (H v r Hr). split; [done|]. by etrans. Qed.

(** One level of fuel for well-formedness, as [FuelStep] is for
    termination. *)
Section WfStep.
Variable f : nat.
Hypothesis IHv : ∀ s, str_wf s → res_wf (parse_value f s) s.
Hypothesis IHe : ∀ s acc, str_wf s → Forall val_wf acc → res_wf (parse_elems f s acc) s.
Hypothesis IHm : ∀ s acc, str_wf s → Forall (λ p, str_wf p.1 ∧ val_wf p.2) acc →
  res_wf (parse_members f s acc) s.

Lemma parse_value_wf_step s : str_wf s → res_wf (parse_value (S f) s) s.
Proof.
  intros Hs. cbn [parse_value]. pose proof (skip_ws_suffix s) as Hsuf.
  destruct (skip_ws s) as [|c r] eqn:E; [discriminate|].
  assert (str_wf (skip_ws r)) as Hr.
  { apply (str_wf_suffix _ s); [|done]. etrans; [apply skip_ws_suffix|]. by etrans; [apply suffix_cons_r|]. }
  assert (skip_ws r `suffix_of` s) as Hrs by (etrans; [apply skip_ws_suffix|]; by etrans; [apply suffix_cons_r|]).
  assert (r `suffix_of` s) as Hr0 by (by etrans; [apply suffix_cons_r|]).
  destruct (c =? 123).
  { destruct (eat 125 (skip_ws r)) eqn:Ec.
    - intros v r' [= <- <-]. split; [done|]. etrans; [by apply eat_suffix in Ec | done].
    - eapply res_wf_weaken; [apply IHm; [done | constructor] | done]. }
  destruct (c =? 91).
  { destruct (eat 93 (skip_ws r)) eqn:Ec.
    - intros v r' [= <- <-]. split; [done|]. etrans; [by apply eat_suffix in Ec | done].
    - eapply res_wf_weaken; [apply IHe; [done | constructor] | done]. }
  destruct (c =? 34).
  { intros v r'. destruct (parse_chars r []) as [k r1| |] eqn:Ek; simpl; try discriminate.
    intros [= <- <-]. apply parse_chars_wf in Ek as [Hk Hsf]; [|by apply (str_wf_suffix _ s) | constructor].
    split; [done|]. by etrans. }
  assert (∀ w v0, val_wf v0 → res_wf (keyword w v0 r) s) as Hkw.
  { intros w v0 Hv v r' (-> & Hsf)%keyword_suffix. split; [done|]. by etrans. }
  destruct (c =? 116); [by apply Hkw|]. destruct (c =? 102); [by apply Hkw|].
  destruct (c =? 110); [by apply Hkw|].
  intros v r'. destruct (parse_number (c :: r)) as [x r1| |] eqn:En; simpl; try discriminate.
  intros [= <- <-]. split; [done|]. apply parse_number_suffix in En. by etrans.
Qed.

Lemma parse_elems_wf_step s acc : str_wf s → Forall val_wf acc → res_wf (parse_elems (S f) s acc) s.
Proof.
  intros Hs Hacc. cbn [parse_elems].
  destruct (parse_value f s) as [v r| |] eqn:Ev; [|discriminate | discriminate].
  destruct (IHv s Hs v r Ev) as [Hv Hrs]. pose proof (skip_ws_suffix r) as Hr.
  destruct (skip_ws r) as [|c r'] eqn:Er; [discriminate|].
  assert (r' `suffix_of` s) as Hr's by (etrans; [apply suffix_cons_r; reflexivity|]; by etrans).
  assert (Forall val_wf (acc ++ [v])) as Hacc' by (apply Forall_app; split; [done | by constructor]).
  destruct (c =? 44).
  - eapply res_wf_weaken; [apply IHe; [by apply (str_wf_suffix _ s) | done] | done].
  - destruct (c =? 93); [|discriminate]. intros v' r'' [= <- <-]. split; [|done]. by apply val_wf_arr.
Qed.

Lemma parse_members_wf_step s acc :
  str_wf s → Forall (λ p, str_wf p.1 ∧ val_wf p.2) acc → res_wf (parse_members (S f) s acc) s.
Proof.
  intros Hs Hacc. cbn [parse_members]. pose proof (skip_ws_suffix s) as Hsuf.
  destruct (skip_ws s) as [|c r] eqn:E; [discriminate|].
  assert (r `suffix_of` s) as Hr0 by (by etrans; [apply suffix_cons_r|]).
  destruct (c =? 34); simpl; [|discriminate].
  destruct (parse_chars r []) as [k r1| |] eqn:Ek; [|discriminate | discriminate].
  apply parse_chars_wf in Ek as [Hk Hr1]; [|by apply (str_wf_suffix _ s) | constructor].
  pose proof (skip_ws_suffix r1) as Hs1.
  destruct (skip_ws r1) as [|c1 r2] eqn:E1; [discriminate|].
  destruct (c1 =? 58); simpl; [|discriminate].
  assert (r2 `suffix_of` s) as Hr2 by (etrans; [apply suffix_cons_r; reflexivity|]; by do 2 (etrans; [eassumption|])).
  destruct (parse_value f r2) as [v r3| |] eqn:Ev; [|discriminate | discriminate].
  destruct (IHv r2 (str_wf_suffix _ _ Hr2 Hs) v r3 Ev) as [Hv Hr3].
  pose proof (skip_ws_suffix r3) as Hs3.
  destruct (skip_ws r3) as [|c3 r4] eqn:E3; [discriminate|].
  assert (r4 `suffix_of` s) as Hr4 by (etrans; [apply suffix_cons_r; reflexivity|]; by do 2 (etrans; [eassumption|])).
  pose proof (set_prop_wf k v acc Hk Hv Hacc) as Hset.
  destruct (c3 =? 44).
  - eapply res_wf_weaken; [apply IHm; [by apply (str_wf_suffix _ s) | done] | done].
  - destruct (c3 =? 125); [|discriminate]. intros v' r'' [= <- <-]. split; [|done]. by apply val_wf_obj.
Qed.

End WfStep.

Lemma parse_wf f :
  (∀ s, str_wf s → res_wf (parse_value f s) s) ∧
  (∀ s acc, str_wf s → Forall val_wf acc → res_wf (parse_elems f s acc) s) ∧
  (∀ s acc, str_wf s → Forall (λ p, str_wf p.1 ∧ val_wf p.2) acc → res_wf (parse_members f s acc) s).
Proof.
  induction f as [|f (IHv & IHe & IHm)]; [repeat split; intros; discriminate|].
  split; [|split]; intros.
  - by apply parse_value_wf_step.
  - by apply parse_elems_wf_step.
  - by apply parse_members_wf_step.
Qed.

(** [JSON.parse] of a string of code units returns a well-formed value. *)
Lemma json_parse_wf text v : str_wf text → json_parse text = Normal v → val_wf v.
Proof.
  intros Hw. unfold json_parse.
  destruct (parse_value _ text) as [v' r| |] eqn:E; try discriminate.
  case_bool_decide; [|discriminate]. intros [= <-].
  by destruct (proj1 (parse_wf _) text Hw v' r E).
Qed.

End JsonWf.
