(* ===== verification/Input.v ===== *)
(** The input adapter: [xhrApi] of [Request.js] (lines 23-72).  The
    command typed in the text field is split on [*]; when its first
    segment is exactly [query], [request("GET", queryStringified(seg1,
    JSON.parse(seg2)))] is issued, otherwise
    [request(seg0.toUpperCase(), seg1, seg2)].  An exception raised while
    the arguments are computed (JSON.parse, encodeURIComponent,
    [undefined.concat]) leaves [xhrApi] before [request] and
    [showResult] are called. *)

From S2P Require Import Prelude JsString Request JsValue Uri Query Json JsonWf.
Import JsString Request JsValue Query Json JsonWf.

Module Input.

(** What one run of [xhrApi] does: hand the promise of a [request] to
    [showResult], or throw before that. *)
Inductive outcome :=
| Dispatched (s : Request.started)
| Thrown (e : js_error).

Definition star : Z := 42.

(** [input.split("*")[i]], [None] for undefined. *)
Definition segment (input : jsstr) (i : nat) : option jsstr := js_split input [star] !! i.

Section WithEnv.
Context `{CaseMap} (url_parses : jsstr → bool).

(** [xhrApi(input)]. *)
Definition xhrApi (input : jsstr) : outcome :=
  if bool_decide (segment input 0 = Some (js "query")) then
    match qo ← json_parse_arg (segment input 2); queryStringified (segment input 1) qo with
    | Normal url => Dispatched (request url_parses (js "GET") (Some url) None)
    | Throw e => Thrown e
    end
  else
    match segment input 0 with
    | Some m => Dispatched (request url_parses (to_upper m) (segment input 1) (segment input 2))
    | None => Thrown TypeError
    end.

End WithEnv.

(** The ASCII case mapping: an instance of [CaseMap] that agrees with
    [toUpperCase] on every ASCII string, used to run the model on
    concrete commands. *)
#[export] Program Instance ascii_case_map : CaseMap := {| to_upper := map ascii_upper |}.
Next Obligation.
  intros s. split; [|intros ->; done]. by destruct s.
Qed.
Next Obligation.
  intros s Hs. induction Hs as [|c s Hc _ IH]; constructor; [|done].
  unfold ascii_upper, unit_ok in *. zcase; simpl; zcase; simpl; lia.
Qed.
Next Obligation. done. Qed.


(** ** Properties of [xhrApi] *)

(** A command [m*u*p] as typed in the text field. *)
Definition command (m u p : jsstr) : jsstr := m ++ star :: u ++ star :: p.

(** The three segments [xhrApi] reads are those of the structural split,
    whatever the length of the command: the limit 2^32-1 of [split] only
    cuts later pieces. *)
Lemma segment_small input i : (i < 3)%nat → segment input i = split_on star input !! i.
Proof.
  intros Hi. unfold segment. rewrite js_split_take. apply lookup_take_lt. unfold split_lim. lia.
Qed.

Lemma command_split m u p :
  star ∉ m → star ∉ u → split_on star (command m u p) = m :: u :: split_on star p.
Proof. intros Hm Hu. unfold command. rewrite split_on_first by done. by rewrite split_on_first. Qed.

Lemma split_on_head p1 p2 : star ∉ p1 → split_on star (p1 ++ star :: p2) !! 0%nat = Some p1.
Proof. intros. by rewrite split_on_first. Qed.

Lemma split_on_head_nosep p : star ∉ p → split_on star p !! 0%nat = Some p.
Proof. intros. by rewrite split_on_nosep. Qed.

Section Props.
Context `{CaseMap} (url_parses : jsstr → bool).

(** C5: a command [m*u*p] whose method segment is not [query] issues
    [request(m.toUpperCase(), u, p)] where [p] is the payload up to the
    next [*]: a payload containing [*] is cut there. *)
Theorem xhrApi_dispatch (m u p : jsstr) :
  star ∉ m → star ∉ u → m ≠ js "query" →
  xhrApi url_parses (command m u p)
  = Dispatched (request url_parses (to_upper m) (Some u) (split_on star p !! 0%nat)).
Proof.
  intros Hm Hu Hq. unfold xhrApi. rewrite !segment_small, command_split by (done || lia). simpl.
  rewrite bool_decide_false by congruence. destruct (split_on star p) as [|p0 ps] eqn:E; [|done].
  pose proof (split_on_length star p) as Hlen. rewrite E in Hlen. simpl in Hlen. lia.
Qed.

(** C11: a command [query*u*t] issues a GET of [queryStringified(u,
    JSON.parse(t))] when both succeed, and otherwise throws their error
    before any request is made. *)
Theorem xhrApi_query (u t : jsstr) :
  star ∉ u → star ∉ t →
  xhrApi url_parses (command (js "query") u t)
  = match json_parse t ≫= queryStringified (Some u) with
    | Normal url => Dispatched (request url_parses (js "GET") (Some url) None)
    | Throw e => Thrown e
    end.
Proof.
  intros Hu Ht. unfold xhrApi. rewrite !segment_small, command_split by (lia || done || set_solver).
  rewrite split_on_nosep by done. reflexivity.
Qed.

(** The outcomes of a query command whose JSON parses. *)
Lemma xhrApi_query_cases (u t : jsstr) (o : jsval) (ks : list jsstr) :
  star ∉ u → star ∉ t → 63 ∉ u →
  str_wf t → json_parse t = Normal o → query_keys o = Normal ks →
  match xhrApi url_parses (command (js "query") u t) with
  | Dispatched st => ∃ url kvs, st = request url_parses (js "GET") (Some url) None ∧
      key_values o ks = Normal kvs ∧ read_query url = Normal (u, kvs)
  | Thrown e => ∃ k, k ∈ ks ∧ pair_error o k e
  end.
Proof.
  intros Hu Ht Hq Hw Hj Hk.
  assert (xhrApi url_parses (command (js "query") u t)
          = match json_parse t ≫= queryStringified (Some u) with
            | Normal url => Dispatched (request url_parses (js "GET") (Some url) None)
            | Throw e => Thrown e
            end) as ->.
  { unfold xhrApi. rewrite !segment_small, command_split by (lia || done || set_solver).
    rewrite split_on_nosep by done. reflexivity. }
  rewrite Hj, bind_Normal. destruct (queryStringified (Some u) o) as [r|e] eqn:Hr.
  - destruct (read_query_queryStringified u o ks r) as (kvs & Hkv & Hrd);
      [by apply (json_parse_wf t) | done | done | done | ].
    by exists r, kvs.
  - by apply (queryStringified_throw u o ks).
Qed.

(** C14: end to end, a command [query*u*t] whose JSON [t] parses to [o]
    either issues a GET of a URL that reads back to [u] and to every key
    of [o] with the ToString of its value, in the order of
    [Object.keys], or throws before any request the error of one key's
    pair: the URIError of an unpaired surrogate in the key or the value
    string, or the TypeError of a value whose ToString throws (an object
    with an own "toString" key, or an array holding one). *)
Theorem xhrApi_query_read_back (u t : jsstr) (o : jsval) (ks : list jsstr) :
  star ∉ u → star ∉ t → 63 ∉ u →
  str_wf t → json_parse t = Normal o → query_keys o = Normal ks →
  match xhrApi url_parses (command (js "query") u t) with
  | Dispatched st => ∃ url kvs, st = request url_parses (js "GET") (Some url) None ∧
      key_values o ks = Normal kvs ∧ read_query url = Normal (u, kvs)
  | Thrown e => ∃ k, k ∈ ks ∧ pair_error o k e
  end.
Proof. apply xhrApi_query_cases. Qed.

(** C17: a command [m*u*p] whose method uppercases to GET or HEAD hands
    its payload to [send], but the browser transmits no body: the payload
    segment that spec.md section 4.2 says is passed through unmodified
    never reaches the server. *)
Theorem xhrApi_get_drops_payload (m u p : jsstr) (c : xhr_call) :
  star ∉ m → star ∉ u → m ≠ js "query" →
  byte_upper (to_upper m) ∈ [js "GET"; js "HEAD"] →
  xhrApi url_parses (command m u p) = Dispatched (Sent c) →
  xc_body c = norm_body (split_on star p !! 0%nat) ∧ wr_body (transmitted c) = None.
Proof.
  intros Hm Hu Hq Hg. unfold xhrApi. rewrite !segment_small, command_split by (done || lia). simpl.
  rewrite bool_decide_false by congruence. intros [= Hs].
  apply request_sent_fields in Hs as (Hmeth & Hb). split.
  - rewrite Hb. by destruct (split_on star p).
  - apply transmitted_get_no_body. by rewrite Hmeth.
Qed.

(** C25: [query*u] without a JSON segment throws the SyntaxError of
    [JSON.parse(undefined)]: nothing is requested and nothing is shown. *)
Theorem xhrApi_query_missing_json (u : jsstr) :
  star ∉ u →
  xhrApi url_parses (js "query" ++ star :: u) = Thrown SyntaxError.
Proof.
  intros Hu. unfold xhrApi. rewrite !segment_small by lia.
  rewrite split_on_first by set_solver. rewrite split_on_nosep by done. simpl.
  reflexivity.
Qed.

(** C27: the test for the query command is case-sensitive: [QUERY*u*p] is
    an ordinary request with the method [QUERY], although spec.md section
    4.2 compares the lower-cased segment with [query]. *)
Theorem xhrApi_QUERY_is_method (u p : jsstr) :
  star ∉ u → star ∉ p →
  xhrApi url_parses (command (js "QUERY") u p)
  = Dispatched (request url_parses (js "QUERY") (Some u) (Some p)).
Proof.
  intros Hu Hp. unfold xhrApi. rewrite !segment_small, command_split by (lia || done || set_solver).
  rewrite split_on_nosep by done. simpl.
  rewrite to_upper_ascii by (repeat constructor; lia). done.
Qed.

(** C28: a command with an empty method segment (the empty command, or one
    starting with [*]) rejects with "Please enter an http method" and
    makes no network call. *)
Theorem xhrApi_no_method (rest : jsstr) :
  (rest = [] ∨ ∃ r, rest = star :: r) →
  xhrApi url_parses rest = Dispatched (Immediate (Rejected (VStr msg_no_method))).
Proof.
  intros Hr. unfold xhrApi. rewrite !segment_small by lia.
  assert (split_on star rest !! 0%nat = Some []) as ->.
  { destruct Hr as [->|[r ->]]; [done|]. done. }
  simpl. by rewrite (proj2 (to_upper_nil_iff []) eq_refl).
Qed.

End Props.


(** ** Witnesses *)

Definition any_url (_ : jsstr) : bool := true.

Lemma xhrApi_dispatch_witness :
  xhrApi any_url (command (js "post") (js "u") (js "a*b"))
  = Dispatched (request any_url (to_upper (js "post")) (Some (js "u")) (split_on star (js "a*b") !! 0%nat)).
Proof. apply xhrApi_dispatch; compute_decide. Defined.

Lemma xhrApi_query_witness :
  xhrApi any_url (command (js "query") (js "abc") [123; 125])
  = match json_parse [123; 125] ≫= queryStringified (Some (js "abc")) with
    | Normal url => Dispatched (request any_url (js "GET") (Some url) None)
    | Throw e => Thrown e
    end.
Proof. apply xhrApi_query; compute_decide. Defined.

Lemma xhrApi_query_missing_json_witness :
  xhrApi any_url (js "query" ++ star :: js "abc") = Thrown SyntaxError.
Proof. apply xhrApi_query_missing_json; compute_decide. Defined.

Lemma xhrApi_QUERY_is_method_witness :
  xhrApi any_url (command (js "QUERY") (js "abc") (js "x"))
  = Dispatched (request any_url (js "QUERY") (Some (js "abc")) (Some (js "x"))).
Proof. apply xhrApi_QUERY_is_method; compute_decide. Defined.

Lemma xhrApi_no_method_witness :
  xhrApi any_url (star :: js "abc") = Dispatched (Immediate (Rejected (VStr msg_no_method))).
Proof. apply xhrApi_no_method. right. eexists. reflexivity. Defined.

(** [{"a&b":"x=y"}], whose key and value hold the separators. *)
Definition separators_json : jsstr := [123; 34] ++ js "a&b" ++ [34; 58; 34] ++ js "x=y" ++ [34; 125].

Lemma xhrApi_query_read_back_witness :
  match xhrApi any_url (command (js "query") (js "abc") separators_json) with
  | Dispatched st => ∃ url kvs, st = request any_url (js "GET") (Some url) None ∧
      key_values (JObj [(js "a&b", JStr (js "x=y"))]) [js "a&b"] = Normal kvs ∧
      read_query url = Normal (js "abc", kvs)
  | Thrown e => ∃ k, k ∈ [js "a&b"] ∧ pair_error (JObj [(js "a&b", JStr (js "x=y"))]) k e
  end.
Proof.
  apply (xhrApi_query_read_back any_url (js "abc") separators_json); try compute_decide;
    vm_compute; reflexivity.
Defined.

Lemma xhrApi_get_drops_payload_witness :
  xc_body {| xc_method := js "GET"; xc_url := Some (js "abc"); xc_async := true; xc_body := Some (js "x") |}
  = norm_body (split_on star (js "x") !! 0%nat) ∧
  wr_body (transmitted {| xc_method := js "GET"; xc_url := Some (js "abc"); xc_async := true;
                          xc_body := Some (js "x") |}) = None.
Proof. apply (xhrApi_get_drops_payload any_url (js "get") (js "abc") (js "x")); compute_decide || (vm_compute; reflexivity). Defined.

End Input.
