(* ===== verification/PageSpec.v ===== *)
(** The page as spec.md describes it (sections 4.2, 5 and 6): a display
    sink that holds one value, and the set of requests in flight.  A user
    action issues at most one request, or settles at once without a
    network call (only with the missing-method message or an exception of
    [open]); a request in flight completes once, and the sink then shows
    its outcome, fulfilled or rejected alike; nothing orders the
    completions.  [Browser] proves that every run of the page is a run of
    this specification. *)

From stdpp Require Import gmap.
From S2P Require Import Prelude JsString Request.
Import Request.

Module PageSpec.

Record spec_state := {
  sp_shown : option value;
  sp_inflight : gset nat
}.

(** What may be shown without a network call. *)
Definition settles_at_once (v : value) : Prop :=
  v = VStr msg_no_method ∨ ∃ e, v = VExn e.

Inductive spec_step : spec_state → spec_state → Prop :=
| sp_idle σ : spec_step σ σ
| sp_settle_now σ v :
    is_Some (sp_shown σ) → settles_at_once v →
    spec_step σ {| sp_shown := Some v; sp_inflight := sp_inflight σ |}
| sp_issue σ id :
    id ∉ sp_inflight σ →
    spec_step σ {| sp_shown := sp_shown σ; sp_inflight := {[id]} ∪ sp_inflight σ |}
| sp_complete σ id ev v :
    id ∈ sp_inflight σ → is_Some (sp_shown σ) →
    on_event ev = Fulfilled v ∨ on_event ev = Rejected v →
    spec_step σ {| sp_shown := Some v; sp_inflight := sp_inflight σ ∖ {[id]} |}.

End PageSpec.
