(* ===== verification/Browser.v ===== *)
(** The page and its event loop: [genericHtml] and [showResult] of
    [Request.js] (lines 4-21), [callXhr] and the two listeners (lines
    74-85), and the completion of the XHRs that [request] sent.

    The page state is the text field's value, the content of the
    [.response-data] element ([None] when the page has no such element),
    the XHRs in flight (a finite map from an id to the [open]/[send]
    arguments), the console and the log of network calls.  An event is
    one task of the browser's event loop: typing in the field, a keyup,
    a click, or the load or error event of a pending XHR.  Each task
    settles at most one promise of [request], so running the promise
    reactions of [showResult] at the end of the task (the microtask
    checkpoint) is the same as running them in their microtask order:
    [handle] does both in one step. *)

From stdpp Require Import gmap.
From S2P Require Import Prelude JsString Request JsValue Uri Query Json Input PageSpec.
Import JsString Request JsValue Query Json Input PageSpec.

Module Browser.

Inductive log_entry :=
| LogXhrError (id : nat)          (* console.log(e) in onerror *)
| LogUncaught (e : js_error)      (* an exception leaving a listener *)
| LogUnhandledRejection (e : js_error). (* a rejection no handler catches *)

Record page := {
  pg_input : jsstr;
  pg_display : option value;
  pg_pending : gmap nat xhr_call;
  pg_next : nat;
  pg_console : list log_entry;
  pg_net : list xhr_call
}.

Definition set_display (p : page) (v : value) : page :=
  {| pg_input := pg_input p; pg_display := Some v; pg_pending := pg_pending p;
     pg_next := pg_next p; pg_console := pg_console p; pg_net := pg_net p |}.

Definition add_log (p : page) (l : log_entry) : page :=
  {| pg_input := pg_input p; pg_display := pg_display p; pg_pending := pg_pending p;
     pg_next := pg_next p; pg_console := pg_console p ++ [l]; pg_net := pg_net p |}.

Definition set_input (p : page) (s : jsstr) : page :=
  {| pg_input := s; pg_display := pg_display p; pg_pending := pg_pending p;
     pg_next := pg_next p; pg_console := pg_console p; pg_net := pg_net p |}.

(** [xhrObject.send]: the call goes on the network log and waits under a
    fresh id. *)
Definition start_xhr (p : page) (c : xhr_call) : page :=
  {| pg_input := pg_input p; pg_display := pg_display p;
     pg_pending := <[pg_next p := c]> (pg_pending p);
     pg_next := S (pg_next p); pg_console := pg_console p; pg_net := pg_net p ++ [c] |}.

Definition finish_xhr (p : page) (id : nat) : page :=
  {| pg_input := pg_input p; pg_display := pg_display p;
     pg_pending := delete id (pg_pending p);
     pg_next := pg_next p; pg_console := pg_console p; pg_net := pg_net p |}.

(** [genericHtml(response)], lines 4-11: replace the [.response-data]
    element by a new one holding the response as text; [null.replaceWith]
    throws a TypeError when the page has no such element. *)
Definition genericHtml (p : page) (v : value) : completion page :=
  match pg_display p with
  | Some _ => Normal (set_display p v)
  | None => Throw TypeError
  end.

Definition settled_value (s : settlement) : value :=
  match s with Fulfilled v | Rejected v => v end.

(** [showResult(result)], lines 13-21, once [result] has settled: the
    [then] handler shows a fulfilment; a rejection, or an exception of
    the [then] handler, reaches the [catch] handler, which shows it; an
    exception of the [catch] handler is an unhandled rejection. *)
Definition showResult (p : page) (s : settlement) : page :=
  match genericHtml p (settled_value s) with
  | Normal p' => p'
  | Throw e =>
      match s with
      | Fulfilled _ =>
          match genericHtml p (VExn JsTypeError) with
          | Normal p' => p'
          | Throw e' => add_log p (LogUnhandledRejection e')
          end
      | Rejected _ => add_log p (LogUnhandledRejection e)
      end
  end.

Section Handlers.
Context `{CaseMap} (url_parses : jsstr → bool).

(** [callXhr()], lines 74-76: [xhrApi] on the field's value. *)
Definition callXhr (p : page) : page :=
  match xhrApi url_parses (pg_input p) with
  | Thrown e => add_log p (LogUncaught e)
  | Dispatched (Immediate s) => showResult p s
  | Dispatched (Sent c) => start_xhr p c
  end.

(** The keyup listener, lines 79-83: Enter (key code 13) calls
    [callXhr]. *)
Definition on_keyup (p : page) (keyCode : Z) : page :=
  if keyCode =? 13 then callXhr p else p.

(** The load or error event of the XHR [id]: [onload] or [onerror]
    settles its promise, whose [showResult] reactions then run. *)
Definition on_xhr_done (p : page) (id : nat) (ev : xhr_event) : option page :=
  match pg_pending p !! id with
  | Some _ =>
      let p1 := finish_xhr p id in
      let p2 := match ev with NetError => add_log p1 (LogXhrError id) | Load _ _ => p1 end in
      Some (showResult p2 (on_event ev))
  | None => None
  end.

Inductive event :=
| TypeText (s : jsstr)
| KeyUp (keyCode : Z)
| Click
| XhrDone (id : nat) (ev : xhr_event).

(** One task of the event loop; [None] when the event cannot happen (an
    XHR that is not in flight). *)
Definition handle (p : page) (e : event) : option page :=
  match e with
  | TypeText s => Some (set_input p s)
  | KeyUp k => Some (on_keyup p k)
  | Click => Some (callXhr p)
  | XhrDone id ev => on_xhr_done p id ev
  end.

Inductive step : page → event → page → Prop :=
| step_handle p e p' : handle p e = Some p' → step p e p'.

(** A run of the event loop over a sequence of events. *)
Fixpoint run (p : page) (es : list event) : option page :=
  match es with
  | [] => Some p
  | e :: es' => p' ← handle p e; run p' es'
  end.

(** The pages the event loop reaches from [p0]. *)
Inductive reachable (p0 : page) : page → Prop :=
| reach_init : reachable p0 p0
| reach_step p e p' : reachable p0 p → step p e p' → reachable p0 p'.

End Handlers.

(** The page as loaded: an empty field, an empty [.response-data]
    element, nothing in flight. *)
Definition initial_page : page :=
  {| pg_input := []; pg_display := Some (VStr []); pg_pending := ∅; pg_next := 0;
     pg_console := []; pg_net := [] |}.


(** ** The page invariant *)

(** The page keeps its [.response-data] element, every XHR in flight has
    an id below the counter, the counter is the number of network calls
    made so far, and the XHR in flight under an id is the call the
    network log holds at that position. *)
Definition page_inv (p : page) : Prop :=
  is_Some (pg_display p) ∧
  map_Forall (λ id _, (id < pg_next p)%nat) (pg_pending p) ∧
  length (pg_net p) = pg_next p ∧
  map_Forall (λ id c, pg_net p !! id = Some c) (pg_pending p).

#[export] Instance page_inv_dec p : Decision (page_inv p).
Proof. unfold page_inv. apply _. Defined.

Lemma showResult_present p s :
  is_Some (pg_display p) → showResult p s = set_display p (settled_value s).
Proof. intros [v Hv]. unfold showResult, genericHtml. by rewrite Hv. Qed.

(** [showResult] only touches the display and the console. *)
Lemma showResult_frame p s :
  pg_pending (showResult p s) = pg_pending p ∧ pg_next (showResult p s) = pg_next p ∧
  pg_net (showResult p s) = pg_net p ∧ pg_input (showResult p s) = pg_input p.
Proof. unfold showResult, genericHtml. destruct (pg_display p); simpl; [done|]. by destruct s. Qed.

Lemma page_inv_set_display p v : page_inv p → page_inv (set_display p v).
Proof. intros ([w Hw] & Hp & Hn & Hl). split; [simpl; rewrite ?Hw; by eexists | done]. Qed.

Lemma page_inv_add_log p l : page_inv p → page_inv (add_log p l).
Proof. done. Qed.

Lemma page_inv_set_input p s : page_inv p → page_inv (set_input p s).
Proof. done. Qed.

Lemma page_inv_showResult p s : page_inv p → page_inv (showResult p s).
Proof. intros Hi. rewrite showResult_present by apply Hi. by apply page_inv_set_display. Qed.

Lemma page_inv_start_xhr p c : page_inv p → page_inv (start_xhr p c).
Proof.
  intros (Hd & Hp & Hn & Hl). split; [done|]. simpl. split_and!.
  - apply map_Forall_insert_2; [lia|]. eapply map_Forall_impl; [exact Hp|]. simpl. lia.
  - rewrite length_app, Hn. simpl. lia.
  - apply map_Forall_insert_2.
    + rewrite lookup_app_r by lia. by rewrite Hn, Nat.sub_diag.
    + eapply map_Forall_impl; [exact Hl|]. intros id c' Hc. by apply lookup_app_l_Some.
Qed.

Lemma page_inv_finish_xhr p id : page_inv p → page_inv (finish_xhr p id).
Proof.
  intros (Hd & Hp & Hn & Hl). split; [done|]. simpl. split_and!; [| done |];
    by apply map_Forall_delete.
Qed.

#[local] Hint Resolve page_inv_set_display page_inv_add_log page_inv_set_input
  page_inv_showResult page_inv_finish_xhr : js.

Section HandlerProps.
Context `{CaseMap} (url_parses : jsstr → bool).

Lemma page_inv_callXhr p : page_inv p → page_inv (callXhr url_parses p).
Proof.
  intros Hi. unfold callXhr.
  destruct (xhrApi url_parses (pg_input p)) as [[s|c]|e]; auto using page_inv_start_xhr with js.
Qed.

Lemma page_inv_handle p e p' : page_inv p → handle url_parses p e = Some p' → page_inv p'.
Proof.
  intros Hi. destruct e as [s|k| |id ev]; simpl.
  - intros [= <-]. auto with js.
  - intros [= <-]. unfold on_keyup. destruct (k =? 13); auto using page_inv_callXhr.
  - intros [= <-]. by apply page_inv_callXhr.
  - unfold on_xhr_done. destruct (pg_pending p !! id); [|discriminate].
    intros [= <-]. destruct ev; auto with js.
Qed.

(** C8: every page the event loop reaches from a page that satisfies the
    invariant satisfies it: the [.response-data] element is never lost,
    ids in flight are below the counter, the counter counts the network
    calls, and the XHR in flight under an id is the network call logged
    at that position. *)
Theorem reachable_page_inv (p0 p : page) :
  page_inv p0 → reachable url_parses p0 p → page_inv p.
Proof.
  intros H0 Hr. induction Hr as [|p e p' _ IH Hs]; [done|].
  inversion Hs; subst. by eapply page_inv_handle.
Qed.

(** The task that completes a request in flight. *)
Lemma xhr_done_result p id c ev :
  is_Some (pg_display p) → pg_pending p !! id = Some c →
  handle url_parses p (XhrDone id ev)
  = Some (set_display (match ev with
                       | NetError => add_log (finish_xhr p id) (LogXhrError id)
                       | Load _ _ => finish_xhr p id
                       end) (settled_value (on_event ev))).
Proof.
  intros Hd Hc. simpl. unfold on_xhr_done. rewrite Hc. f_equal.
  destruct ev; by rewrite showResult_present.
Qed.

(** C7: a request in flight can always complete, and its completion
    renders its outcome in [.response-data] (for a success and a failure
    alike) and takes it out of flight. *)
Theorem xhr_done_renders (p : page) (id : nat) (c : xhr_call) (ev : xhr_event) :
  page_inv p → pg_pending p !! id = Some c →
  ∃ p', handle url_parses p (XhrDone id ev) = Some p' ∧
        pg_display p' = Some (settled_value (on_event ev)) ∧ pg_pending p' !! id = None.
Proof.
  intros Hi Hc. simpl. unfold on_xhr_done. rewrite Hc. eexists. split; [done|].
  assert (is_Some (pg_display p)) as Hd by apply Hi.
  destruct ev; rewrite showResult_present by done; simpl; split; auto; apply lookup_delete_eq.
Qed.

(** C6: spec.md section 8 property 7: two requests in flight complete
    independently, and the display shows the outcome of the one that
    completes last. *)
Theorem last_completion_wins (p : page) (a b : nat) (ca cb : xhr_call) (ea eb : xhr_event) :
  page_inv p → a ≠ b → pg_pending p !! a = Some ca → pg_pending p !! b = Some cb →
  ∃ p', run url_parses p [XhrDone a ea; XhrDone b eb] = Some p' ∧
        pg_display p' = Some (settled_value (on_event eb)).
Proof.
  intros Hi Hab Ha Hb. assert (is_Some (pg_display p)) as Hd by apply Hi.
  pose proof (xhr_done_result p a ca ea Hd Ha) as H1.
  set (p1 := set_display _ _) in H1.
  assert (pg_pending p1 !! b = Some cb) as Hb1 by (subst p1; destruct ea; simpl; by rewrite lookup_delete_ne).
  assert (page_inv p1) as Hi1 by (eapply page_inv_handle; [exact Hi | exact H1]).
  pose proof (xhr_done_result p1 b cb eb ltac:(apply Hi1) Hb1) as H2.
  eexists. split; [simpl in *; rewrite H1; simpl; rewrite H2; reflexivity | reflexivity].
Qed.

(** A key other than Enter does nothing. *)
Lemma keyup_not_enter (p : page) (k : Z) : k ≠ 13 → handle url_parses p (KeyUp k) = Some p.
Proof. intros Hk. simpl. unfold on_keyup. by zcase. Qed.

(** The events whose listener calls [callXhr]: Enter and a click. *)
Definition calls_xhr (e : event) : bool :=
  match e with KeyUp k => k =? 13 | Click => true | _ => false end.

(** A task that does not call [callXhr] sends nothing: the network log
    and the counter stay, and no XHR enters flight. *)
Lemma handle_quiet p e p' :
  calls_xhr e = false → handle url_parses p e = Some p' →
  pg_net p' = pg_net p ∧ pg_next p' = pg_next p ∧ dom (pg_pending p') ⊆ dom (pg_pending p).
Proof.
  destruct e as [s|k| |id ev]; simpl; intros Hq.
  - intros [= <-]. done.
  - intros [= <-]. unfold on_keyup. by rewrite Hq.
  - discriminate.
  - unfold on_xhr_done. destruct (pg_pending p !! id); [|discriminate]. intros [= <-].
    match goal with |- context [showResult ?q ?s] => destruct (showResult_frame q s) as (-> & -> & -> & _) end.
    destruct ev; simpl; try rewrite dom_delete_L; set_solver.
Qed.

(** C30: a run of the event loop with neither Enter nor a click makes no
    network call and starts no XHR: typing and other keys only edit the
    field, and completions only remove their own XHR from flight. *)
Theorem quiet_run_no_request (p p' : page) (es : list event) :
  Forall (λ e, calls_xhr e = false) es → run url_parses p es = Some p' →
  pg_net p' = pg_net p ∧ pg_next p' = pg_next p ∧ dom (pg_pending p') ⊆ dom (pg_pending p).
Proof.
  intros Hq. revert p. induction Hq as [|e es He _ IH]; simpl; intros p.
  - intros [= <-]. done.
  - destruct (handle url_parses p e) as [p1|] eqn:H1; simpl; [|discriminate]. intros Hr.
    destruct (IH p1 Hr) as (-> & -> & ?). destruct (handle_quiet p e p1 He H1) as (-> & -> & ?).
    split_and!; [done | done | set_solver].
Qed.

(** When [xhrApi] throws, the exception is reported on the console and
    the display and the network are left as they were. *)
Lemma callXhr_thrown (p : page) (e : js_error) :
  xhrApi url_parses (pg_input p) = Thrown e →
  callXhr url_parses p = add_log p (LogUncaught e).
Proof. intros He. unfold callXhr. by rewrite He. Qed.

(** C26: Enter on a query command [query*u*t] whose JSON text [t] does
    not parse only reports the exception of [JSON.parse] on the console:
    the display keeps its value, no request is sent and nothing enters
    flight.  spec.md section 4.2 lets the parse error propagate, but also
    says the outcome is always rendered. *)
Theorem enter_query_bad_json (p : page) (u t : jsstr) (e : js_error) :
  pg_input p = command (js "query") u t → star ∉ u → star ∉ t →
  json_parse t = Throw e →
  handle url_parses p (KeyUp 13) = Some (add_log p (LogUncaught e)).
Proof.
  intros Hin Hu Ht Hj. simpl. unfold on_keyup. rewrite Z.eqb_refl. f_equal.
  apply callXhr_thrown. unfold xhrApi. rewrite Hin, !segment_small, command_split by (lia || done || set_solver).
  rewrite split_on_nosep by done. simpl. unfold json_parse_arg, json_text. by rewrite Hj.
Qed.

(** C22: one press of Enter or click makes at most one network call, and
    exactly one when [xhrApi] sends a request. *)
Theorem callXhr_one_call (p : page) :
  pg_net (callXhr url_parses p) =
    pg_net p ++ match xhrApi url_parses (pg_input p) with
                | Dispatched (Sent c) => [c]
                | _ => []
                end.
Proof.
  unfold callXhr. destruct (xhrApi url_parses (pg_input p)) as [[s|c]|e]; simpl;
    [rewrite (proj1 (proj2 (proj2 (showResult_frame _ _)))) | |]; by rewrite ?app_nil_r.
Qed.

(** C15: end to end, pressing Enter on a query command whose JSON parses
    makes at most one network call, and the call it makes is a GET
    without body of a URL that reads back to the typed URL and to every
    key of the object with the ToString of its value. *)
Theorem enter_query_read_back (p p' : page) (u t : jsstr) (o : jsval) (ks : list jsstr) :
  pg_input p = command (js "query") u t → star ∉ u → star ∉ t → 63 ∉ u → u ≠ [] →
  str_wf t → json_parse t = Normal o → query_keys o = Normal ks →
  handle url_parses p (KeyUp 13) = Some p' →
  pg_net p' = pg_net p ∨
  ∃ url kvs, pg_net p' = pg_net p ++ [{| xc_method := js "GET"; xc_url := Some url; xc_async := true;
                                         xc_body := None |}] ∧
             key_values o ks = Normal kvs ∧ read_query url = Normal (u, kvs).
Proof.
  intros Hin Hu Ht Hq Hne Hw Hj Hk. simpl. unfold on_keyup. rewrite Z.eqb_refl. intros [= <-].
  pose proof (xhrApi_query_cases url_parses u t o ks Hu Ht Hq Hw Hj Hk) as Hc. rewrite <- Hin in Hc.
  unfold callXhr. destruct (xhrApi url_parses (pg_input p)) as [st|e]; [|by left].
  destruct Hc as (url & kvs & -> & Hkv & Hr).
  destruct (request url_parses (js "GET") (Some url) None) as [s|c] eqn:Hrq.
  - left. apply showResult_frame.
  - right. exists url, kvs. split_and!; [|done|done]. simpl.
    rewrite (request_sent_call _ _ _ _ _ Hrq); [done|].
    intros ->. unfold read_query in Hr. simpl in Hr. by injection Hr as <- _.
Qed.

(** C21: on a page without a [.response-data] element, completing a
    request renders nothing: [genericHtml] throws a TypeError in the
    [then] handler and again in the [catch] handler, which leaves an
    unhandled rejection on the console (after the console line of
    [onerror] for a network error); spec.md section 6 says the display
    sink is invoked once per completed request. *)
Theorem xhr_done_no_element (p : page) (id : nat) (c : xhr_call) (ev : xhr_event) :
  pg_display p = None → pg_pending p !! id = Some c →
  ∃ p', handle url_parses p (XhrDone id ev) = Some p' ∧ pg_display p' = None ∧
        pg_console p' = pg_console p ++ (match ev with NetError => [LogXhrError id] | Load _ _ => [] end)
                        ++ [LogUnhandledRejection TypeError].
Proof.
  intros Hd Hc. simpl. unfold on_xhr_done. rewrite Hc. eexists. split; [done|].
  unfold showResult, genericHtml.
  destruct ev as [st r|]; simpl; rewrite Hd; [unfold onload; repeat case_match|];
    simpl; split; try done; by rewrite <- ?app_assoc.
Qed.

(** A run that starts with a task that happens continues from its
    page. *)
Lemma run_cons_Some p e es p1 :
  handle url_parses p e = Some p1 → run url_parses p (e :: es) = run url_parses p1 es.
Proof. intros H1. simpl. by rewrite H1. Qed.

(** ** Requests complete at most once along a run *)

(** Whether an event is the completion of the XHR [id]. *)
Definition completes (id : nat) (e : event) : bool :=
  match e with XhrDone i _ => Nat.eqb i id | _ => false end.

(** An id that was handed out and whose XHR is no longer in flight. *)
Definition retired (p : page) (id : nat) : Prop :=
  pg_pending p !! id = None ∧ (id < pg_next p)%nat.

Lemma callXhr_retired p id : retired p id → retired (callXhr url_parses p) id.
Proof.
  intros [Hn Hlt]. unfold callXhr, retired.
  destruct (xhrApi url_parses (pg_input p)) as [[s|c]|e]; simpl.
  - by destruct (showResult_frame p s) as (-> & -> & _).
  - split; [rewrite lookup_insert_ne by lia; done | lia].
  - done.
Qed.

(** A retired id stays retired, and no task completes it. *)
Lemma handle_retired p e p' id :
  retired p id → handle url_parses p e = Some p' → retired p' id ∧ completes id e = false.
Proof.
  intros Hr. destruct e as [s|k| |i ev]; simpl.
  - by intros [= <-].
  - intros [= <-]. unfold on_keyup. split; [|done]. destruct (k =? 13); [by apply callXhr_retired | done].
  - intros [= <-]. split; [by apply callXhr_retired | done].
  - unfold on_xhr_done. destruct (pg_pending p !! i) eqn:Ei; [|discriminate]. intros [= <-].
    destruct Hr as [Hn Hlt]. assert (i ≠ id) as Hne by congruence. unfold retired.
    match goal with |- context [showResult ?q ?s] => destruct (showResult_frame q s) as (-> & -> & _) end.
    split; [|by apply Nat.eqb_neq]. destruct ev; split; simpl; try lia; by rewrite lookup_delete_ne.
Qed.

Lemma run_retired p es p' id :
  retired p id → run url_parses p es = Some p' → filter (λ e, completes id e = true) es = [].
Proof.
  revert p. induction es as [|e es IH]; intros p Hr; simpl; [done|].
  destruct (handle url_parses p e) as [p1|] eqn:H1; simpl; [|discriminate]. intros Hrun.
  destruct (handle_retired p e p1 id Hr H1) as [Hr1 Hc].
  rewrite filter_cons_False by congruence. by apply (IH p1).
Qed.

(** The completion of an XHR retires its id. *)
Lemma completes_retires p e p' id :
  page_inv p → completes id e = true → handle url_parses p e = Some p' → retired p' id.
Proof.
  intros (_ & Hlt & _) Hc. destruct e as [| | |i ev]; try discriminate. apply Nat.eqb_eq in Hc as ->.
  simpl. unfold on_xhr_done. destruct (pg_pending p !! id) as [c|] eqn:Ei; [|discriminate].
  intros [= <-]. specialize (Hlt id c Ei). simpl in Hlt. unfold retired.
  match goal with |- context [showResult ?q ?s] => destruct (showResult_frame q s) as (-> & -> & _) end.
  destruct ev; split; simpl; try lia; apply lookup_delete_eq.
Qed.

(** C20: along any run of the event loop from a page that satisfies the
    invariant, every XHR completes at most once, so the display sink is
    invoked at most once per request (spec.md section 6): a completed
    XHR leaves flight, and a later request never reuses its id. *)
Theorem run_completes_once (p p' : page) (es : list event) (id : nat) :
  page_inv p → run url_parses p es = Some p' →
  (length (filter (λ e, completes id e = true) es) ≤ 1)%nat.
Proof.
  revert p. induction es as [|e es IH]; intros p Hi; simpl; [lia|].
  destruct (handle url_parses p e) as [p1|] eqn:H1; simpl; [|discriminate]. intros Hrun.
  destruct (completes id e) eqn:Hc.
  - rewrite filter_cons_True by done. simpl.
    by rewrite (run_retired p1 es p' id (completes_retires p e p1 id Hi Hc H1) Hrun).
  - rewrite filter_cons_False by congruence. apply (IH p1); [by eapply page_inv_handle | done].
Qed.

(** C19: end to end, when the command in the field makes [xhrApi] send a
    call [c], pressing Enter puts [c] on the network under the next id,
    and when that XHR completes, with a load of any status or a network
    error, its outcome is shown in [.response-data] and nothing is left
    in flight that was not before. *)
Theorem enter_then_complete (p : page) (c : xhr_call) (ev : xhr_event) :
  page_inv p → xhrApi url_parses (pg_input p) = Dispatched (Sent c) →
  ∃ p', run url_parses p [KeyUp 13; XhrDone (pg_next p) ev] = Some p' ∧
        pg_net p' = pg_net p ++ [c] ∧ pg_display p' = Some (settled_value (on_event ev)) ∧
        pg_pending p' = pg_pending p ∧ pg_next p' = S (pg_next p).
Proof.
  intros (Hd & Hlt & _) Hx.
  assert (handle url_parses p (KeyUp 13) = Some (start_xhr p c)) as H1.
  { simpl. unfold on_keyup, callXhr. by rewrite Z.eqb_refl, Hx. }
  assert (pg_pending p !! pg_next p = None) as Hfresh.
  { apply eq_None_not_Some. intros [c' Hc']. specialize (Hlt _ _ Hc'). simpl in Hlt. lia. }
  pose proof (xhr_done_result (start_xhr p c) (pg_next p) c ev Hd
                ltac:(apply lookup_insert_eq)) as H2.
  eexists. split; [by rewrite (run_cons_Some _ _ _ _ H1), (run_cons_Some _ _ _ _ H2)|].
  destruct ev; simpl; split_and!; try done; by apply delete_insert_id.
Qed.

End HandlerProps.

(** ** The page refines the display-sink specification *)

(** What the specification sees of a page: the content of
    [.response-data] and the ids in flight. *)
Definition abs (p : page) : spec_state :=
  {| sp_shown := pg_display p; sp_inflight := dom (pg_pending p) |}.

Lemma spec_step_eq σ σ' : σ' = σ → spec_step σ σ'.
Proof. intros ->. constructor. Qed.

Lemma request_immediate up m u d s :
  request up m u d = Immediate s → ∃ v, s = Rejected v ∧ settles_at_once v.
Proof.
  unfold request. destruct (negb _).
  - intros [= <-]. eexists; split; [done | by left].
  - destruct (open_error _ _ _); [intros [= <-] | discriminate]. eexists; split; [done | right; eauto].
Qed.

Section Refinement.
Context `{CaseMap} (url_parses : jsstr → bool).

Lemma xhrApi_immediate input s :
  xhrApi url_parses input = Dispatched (Immediate s) → ∃ v, s = Rejected v ∧ settles_at_once v.
Proof.
  unfold xhrApi. case_bool_decide.
  - destruct (_ ≫= _); [|discriminate]. intros [= Hs]. by apply request_immediate in Hs.
  - destruct (segment input 0); [|discriminate]. intros [= Hs]. by apply request_immediate in Hs.
Qed.

Lemma callXhr_refines p : page_inv p → spec_step (abs p) (abs (callXhr url_parses p)).
Proof.
  intros (Hd & Hp & Hn & Hl). unfold callXhr.
  destruct (xhrApi url_parses (pg_input p)) as [[s|c]|e] eqn:Hx.
  - destruct (xhrApi_immediate _ _ Hx) as (v & -> & Hv).
    rewrite showResult_present by done. by apply sp_settle_now.
  - unfold abs. simpl. rewrite dom_insert_L. apply sp_issue. simpl.
    rewrite elem_of_dom. intros [c' Hc']. specialize (Hp _ _ Hc'). simpl in Hp. lia.
  - by apply spec_step_eq.
Qed.

(** One task of the event loop is one step of the specification (an idle
    one for typing, other keys and thrown errors). *)
Lemma handle_refines p e p' :
  page_inv p → handle url_parses p e = Some p' → spec_step (abs p) (abs p').
Proof.
  intros Hi. destruct e as [s|k| |id ev]; simpl.
  - intros [= <-]. by apply spec_step_eq.
  - intros [= <-]. unfold on_keyup. destruct (k =? 13); [by apply callXhr_refines|].
    by apply spec_step_eq.
  - intros [= <-]. by apply callXhr_refines.
  - unfold on_xhr_done. destruct (pg_pending p !! id) as [c|] eqn:Hc; [|discriminate].
    intros [= <-]. destruct Hi as (Hd & _).
    assert (is_Some (pg_display (match ev with NetError => add_log (finish_xhr p id) (LogXhrError id)
                                              | Load _ _ => finish_xhr p id end))) as Hd'
      by (by destruct ev).
    rewrite showResult_present by done. unfold abs. simpl.
    replace (pg_pending (match ev with NetError => add_log (finish_xhr p id) (LogXhrError id)
                                      | Load _ _ => finish_xhr p id end))
      with (delete id (pg_pending p)) by (by destruct ev).
    rewrite dom_delete_L. apply (sp_complete (abs p) id ev); simpl; [by apply elem_of_dom | done |].
    destruct (on_event ev); simpl; auto.
Qed.

(** C9: every run of the page is a run of the specification of spec.md
    sections 5 and 6: from a page that satisfies the invariant, each task
    of the event loop either leaves the display and the requests in
    flight as they were, issues one fresh request, shows at once the
    missing-method message or an exception of [open], or completes one
    request in flight and shows its outcome. *)
Theorem page_refines_spec (p0 p : page) :
  page_inv p0 → reachable url_parses p0 p → rtc spec_step (abs p0) (abs p).
Proof.
  intros H0 Hr. cut (page_inv p ∧ rtc spec_step (abs p0) (abs p)); [tauto|].
  induction Hr as [|p e p' _ [Hi IH] Hs]; [split; [done | constructor]|].
  inversion Hs as [? ? ? Hh]; subst. split; [by eapply page_inv_handle|].
  eapply rtc_r; [exact IH|]. by eapply handle_refines.
Qed.

End Refinement.

(** ** Witnesses *)

Definition typed_get : page := set_input initial_page (js "GET*abc").
Definition one_pending : page := callXhr any_url typed_get.
Definition two_pending : page := callXhr any_url one_pending.

Lemma reachable_page_inv_witness : page_inv one_pending.
Proof.
  apply (reachable_page_inv any_url initial_page); [compute_decide|].
  apply (reach_step _ _ typed_get Click); [|by constructor].
  apply (reach_step _ _ initial_page (TypeText (js "GET*abc"))); [constructor | by constructor].
Defined.

Lemma xhr_done_renders_witness :
  ∃ p', handle any_url one_pending (XhrDone 0 (Load 404 [])) = Some p' ∧
        pg_display p' = Some (settled_value (on_event (Load 404 []))) ∧ pg_pending p' !! 0%nat = None.
Proof. apply (xhr_done_renders any_url one_pending 0 sample_call); [compute_decide | reflexivity]. Defined.

(** Enter, the load of its request, then a second command and a click. *)
Definition get_session : list event :=
  [KeyUp 13; XhrDone 0 (Load 200 []); TypeText (js "GET*abc"); Click].

Lemma run_completes_once_witness :
  (length (filter (λ e, completes 0 e = true) get_session) ≤ 1)%nat.
Proof.
  apply (run_completes_once any_url typed_get
           (default typed_get (run any_url typed_get get_session)) _ 0);
    [compute_decide | vm_compute; reflexivity].
Defined.

Lemma enter_then_complete_witness :
  ∃ p', run any_url typed_get [KeyUp 13; XhrDone (pg_next typed_get) (Load 200 (js "ok"))] = Some p' ∧
        pg_net p' = pg_net typed_get ++ [sample_call] ∧
        pg_display p' = Some (settled_value (on_event (Load 200 (js "ok")))) ∧
        pg_pending p' = pg_pending typed_get ∧ pg_next p' = S (pg_next typed_get).
Proof. apply enter_then_complete; [compute_decide | vm_compute; reflexivity]. Defined.

Lemma last_completion_wins_witness :
  ∃ p', run any_url two_pending [XhrDone 0 NetError; XhrDone 1 (Load 200 (js "ok"))] = Some p' ∧
        pg_display p' = Some (settled_value (on_event (Load 200 (js "ok")))).
Proof.
  apply (last_completion_wins any_url two_pending 0 1 sample_call sample_call);
    [compute_decide | lia | reflexivity | reflexivity].
Defined.

Lemma quiet_run_no_request_witness :
  ∃ p', run any_url one_pending [TypeText (js "x"); KeyUp 65; XhrDone 0 NetError] = Some p' ∧
        pg_net p' = pg_net one_pending ∧ pg_next p' = pg_next one_pending ∧
        dom (pg_pending p') ⊆ dom (pg_pending one_pending).
Proof.
  eexists. split; [reflexivity|].
  apply (quiet_run_no_request any_url one_pending _ [TypeText (js "x"); KeyUp 65; XhrDone 0 NetError]);
    [compute_decide | reflexivity].
Defined.

Definition bad_json_page : page := set_input initial_page (command (js "query") (js "abc") (js "{")).

Lemma enter_query_bad_json_witness :
  handle any_url bad_json_page (KeyUp 13) = Some (add_log bad_json_page (LogUncaught SyntaxError)).
Proof.
  apply (enter_query_bad_json any_url bad_json_page (js "abc") (js "{"));
    [reflexivity | compute_decide | compute_decide | vm_compute; reflexivity].
Defined.

Definition typed_query : page :=
  set_input initial_page (command (js "query") (js "abc") separators_json).

Lemma enter_query_read_back_witness :
  pg_net (callXhr any_url typed_query) = pg_net typed_query ∨
  ∃ url kvs, pg_net (callXhr any_url typed_query)
             = pg_net typed_query ++ [{| xc_method := js "GET"; xc_url := Some url; xc_async := true;
                                        xc_body := None |}] ∧
             key_values (JObj [(js "a&b", JStr (js "x=y"))]) [js "a&b"] = Normal kvs ∧
             read_query url = Normal (js "abc", kvs).
Proof.
  apply (enter_query_read_back any_url typed_query (callXhr any_url typed_query) (js "abc")
           separators_json (JObj [(js "a&b", JStr (js "x=y"))]) [js "a&b"]);
    try compute_decide; vm_compute; reflexivity.
Defined.

(** A page whose [.response-data] element is missing, with one request in
    flight. *)
Definition no_element_page : page :=
  {| pg_input := []; pg_display := None; pg_pending := {[0%nat := sample_call]}; pg_next := 1;
     pg_console := []; pg_net := [sample_call] |}.

Lemma xhr_done_no_element_witness :
  ∃ p', handle any_url no_element_page (XhrDone 0 NetError) = Some p' ∧ pg_display p' = None ∧
        pg_console p' = pg_console no_element_page ++ [LogXhrError 0] ++ [LogUnhandledRejection TypeError].
Proof. apply (xhr_done_no_element any_url no_element_page 0 sample_call NetError); reflexivity. Defined.

Lemma page_refines_spec_witness : rtc spec_step (abs initial_page) (abs one_pending).
Proof.
  apply (page_refines_spec any_url initial_page); [compute_decide|].
  apply (reach_step _ _ typed_get Click); [|by constructor].
  apply (reach_step _ _ initial_page (TypeText (js "GET*abc"))); [constructor | by constructor].
Defined.

End Browser.
